(** * extract_internal_signals.py: a shallow embedding and its properties

    The script reads one Verilog/SystemVerilog file, finds the module name
    and the internal [wire] and [reg] declarations with three regular
    expressions, removes duplicate names and writes a CSV file and a text
    report.

    The embedding, then the properties:
    - [Sre]: the part of Python's backtracking matcher ([re], engine [_sre])
      that the three patterns use, with [finditer]/[findall];
    - [Patterns]: the three patterns, built the way lines 115-128 build them;
    - [Aggregate]: the name lists, the counts and the name -> dimension dict;
    - [Script]: the [__main__] block as a program over a file system and a
      console, in a small state-and-exception monad;
    - [Claims], [Captures], [Shapes] and [Written]: the vocabulary in which
      the properties are stated, [Written] for declarations and headers as
      texts;
    - the modules of lemmas, with the statements next to the lemmas they
      rest on: [Properties] for runs, the dict and the worked examples,
      [ListingFacts] for written declarations, [HeaderListing] for written
      headers, and the others for groups, outputs and the ends of a run.

    A text is the list of its code points; the model covers code points
    below 256 (type [ascii]). The contents of a file are what [read()]
    returns; files are written as on a POSIX system, where text mode leaves
    the line ends as they are. A path names a file through [locate], so two
    paths may name one file. *)

From stdpp Require Import gmap strings.
From Stdlib Require Import Ascii String List Arith Lia Bool Permutation.
Import ListNotations.

(** ** Characters and texts *)

Definition text := list ascii.

Definition code (c : ascii) : nat := nat_of_ascii c.

(** [str.isspace()] on one code point below 256, which is what [\s] tests
    in a [str] pattern: TAB, LF, VT, FF, CR, FS, GS, RS, US, SPACE, NEL
    and NBSP. *)
Definition is_space (c : ascii) : bool :=
  let n := code c in
  ((9 <=? n) && (n <=? 13)) || ((28 <=? n) && (n <=? 32))
  || (n =? 133) || (n =? 160).

Definition chr (n : nat) : ascii := ascii_of_nat n.
Definition TAB : string := String (chr 9) EmptyString.
Definition LF : string := String (chr 10) EmptyString.
Definition CR : string := String (chr 13) EmptyString.

(** [hay] begins with [needle]. *)
Fixpoint starts_with (needle hay : text) : bool :=
  match needle, hay with
  | [], _ => true
  | c :: n', d :: h' => Ascii.eqb c d && starts_with n' h'
  | _ :: _, [] => false
  end.

Module Sre.

(** *** Pattern syntax

    One constructor per parse-tree node of [sre_parse] that occurs in the
    script's patterns. *)

(** A member of a bracketed set [[...]]. *)
Inductive set_item : Type :=
| SChar (c : ascii)            (* a single character *)
| SRange (lo hi : ascii)       (* lo-hi *)
| SSpace.                      (* \s *)

Definition item_has (c : ascii) (i : set_item) : bool :=
  match i with
  | SChar d => Ascii.eqb c d
  | SRange lo hi => (code lo <=? code c) && (code c <=? code hi)
  | SSpace => is_space c
  end.

Definition in_set (cs : list set_item) (c : ascii) : bool :=
  existsb (item_has c) cs.

Inductive regex : Type :=
| Empty
| Literal (c : ascii)
| InSet (cs : list set_item)
| Seq (r1 r2 : regex)
| Branch (r1 r2 : regex)                              (* r1|r2 *)
| RepeatOne (lo : nat) (hi : option nat) (cs : list set_item)
      (* greedy repeat of a one-character item: x*, x+, x?, x{n} *)
| Repeat (lo hi : nat) (r : regex)
      (* greedy bounded repeat of a group: (...){lo,hi}, (...)? *)
| Subpattern (i : nat) (r : regex)                    (* capturing group i *)
| AssertNotBehind (r : regex).                        (* (?<!r) *)

(** [getwidth] of [sre_parse]: least and greatest length of a match
    ([None] = unbounded). A look-behind steps back by the least width; the
    compiler accepts it only when both widths agree. *)
Fixpoint getwidth (r : regex) : nat * option nat :=
  match r with
  | Empty => (0, Some 0)
  | Literal _ | InSet _ => (1, Some 1)
  | Seq r1 r2 =>
      let '(l1, h1) := getwidth r1 in
      let '(l2, h2) := getwidth r2 in
      (l1 + l2, match h1, h2 with Some a, Some b => Some (a + b) | _, _ => None end)
  | Branch r1 r2 =>
      let '(l1, h1) := getwidth r1 in
      let '(l2, h2) := getwidth r2 in
      (Nat.min l1 l2,
       match h1, h2 with Some a, Some b => Some (Nat.max a b) | _, _ => None end)
  | RepeatOne lo hi _ => (lo, hi)
  | Repeat lo hi r1 =>
      let '(l1, h1) := getwidth r1 in
      (lo * l1, match h1 with Some a => Some (hi * a) | None => None end)
  | Subpattern _ r1 => getwidth r1
  | AssertNotBehind _ => (0, Some 0)
  end.

(** *** Matcher state

    The text is split at the current position: [behind] holds the
    characters before it, nearest first, [ahead] the characters from it on.
    [groups] maps a group number to the text it captured last. *)
Record mstate : Type := MState {
  pos : nat;
  behind : text;
  ahead : text;
  groups : list (nat * text)
}.

Definition start_state (s : text) : mstate := MState 0 [] s [].

Definition advance (st : mstate) : option mstate :=
  match ahead st with
  | c :: rest => Some (MState (S (pos st)) (c :: behind st) rest (groups st))
  | [] => None
  end.

(** Step [w] characters back (the caller checks [w <= pos st]). *)
Definition rewind (w : nat) (st : mstate) : mstate :=
  MState (pos st - w) (skipn w (behind st))
         (rev (firstn w (behind st)) ++ ahead st) (groups st).

Definition set_group (i : nat) (from : mstate) (st : mstate) : mstate :=
  MState (pos st) (behind st) (ahead st)
         ((i, firstn (pos st - pos from) (ahead from)) :: groups st).

Fixpoint get_group (i : nat) (g : list (nat * text)) : option text :=
  match g with
  | [] => None
  | (j, t) :: g' => if i =? j then Some t else get_group i g'
  end.

(** The rest of the pattern, as a function of the state reached. *)
Definition kont : Type := mstate -> option mstate.

Definition one_char (p : ascii -> bool) (st : mstate) (k : kont) : option mstate :=
  match ahead st with
  | c :: rest =>
      if p c then k (MState (S (pos st)) (c :: behind st) rest (groups st))
      else None
  | [] => None
  end.

(** REPEAT_ONE: take as many characters as the bounds allow, then give
    them back one at a time until the rest of the pattern matches. *)
Fixpoint repeat_one (p : ascii -> bool) (lo : nat) (hi : option nat)
    (n : nat) (b a : text) (g : list (nat * text)) (k : kont) {struct a}
    : option mstate :=
  let stop := if lo =? 0 then k (MState n b a g) else None in
  match hi with
  | Some 0 => stop
  | _ =>
      match a with
      | c :: rest =>
          if p c then
            match repeat_one p (Nat.pred lo) (option_map Nat.pred hi)
                             (S n) (c :: b) rest g k with
            | Some r => Some r
            | None => stop
            end
          else stop
      | [] => stop
      end
  end.

(** REPEAT ... MAX_UNTIL: [count] rounds of [body] are done and [left] more
    are allowed. Another round is tried first; when it fails, or none is
    left, the rest of the pattern follows, provided [lo] rounds are done.
    (The engine also refuses a round that starts where the round before it
    started; no pattern of the script can reach that case.) *)
Fixpoint max_until (body : mstate -> kont -> option mstate) (lo left count : nat)
    (st : mstate) (k : kont) {struct left} : option mstate :=
  let tail := if lo <=? count then k st else None in
  match left with
  | 0 => tail
  | S left' =>
      match body st (fun st1 => max_until body lo left' (S count) st1 k) with
      | Some res => Some res
      | None => tail
      end
  end.

(** The matcher proper, in continuation-passing style: [sre_match r st k]
    is the first success, in backtracking order, of [r] from [st] followed
    by [k]. Captures travel with the state, so abandoning a branch also
    abandons its captures (MARK_POP). *)
Fixpoint sre_match (r : regex) (st : mstate) (k : kont) {struct r}
    : option mstate :=
  match r with
  | Empty => k st
  | Literal c => one_char (Ascii.eqb c) st k
  | InSet cs => one_char (in_set cs) st k
  | Seq r1 r2 => sre_match r1 st (fun st1 => sre_match r2 st1 k)
  | Branch r1 r2 =>
      match sre_match r1 st k with
      | Some res => Some res
      | None => sre_match r2 st k
      end
  | RepeatOne lo hi cs =>
      repeat_one (in_set cs) lo hi (pos st) (behind st) (ahead st) (groups st) k
  | Repeat lo hi r1 => max_until (sre_match r1) lo hi 0 st k
  | Subpattern i r1 => sre_match r1 st (fun st1 => k (set_group i st st1))
  | AssertNotBehind r1 =>
      let w := fst (getwidth r1) in
      if w <=? pos st then
        match sre_match r1 (rewind w st) Some with
        | Some _ => None
        | None => k st
        end
      else k st
  end.

(** Whether the look-behind [(?<!r)] fails at [st]. *)
Definition rejects (r : regex) (st : mstate) : bool :=
  let w := fst (getwidth r) in
  (w <=? pos st)
  && match sre_match r (rewind w st) Some with Some _ => true | None => false end.

Definition match_at (r : regex) (st : mstate) : option mstate :=
  sre_match r st Some.

(** *** Scanning: [finditer] and [findall] *)

Record found : Type := Found {
  m_start : nat;
  m_end : nat;
  m_groups : list (nat * text)
}.

(** A match from [st] that does not end where it starts. This is the
    engine's [must_advance]: a success that ends at the start is refused
    and the matcher backtracks for another one. *)
Definition match_beyond (r : regex) (st : mstate) : option mstate :=
  sre_match r st (fun st' => if pos st' =? pos st then None else Some st').

(** Left-to-right scan for non-overlapping matches, as [pattern_findall]
    and [pattern_finditer] of [_sre] do it since Python 3.7. [skip] counts
    the positions still covered by the last match: the search resumes where
    that match ended. After an empty match it resumes at the same position
    with [must_advance] set, so that only a match that is not empty is
    taken there; at the positions further on any match is taken again. *)
Fixpoint scan (r : regex) (n : nat) (b a : text) (skip : nat) {struct a}
    : list found :=
  let rest (skip' : nat) :=
    match a with
    | c :: a' => scan r (S n) (c :: b) a' skip'
    | [] => []
    end in
  let onward (st : mstate) :=
    Found n (pos st) (groups st) :: rest (Nat.pred (pos st - n)) in
  match skip with
  | S skip' => rest skip'
  | 0 =>
      match match_at r (MState n b a []) with
      | None => rest 0
      | Some st =>
          if pos st =? n then
            Found n (pos st) (groups st)
            :: match match_beyond r (MState n b a []) with
               | Some st' => onward st'
               | None => rest 0
               end
          else onward st
      end
  end.

Definition finditer (r : regex) (s : text) : list found := scan r 0 [] s 0.

(** [r] cannot match the empty text. *)
Definition never_empty (r : regex) : Prop :=
  forall st st', match_at r st = Some st' -> pos st' <> pos st.

Definition group (i : nat) (m : found) : string :=
  match get_group i (m_groups m) with
  | Some t => string_of_list_ascii t
  | None => EmptyString   (* findall gives '' for a group that took no part *)
  end.

(** [re.findall] for a pattern with one group: the list of group 1. *)
Definition findall1 (r : regex) (s : string) : list string :=
  map (group 1) (finditer r (list_ascii_of_string s)).

(** [re.findall] for a pattern with two groups: the list of pairs. *)
Definition findall2 (r : regex) (s : string) : list (string * string) :=
  map (fun m => (group 1 m, group 2 m)) (finditer r (list_ascii_of_string s)).

(** Helpers to write patterns. *)
Definition seq_all (rs : list regex) : regex := fold_right Seq Empty rs.

Definition lits (t : text) : regex := seq_all (map Literal t).
Definition lit (s : string) : regex := lits (list_ascii_of_string s).

Definition star (cs : list set_item) : regex := RepeatOne 0 None cs.
Definition plus (cs : list set_item) : regex := RepeatOne 1 None cs.
Definition opt (cs : list set_item) : regex := RepeatOne 0 (Some 1) cs.
Definition exactly (n : nat) (cs : list set_item) : regex := RepeatOne n (Some n) cs.

(** *** What a pattern can consume

    The texts a pattern can consume, look-behinds and captures aside. *)
Fixpoint lang (r : regex) (w : text) : Prop :=
  match r with
  | Empty => w = []
  | Literal c => w = [c]
  | InSet cs => exists c, w = [c] /\ in_set cs c = true
  | Seq r1 r2 => exists w1 w2, w = w1 ++ w2 /\ lang r1 w1 /\ lang r2 w2
  | Branch r1 r2 => lang r1 w \/ lang r2 w
  | RepeatOne lo hi cs =>
      lo <= length w
      /\ (forall h, hi = Some h -> length w <= h)
      /\ Forall (fun c => in_set cs c = true) w
  | Repeat lo hi r1 =>
      exists ws, w = concat ws /\ lo <= length ws <= hi /\ Forall (lang r1) ws
  | Subpattern _ r1 => lang r1 w
  | AssertNotBehind _ => w = []
  end.

(** From [st] to [st'] the matcher moved over the text [w]. *)
Definition consumed (w : text) (st st' : mstate) : Prop :=
  ahead st = w ++ ahead st' /\ pos st' = pos st + length w.

End Sre.

(** ** The three patterns (lines 115-128) *)

Module Patterns.
Import Sre.

Definition lower : set_item := SRange "a" "z".
Definition upper : set_item := SRange "A" "Z".
Definition digit : set_item := SRange "0" "9".

(** the maximum number of white spaces that we expect between the port
    type ("input"/"output") and the signal name *)
Definition maxNumWhiteSpaces : nat := 16.

(** One round of the loop at lines 118-119: the two negative look-behinds
    for "input\s{i}" and "output\s{i}". *)
Definition port_tokens (i : nat) : list regex :=
  [ Seq (lit "input") (exactly i [SSpace]);
    Seq (lit "output") (exactly i [SSpace]) ].

Definition lookbehinds (i : nat) : list regex :=
  map AssertNotBehind (port_tokens i).

(** The set of line 122 for the inside of a bracket: backquote, a-z, A-Z,
    0-9, underscore, minus, plus, colon, star, slash and space. *)
Definition dimension_chars : list set_item :=
  [ SChar "`"; lower; upper; digit; SChar "_"; SChar "-"; SChar "+";
    SChar ":"; SChar "*"; SChar "/"; SChar " " ].

(** The set of line 122 for the signal name: a-z, A-Z, underscore, 0-9 and
    dollar. *)
Definition signal_chars : list set_item :=
  [ lower; upper; SChar "_"; digit; SChar "$" ].

(** One bracketed dimension with the spaces after it; this is group 1. *)
Definition bracketed_dimension : regex :=
  Subpattern 1
    (seq_all [ Literal "[";               (* \[ *)
               plus dimension_chars;      (* [...]+ *)
               Literal "]";               (* \] *)
               Repeat 0 1                 (* (?: ... )? around *)
                 (star [SChar " "]) ]).   (* [ ]* *)

(** Line 122, with the keyword as a parameter. *)
Definition signal_declaration (kw : string) : regex :=
  seq_all
    [ lit kw;                             (* wire *)
      star [SSpace];                      (* \s* *)
      Repeat 0 2 bracketed_dimension;               (* ( ... ){0,2} *)
      plus [SSpace];                      (* \s+ *)
      Subpattern 2 (plus signal_chars);   (* ([a-zA-Z\_0-9\$]+) *)
      star [SSpace];                      (* \s* *)
      opt [SChar ";"] ].                  (* ;? *)

(** The string after the loop and line 122. Line 125 obtains the register
    pattern by replacing "wire", which occurs once, by "reg". *)
Definition internalPatternRawStr (kw : string) : regex :=
  seq_all (flat_map lookbehinds (seq 0 (maxNumWhiteSpaces + 1))
           ++ [signal_declaration kw]).

Definition internalWiresPattern : regex := internalPatternRawStr "wire".
Definition internalRegsPattern : regex := internalPatternRawStr "reg".

(** The set written with a newline and \s. *)
Definition newline_or_space : list set_item := [SChar (chr 10); SSpace].

(** Line 126 after the look-behind. *)
Definition module_header : regex :=
  seq_all
    [ lit "module";                                         (* module *)
      plus [SSpace];                                        (* \s+ *)
      Repeat 0 1 (lit "$[PREFIX]");                         (* (?:\$\[PREFIX\])? *)
      Subpattern 1 (plus [lower; upper; SChar "_"; digit]); (* ([a-zA-Z\_0-9]+) *)
      star newline_or_space;                                (* [\n\s]* *)
      opt [SChar "#"];                                      (* #? *)
      star newline_or_space;                                (* [\n\s]* *)
      Literal "(" ].                                        (* \( *)

(** Line 126: the keyword must not follow a space, a slash, a letter or an
    underscore. *)
Definition not_after : regex :=
  AssertNotBehind
    (Branch (Literal " ")
       (Branch (Literal "/") (InSet [lower; upper; SChar "_"]))).

Definition moduleNamePattern : regex := Seq not_after module_header.

End Patterns.

(** ** Names, counts and the dict (lines 161-193) *)

Module Aggregate.

(** One item of a [findall] result: [m[0]] is the dimension, [m[1]] the
    name. *)
Definition declaration : Type := string * string.
Definition dimension_of (m : declaration) : string := fst m.
Definition name_of (m : declaration) : string := snd m.

(** [list(set(l))]: every element of [l] once, in an order that the
    language does not fix (for strings it changes from run to run). *)
Record set_order : Type := SetOrder {
  list_of_set : list string -> list string;
  list_of_set_NoDup : forall l, NoDup (list_of_set l);
  list_of_set_In : forall l x, In x (list_of_set l) <-> In x l
}.

(** Two such orders: by first occurrence, and the reverse of that. *)
Definition first_seen : set_order :=
  SetOrder (nodup string_dec) (NoDup_nodup string_dec) (nodup_In string_dec).

Definition last_seen : set_order :=
  SetOrder (fun l => rev (nodup string_dec l))
    (fun l => NoDup_rev (NoDup_nodup string_dec l))
    (fun l x => iff_trans (iff_sym (in_rev (nodup string_dec l) x))
                          (nodup_In string_dec l x)).

(** [for i in range(0, n): ... l[i] ...], with [n] the length of [l]
    computed earlier. *)
Definition for_range {A : Type} (n : nat) (l : list A) : list A := firstn n l.

(** Lines 161-164 and 172-175: the names, in order, duplicates included. *)
Definition names (n : nat) (l : list declaration) : list string :=
  map name_of (for_range n l).

(** A Python dict: keys in order of first insertion; assigning to a key
    that is present replaces its value in place. (The f-strings of lines
    208 and 217 need Python 3.6, from which on dicts keep that order.) *)
Definition dict : Type := list (string * string).

Fixpoint dict_set (d : dict) (k v : string) : dict :=
  match d with
  | [] => [(k, v)]
  | (k', v') :: d' =>
      if String.eqb k k' then (k', v) :: d' else (k', v') :: dict_set d' k v
  end.

Fixpoint dict_get (d : dict) (k : string) : option string :=
  match d with
  | [] => None
  | (k', v') :: d' => if String.eqb k k' then Some v' else dict_get d' k
  end.

Definition dict_items (d : dict) : list (string * string) := d.

(** Lines 189-193. *)
Definition internalSignalsDict (numInternalSignals : nat)
    (internalSignals : list declaration) : dict :=
  fold_left
    (fun d m =>
       let signalDimension := dimension_of m in
       let signalName := name_of m in
       dict_set d signalName signalDimension)
    (for_range numInternalSignals internalSignals) [].

End Aggregate.

(** ** The script (lines 70-225) *)

Module Script.
Import Sre Patterns Aggregate.

(** The console messages, one constructor per template of lines 19-62 that
    the script prints, with the values that fill its placeholders. *)
Inductive message : Type :=
| noArgsMsg
| noSuchFileMsg (path : string)
| fileReadSuccess
| fileReadError
| moduleNameNotIdentified (name : string)
| noInternalWiresIdentified
| noInternalRegsIdentified
| goodbyeMsg (outputFileName outputCsvFileName : string)
| internalSignalsSummaryMsg (moduleName : string)
    (numUniqueWireNames numUniqueRegNames numUniqueSignalNames : nat).

(** A regular file: either it decodes to a text or [read()] raises. *)
Inductive file : Type :=
| Readable (contents : string)
| Unreadable.

(** [files] holds the regular files of the system, each once, under a
    name of its own; which file a path names is the business of [locate],
    below. *)
Record world : Type := World {
  files : gmap string file;
  console : list message      (* what has been printed, oldest first *)
}.

Inductive exn : Type :=
| NameError (name : string)
| TypeError.

(** How a run stops before the end of the script. *)
Inductive halt : Type :=
| SystemExit                  (* exit() *)
| Traceback (e : exn).        (* an exception nobody catches *)

Definition prog (A : Type) : Type := world -> (halt + A) * world.

#[export] Instance prog_ret : MRet prog := fun A x w => (inr x, w).
#[export] Instance prog_bind : MBind prog := fun A B f c w =>
  match c w with
  | (inl h, w') => (inl h, w')
  | (inr x, w') => f x w'
  end.

Definition print (m : message) : prog unit :=
  fun w => (inr tt, World (files w) (console w ++ [m])).
Definition exit {A : Type} : prog A := fun w => (inl SystemExit, w).
Definition raise {A : Type} (e : exn) : prog A := fun w => (inl (Traceback e), w).
Definition when (b : bool) (c : prog unit) : prog unit :=
  if b then c else mret tt.

(** *** Files

    The script hands path strings to the operating system. [locate path]
    is the file that [path] names, by the name it has in [files]: the
    working directory, "." and "..", and links make several paths name one
    file. The script creates and replaces regular files only, which leaves
    these names as they are, so [locate] is fixed for a run. Opening a file
    for writing is taken to succeed. *)
Section Files.
Context (locate : string -> string).

(** [os.path.isfile] on a string. *)
Definition isfile (path : string) : prog bool :=
  fun w => (inr (bool_decide (is_Some (files w !! locate path))), w).

(** Lines 83-89: [open(path)] then [read()] under the bare [except]. *)
Definition read_module (path : string) : prog string :=
  fun w =>
    match files w !! locate path with
    | Some (Readable s) => (print fileReadSuccess ;; mret s) w
    | _ => (print fileReadError ;; exit) w
    end.

(** [with open(name, 'w') as p: ...] followed by the writes: the file that
    [name] names is created, or replaced, with the text written. *)
Definition write_file (name contents : string) : prog unit :=
  fun w =>
    (inr tt, World (<[locate name := Readable contents]> (files w)) (console w)).

End Files.

(** Reading a local variable that may not have been assigned. *)
Definition local {A : Type} (name : string) (v : option A) : prog A :=
  match v with
  | Some x => mret x
  | None => raise (NameError name)
  end.

(** *** The csv module, dialect excel *)

Definition quotechar : ascii := chr 34.

(** QUOTE_MINIMAL: a field is quoted when it contains the delimiter, the
    quote character or a character of the line terminator. *)
Definition needs_quotes (field : string) : bool :=
  existsb (fun c => Ascii.eqb c "," || Ascii.eqb c quotechar
                    || Ascii.eqb c (chr 13) || Ascii.eqb c (chr 10))
          (list_ascii_of_string field).

Definition csv_field (field : string) : string :=
  if needs_quotes field then
    string_of_list_ascii
      (quotechar ::
       flat_map (fun c => if Ascii.eqb c quotechar then [c; c] else [c])
                (list_ascii_of_string field)
       ++ [quotechar])
  else field.

(** [writer.writerow(row)]: fields joined by commas, then CR LF. *)
Definition writerow (row : list string) : string :=
  String.concat "," (map csv_field row) +:+ CR +:+ LF.

(** Lines 196-199. *)
Definition csv_text (d : dict) : string :=
  writerow ["Field Name"; "Field Dimension"]
  +:+ String.concat "" (map (fun kv => writerow [fst kv; snd kv]) (dict_items d)).

(** *** The report *)

Definition rule : string := string_of_list_ascii (repeat "="%char 75).

(** [internalWiresHeader.format(name)] (lines 41-44). *)
Definition internalWiresHeader (name : string) : string :=
  LF +:+ LF +:+ rule +:+ LF
  +:+ TAB +:+ TAB +:+ "Internal Wires of " +:+ name +:+ LF
  +:+ rule.

(** [internalRegsHeader.format(name)] (lines 46-49). *)
Definition internalRegsHeader (name : string) : string :=
  LF +:+ LF +:+ rule +:+ LF
  +:+ TAB +:+ TAB +:+ "Internal Registers of " +:+ name +:+ LF
  +:+ rule.

(** The loops of lines 207-208 and 216-217. *)
Definition signal_lines (l : list declaration) : string :=
  String.concat "" (map (fun m => name_of m +:+ "   " +:+ dimension_of m +:+ LF) l).

(** *** Command line

    [parseArguments()] is argparse's work; the script sees the length of
    [sys.argv] and [args.filename]. *)
Record invocation : Type := Invocation {
  argc : nat;
  filename : option string
}.

Section Main.
Context (order : set_order) (locate : string -> string).

(** Lines 130-137. *)
Definition resolve_module_name (moduleContents : string) : prog string :=
  let matches := findall1 moduleNamePattern moduleContents in
  match matches with
  | [name] => mret name
  | _ =>
      let moduleName := "module" in
      print (moduleNameNotIdentified moduleName) ;; mret moduleName
  end.

(** Lines 139-147 and 149-157: the flag, the list and its length; the last
    two are assigned only when there is a match. *)
Definition extract (pattern : regex) (notFound : message)
    (moduleContents : string)
    : prog (bool * option (list declaration) * option nat) :=
  let matches := findall2 pattern moduleContents in
  if length matches =? 0 then
    print notFound ;; mret (false, None, None)
  else
    mret (true, Some matches, Some (length matches)).

(** Lines 159-225: the counts, the CSV file, the report and the summary.
    The arguments are the local variables set by lines 131-157. *)
Definition write_outputs (moduleFileName moduleName : string)
    (internalWiresFound : bool) (internalWires : option (list declaration))
    (numInternalWires : option nat)
    (internalRegsFound : bool) (internalRegs : option (list declaration))
    (numInternalRegs : option nat) : prog unit :=
  (* 159 *)
  nRegs ← local "numInternalRegs" numInternalRegs ;
  nWires ← local "numInternalWires" numInternalWires ;
  let numInternalSignals := nRegs + nWires in
  (* 161-170 *)
  regs ← local "internalRegs" internalRegs ;
  let internalRegNames := list_of_set order (names nRegs regs) in
  let numUniqueRegNames := length internalRegNames in
  (* 172-181 *)
  wires ← local "internalWires" internalWires ;
  let internalWireNames := list_of_set order (names nWires wires) in
  let numUniqueWireNames := length internalWireNames in
  (* 183-184 *)
  let internalSignalNames := internalWireNames ++ internalRegNames in
  let numUniqueSignalNames := length internalSignalNames in
  (* 188-199 *)
  let internalSignals := wires ++ regs in
  let signalsDict := internalSignalsDict numInternalSignals internalSignals in
  let outputCsvFileName := moduleName +:+ "_internal_signals.csv" in
  write_file locate outputCsvFileName (csv_text signalsDict) ;;
  (* 203-217 *)
  let internalWiresStr :=
    if internalWiresFound
    then internalWiresHeader moduleFileName +:+ LF +:+ LF +:+ signal_lines wires
    else "" in
  let internalRegsStr :=
    if internalRegsFound
    then internalRegsHeader moduleFileName +:+ LF +:+ LF +:+ signal_lines regs
    else "" in
  (* 220-225 *)
  let outputStr := internalWiresStr +:+ internalRegsStr in
  let outputFileName := moduleName +:+ "_internal_signals.txt" in
  write_file locate outputFileName outputStr ;;
  print (goodbyeMsg outputFileName outputCsvFileName) ;;
  print (internalSignalsSummaryMsg moduleName numUniqueWireNames
           numUniqueRegNames numUniqueSignalNames).

(** Lines 131-225, once the file has been read. *)
Definition analyse (moduleFileName moduleContents : string) : prog unit :=
  (* 131-137 *)
  moduleName ← resolve_module_name moduleContents ;
  (* 140-147 *)
  '(internalWiresFound, internalWires, numInternalWires) ←
    extract internalWiresPattern noInternalWiresIdentified moduleContents ;
  (* 150-157 *)
  '(internalRegsFound, internalRegs, numInternalRegs) ←
    extract internalRegsPattern noInternalRegsIdentified moduleContents ;
  write_outputs moduleFileName moduleName
    internalWiresFound internalWires numInternalWires
    internalRegsFound internalRegs numInternalRegs.

(** Lines 78-225, for a file name that is a string. *)
Definition process (moduleFileName : string) : prog unit :=
  (* 78-80 *)
  found ← isfile locate moduleFileName ;
  when (negb found) (print (noSuchFileMsg moduleFileName) ;; exit) ;;
  (* 83-89 *)
  moduleContents ← read_module locate moduleFileName ;
  analyse moduleFileName moduleContents.

(** Lines 71-78. With [args.filename] equal to [None], line 78 calls
    [os.path.isfile(None)], which raises TypeError. *)
Definition main (inv : invocation) : prog unit :=
  when (argc inv =? 1) (print noArgsMsg ;; exit) ;;
  match filename inv with
  | Some moduleFileName => process moduleFileName
  | None => raise TypeError
  end.

Definition run (inv : invocation) (fs : gmap string file) : (halt + unit) * world :=
  main inv (World fs []).

End Main.

End Script.

(** ** Vocabulary of the properties *)

Module Claims.
Import Sre Patterns Aggregate Script.

(** The matcher's state at offset [p] of the text [s], no group set. *)
Definition state_at (s : text) (p : nat) : mstate :=
  MState p (rev (firstn p s)) (skipn p s) [].

(** What pattern [r] matches when tried at offset [p] of [s]. *)
Definition shape_at (r : regex) (s : text) (p : nat) : option found :=
  match match_at r (state_at s p) with
  | Some st => Some (Found p (pos st) (groups st))
  | None => None
  end.

(** The matches of [r] that start at offset [p]: one or none. *)
Definition matches_at (r : regex) (s : text) (p : nat) : list found :=
  match shape_at r s p with Some m => [m] | None => [] end.

(** The text before offset [p] ends with [tok] followed by exactly [i]
    whitespace characters. *)
Definition preceded_by (tok : string) (i : nat) (s : text) (p : nat) : Prop :=
  exists pre ws,
    firstn p s = pre ++ list_ascii_of_string tok ++ ws
    /\ length ws = i /\ Forall (fun c => is_space c = true) ws.

(** Offset [p] is preceded, with 0 up to 16 whitespace characters in
    between, by "input" or by "output". *)
Definition port_prefixed (s : text) (p : nat) : Prop :=
  exists tok i,
    (tok = "input" \/ tok = "output") /\ i <= maxNumWhiteSpaces
    /\ preceded_by tok i s p.

(** Offset [p] lies inside the match [m], after its first character. *)
Definition inside (m : found) (p : nat) : Prop :=
  m_start m < p /\ p < m_end m.

(** The character before offset [p], if any, satisfies [cls]. *)
Definition after_char (cls : ascii -> bool) (s : text) (p : nat) : bool :=
  match p with
  | 0 => false
  | S q => match nth_error s q with Some c => cls c | None => false end
  end.

Definition is_letter (c : ascii) : bool := in_set [lower; upper] c.

(** The characters that, right before "module", make the script's pattern
    skip a header; and those the specification lists. *)
Definition barred_by_code (c : ascii) : bool :=
  Ascii.eqb c " " || Ascii.eqb c "/" || is_letter c || Ascii.eqb c "_".
Definition barred_by_spec (c : ascii) : bool :=
  Ascii.eqb c "/" || is_letter c || Ascii.eqb c "_".

(** Every place of [s] where a module header starts and the character
    before it is not barred, in text order. *)
Definition header_sites (barred : ascii -> bool) (s : text) : list found :=
  flat_map
    (fun p => if after_char barred s p then [] else matches_at module_header s p)
    (seq 0 (S (length s))).

(** [needle] occurs in [hay]. *)
Fixpoint occurs_in (needle hay : text) : bool :=
  starts_with needle hay
  || match hay with
     | [] => false
     | _ :: h' => occurs_in needle h'
     end.

Definition contains (hay needle : string) : bool :=
  occurs_in (list_ascii_of_string needle) (list_ascii_of_string hay).

(** A character of a module name. *)
Definition ident_char (c : ascii) : bool :=
  in_set [lower; upper; SChar "_"; digit] c.

(** The number of different names in [l]. *)
Definition distinct (l : list string) : nat := length (nodup string_dec l).

(** The module name that lines 131-137 settle on, and what they print. *)
Definition chosen_name (contents : string) : string :=
  match findall1 moduleNamePattern contents with
  | [name] => name
  | _ => "module"
  end.

Definition name_notice (contents : string) : list message :=
  match findall1 moduleNamePattern contents with
  | [_] => []
  | _ => [moduleNameNotIdentified "module"]
  end.

(** The text of the end-to-end example. *)
Definition example_text : string :=
  "module foo (" +:+ LF
  +:+ "input wire clk;" +:+ LF
  +:+ "output reg [7:0] data;" +:+ LF
  +:+ "wire [3:0] internal_a;" +:+ LF
  +:+ "reg internal_b;" +:+ LF
  +:+ "reg internal_b;" +:+ LF.

End Claims.

(** ** Groups and shapes *)

Module Captures.
Import Sre Patterns Aggregate Script Claims.

(** The texts a pattern can consume together with the groups it sets on
    the way, latest first. *)
Fixpoint trace (r : regex) (w : text) (g : list (nat * text)) : Prop :=
  match r with
  | Empty => w = [] /\ g = []
  | Literal c => w = [c] /\ g = []
  | InSet cs => (exists c, w = [c] /\ in_set cs c = true) /\ g = []
  | Seq r1 r2 =>
      exists w1 w2 g1 g2,
        w = w1 ++ w2 /\ g = g2 ++ g1 /\ trace r1 w1 g1 /\ trace r2 w2 g2
  | Branch r1 r2 => trace r1 w g \/ trace r2 w g
  | RepeatOne lo hi cs =>
      (lo <= length w
       /\ (forall h, hi = Some h -> length w <= h)
       /\ Forall (fun c => in_set cs c = true) w)
      /\ g = []
  | Repeat lo hi r1 =>
      exists rounds : list (text * list (nat * text)),
        w = concat (map fst rounds)
        /\ g = concat (rev (map snd rounds))
        /\ lo <= length rounds <= hi
        /\ Forall (fun x => trace r1 (fst x) (snd x)) rounds
  | Subpattern i r1 => exists g1, g = (i, w) :: g1 /\ trace r1 w g1
  | AssertNotBehind _ => w = [] /\ g = []
  end.

End Captures.

Module Shapes.
Import Sre Patterns Aggregate Script Claims.

Definition signal_char (c : ascii) : bool := in_set signal_chars c.
Definition dimension_char (c : ascii) : bool := in_set dimension_chars c.

(** One bracketed dimension and the spaces kept with it. *)
Definition bracketed (t : text) : Prop :=
  exists inner sp,
    t = "["%char :: inner ++ "]"%char :: sp
    /\ inner <> []
    /\ Forall (fun c => dimension_char c = true) inner
    /\ Forall (fun c => c = " "%char) sp.

(** A CSV row written without quotes. *)
Definition plain_row (kv : string * string) : string :=
  (fst kv +:+ "," +:+ snd kv) +:+ CR +:+ LF.

(** The characters that make the csv writer quote a field. *)
Definition quoting_char (c : ascii) : bool :=
  Ascii.eqb c "," || Ascii.eqb c quotechar
  || Ascii.eqb c (chr 13) || Ascii.eqb c (chr 10).

(** The notices of lines 143 and 153. *)
Definition missing_notices (wires regs : list declaration) : list message :=
  (match wires with [] => [noInternalWiresIdentified] | _ => [] end)
  ++ (match regs with [] => [noInternalRegsIdentified] | _ => [] end).

(** The elements of [l], each at its first place. *)
Fixpoint first_occurrences (l : list string) : list string :=
  match l with
  | [] => []
  | x :: l' => x :: filter (fun y => negb (String.eqb y x)) (first_occurrences l')
  end.

(** [x] is not among [keys]. *)
Definition absent (keys : list string) (x : string) : bool :=
  negb (existsb (String.eqb x) keys).

(** The text [a] does not go on with a character of class [p]. *)
Definition stops (p : ascii -> bool) (a : text) : Prop :=
  match a with
  | [] => True
  | c :: _ => p c = false
  end.

(** The part of the declaration pattern after the dimensions, and the part
    after the name. *)
Definition name_part : regex :=
  seq_all [ plus [SSpace]; Subpattern 2 (plus signal_chars);
            star [SSpace]; opt [SChar ";"] ].
Definition after_name : regex := seq_all [ star [SSpace]; opt [SChar ";"] ].

End Shapes.

(** ** Declarations and headers as they are written *)

Module Written.
Import Sre Patterns Aggregate Script Claims Shapes.

Definition whitespace (t : text) : Prop := Forall (fun c => is_space c = true) t.




(** A module header written at offset [p] of the text [s], with the name
    [id]: "module", whitespace, the placeholder "$[PREFIX]" or nothing, the
    name, then whitespace or none, "#" or nothing, whitespace or none, and
    the opening parenthesis. *)
Definition written_header (s : text) (p : nat) (id : text) : Prop :=
  exists pre ws1 pf ws2 hash ws3 rest,
    s = pre ++ list_ascii_of_string "module" ++ ws1 ++ pf ++ id
            ++ ws2 ++ hash ++ ws3 ++ "("%char :: rest
    /\ length pre = p
    /\ ws1 <> [] /\ whitespace ws1
    /\ (pf = [] \/ pf = list_ascii_of_string "$[PREFIX]")
    /\ id <> [] /\ Forall (fun c => ident_char c = true) id
    /\ whitespace ws2 /\ (hash = [] \/ hash = ["#"%char]) /\ whitespace ws3.

(** A written header that counts: the character before its keyword is not
    [barred]. *)
Definition header_at (barred : ascii -> bool) (s : text) (p : nat) (id : text)
    : Prop :=
  written_header s p id /\ after_char barred s p = false.

(** The resolver on the text [s]: with one header that counts it returns
    the name of that header and prints nothing; with none, or with two or
    more, it returns "module" and prints the notice. *)
Definition resolves_headers (barred : ascii -> bool) (s : string) : Prop :=
  let t := list_ascii_of_string s in
  forall w,
    (forall p id,
       header_at barred t p id ->
       (forall p' id', header_at barred t p' id' -> p' = p) ->
       resolve_module_name s w = (inr (string_of_list_ascii id), w))
    /\ ((forall p id, ~ header_at barred t p id)
        \/ (exists p id p' id',
              header_at barred t p id /\ header_at barred t p' id' /\ p <> p') ->
        resolve_module_name s w
        = (inr "module",
           World (files w) (console w ++ [moduleNameNotIdentified "module"]))).

End Written.

(** * Properties *)

(** ** The matcher *)

Module SreFacts.
Import Sre.

(** *** The continuation only matters through its values *)

Lemma repeat_one_ext p k1 k2 a :
  (forall st, k1 st = k2 st) ->
  forall lo hi n b g,
    repeat_one p lo hi n b a g k1 = repeat_one p lo hi n b a g k2.
Proof.
  intros E. induction a as [|c a IH]; intros lo hi n b g; simpl.
  - rewrite E. reflexivity.
  - rewrite E, IH. reflexivity.
Qed.

Lemma max_until_ext body lo k1 k2 :
  (forall st j1 j2, (forall x, j1 x = j2 x) -> body st j1 = body st j2) ->
  (forall st, k1 st = k2 st) ->
  forall left count st,
    max_until body lo left count st k1 = max_until body lo left count st k2.
Proof.
  intros Hb E. induction left as [|left IH]; intros count st; simpl.
  - rewrite E. reflexivity.
  - rewrite E. rewrite (Hb st _ (fun st1 => max_until body lo left (S count) st1 k2)).
    + reflexivity.
    + intros x. apply IH.
Qed.

Lemma sre_match_ext r :
  forall st k1 k2, (forall x, k1 x = k2 x) -> sre_match r st k1 = sre_match r st k2.
Proof.
  induction r; intros st k1 k2 E; simpl.
  - apply E.
  - unfold one_char. destruct (ahead st); [reflexivity|]. rewrite E. reflexivity.
  - unfold one_char. destruct (ahead st); [reflexivity|]. rewrite E. reflexivity.
  - apply IHr1. intros x. apply IHr2, E.
  - rewrite (IHr1 st k1 k2 E), (IHr2 st k1 k2 E). reflexivity.
  - apply repeat_one_ext, E.
  - apply max_until_ext; [exact IHr | exact E].
  - apply IHr. intros x. apply E.
  - rewrite E. reflexivity.
Qed.

Lemma sre_match_seq_all_app rs1 rs2 st k :
  sre_match (seq_all (rs1 ++ rs2)) st k
  = sre_match (seq_all rs1) st (fun st1 => sre_match (seq_all rs2) st1 k).
Proof.
  revert st k. induction rs1 as [|r rs1 IH]; intros st k; simpl.
  - reflexivity.
  - apply sre_match_ext. intros x. apply IH.
Qed.

(** *** Look-behinds *)

Lemma sre_match_assert_not_behind r st k :
  sre_match (AssertNotBehind r) st k = if rejects r st then None else k st.
Proof.
  simpl. unfold rejects.
  destruct (fst (getwidth r) <=? pos st); simpl; [|reflexivity].
  destruct (sre_match r _ Some); reflexivity.
Qed.

(** A run of look-behinds in front of a pattern is a gate: the pattern is
    tried where none of them rejects the position. *)
Lemma sre_match_guards rs rest st k :
  sre_match (seq_all (map AssertNotBehind rs ++ rest)) st k
  = if existsb (fun r => rejects r st) rs then None
    else sre_match (seq_all rest) st k.
Proof.
  induction rs as [|r rs IH]; [reflexivity|].
  change (sre_match (seq_all (map AssertNotBehind (r :: rs) ++ rest)) st k)
    with (sre_match (AssertNotBehind r) st
            (fun st1 => sre_match (seq_all (map AssertNotBehind rs ++ rest)) st1 k)).
  rewrite sre_match_assert_not_behind. simpl existsb.
  destruct (rejects r st); simpl; [reflexivity | exact IH].
Qed.

(** *** Literal text and exact counts *)

Lemma starts_with_spec t a :
  starts_with t a = true <-> exists r, a = t ++ r.
Proof.
  revert a. induction t as [|c t IH]; intros a; simpl.
  - split; [intros _; exists a; reflexivity | reflexivity].
  - destruct a as [|d a].
    + split; [discriminate | intros [r Hr]; discriminate].
    + rewrite andb_true_iff, IH. split.
      * intros [Hc [r ->]]. apply Ascii.eqb_eq in Hc. subst. eauto.
      * intros [r Hr]. injection Hr as -> ->. split; [apply Ascii.eqb_refl | eauto].
Qed.

Lemma sre_match_lits t : forall n b a g k,
  sre_match (lits t) (MState n b a g) k
  = if starts_with t a
    then k (MState (n + length t) (rev t ++ b) (skipn (length t) a) g)
    else None.
Proof.
  induction t as [|c t IH]; intros n b a g k.
  - simpl. rewrite Nat.add_0_r. reflexivity.
  - change (lits (c :: t)) with (Seq (Literal c) (lits t)).
    simpl. unfold one_char. simpl.
    destruct a as [|d a]; [reflexivity|].
    rewrite (Ascii.eqb_sym c d).
    destruct (Ascii.eqb d c) eqn:E; simpl; [|reflexivity].
    apply Ascii.eqb_eq in E. subst d.
    rewrite IH. rewrite <- app_assoc. simpl.
    replace (n + S (length t)) with (S (n + length t)) by lia. reflexivity.
Qed.

Lemma getwidth_lits t : getwidth (lits t) = (length t, Some (length t)).
Proof.
  induction t as [|c t IH]; [reflexivity|].
  change (lits (c :: t)) with (Seq (Literal c) (lits t)).
  simpl. rewrite IH. reflexivity.
Qed.

Lemma repeat_one_exactly p i : forall n b a g k,
  repeat_one p i (Some i) n b a g k
  = if (i <=? length a) && forallb p (firstn i a)
    then k (MState (n + i) (rev (firstn i a) ++ b) (skipn i a) g)
    else None.
Proof.
  induction i as [|i IH]; intros n b a g k.
  - rewrite Nat.add_0_r. destruct a; reflexivity.
  - destruct a as [|c a]; [reflexivity|].
    simpl repeat_one. simpl firstn. simpl forallb. simpl length.
    destruct (p c); simpl.
    + rewrite IH. change (S i <=? S (length a)) with (i <=? length a).
      destruct ((i <=? length a) && forallb p (firstn i a)).
      * rewrite <- app_assoc. simpl.
        replace (n + S i) with (S (n + i)) by lia.
        destruct (k _); reflexivity.
      * reflexivity.
    + rewrite andb_false_r. reflexivity.
Qed.


Lemma forallb_space ws :
  forallb (in_set [SSpace]) ws = true <-> Forall (fun c => is_space c = true) ws.
Proof.
  rewrite forallb_forall, Forall_forall. unfold in_set. simpl.
  split; intros H c Hc; specialize (H c Hc).
  - rewrite orb_false_r in H. exact H.
  - rewrite orb_false_r. exact H.
Qed.

(** The look-behind for [tok] followed by [i] whitespace characters rejects
    a position exactly when the text before it ends that way. *)
Lemma rejects_token tok i st :
  pos st = length (behind st) ->
  rejects (Seq (lits tok) (exactly i [SSpace])) st = true
  <-> exists ws rest,
        behind st = ws ++ rev tok ++ rest
        /\ length ws = i /\ Forall (fun c => is_space c = true) ws.
Proof.
  destruct st as [n b a g]. simpl. intros ->.
  unfold rejects. simpl getwidth. rewrite getwidth_lits. simpl fst. simpl pos.
  set (w := length tok + i).
  unfold rewind. simpl. rewrite sre_match_lits. unfold exactly. simpl sre_match.
  rewrite andb_true_iff, Nat.leb_le. split.
  - intros [Hw Hm].
    destruct (starts_with tok (rev (firstn w b) ++ a)) eqn:Hs; [|discriminate].
    apply starts_with_spec in Hs. destruct Hs as [r Hr].
    cbn [pos behind ahead groups] in Hm. rewrite repeat_one_exactly in Hm.
    destruct ((i <=? length (skipn (length tok) (rev (firstn w b) ++ a)))
              && forallb (in_set [SSpace])
                   (firstn i (skipn (length tok) (rev (firstn w b) ++ a)))) eqn:Hc;
      [|discriminate].
    apply andb_true_iff in Hc. destruct Hc as [Hlen Hsp].
    apply Nat.leb_le in Hlen.
    rewrite Hr in Hlen, Hsp. rewrite skipn_app, skipn_all, Nat.sub_diag in Hlen, Hsp.
    rewrite skipn_O in Hlen, Hsp. simpl in Hlen, Hsp.
    assert (Hf : rev (firstn w b) = tok ++ firstn i r).
    { assert (E : firstn w (rev (firstn w b) ++ a) = firstn w (tok ++ r))
        by (rewrite Hr; reflexivity).
      rewrite firstn_app in E.
      rewrite length_rev, length_firstn, Nat.min_l in E by exact Hw.
      rewrite Nat.sub_diag in E. simpl in E. rewrite app_nil_r in E.
      rewrite firstn_all2 in E by (rewrite length_rev, length_firstn; lia).
      rewrite E. unfold w. rewrite firstn_app.
      rewrite firstn_all2 by lia.
      replace (length tok + i - length tok) with i by lia. reflexivity. }
    exists (rev (firstn i r)), (skipn w b). split; [|split].
    + rewrite app_assoc, <- rev_app_distr, <- Hf, rev_involutive.
      symmetry. apply firstn_skipn.
    + rewrite length_rev, length_firstn. lia.
    + apply forallb_space. rewrite forallb_forall in *.
      intros c Hc. apply Hsp. apply in_rev. exact Hc.
  - intros (ws & rest & -> & Hlen & Hsp).
    assert (Hf : firstn w (ws ++ rev tok ++ rest) = ws ++ rev tok).
    { rewrite app_assoc. rewrite firstn_app.
      rewrite firstn_all2 by (rewrite length_app, length_rev; unfold w; lia).
      replace (w - length (ws ++ rev tok)) with 0
        by (rewrite length_app, length_rev; unfold w; lia).
      simpl. apply app_nil_r. }
    split.
    + rewrite !length_app, length_rev. unfold w. lia.
    + rewrite Hf. rewrite rev_app_distr, rev_involutive, <- app_assoc.
      assert (Hs : starts_with tok (tok ++ rev ws ++ a) = true)
        by (apply starts_with_spec; eauto).
      rewrite Hs. cbn [pos behind ahead groups].
      rewrite (skipn_app (length tok) tok), skipn_all, Nat.sub_diag, skipn_O. simpl.
      rewrite repeat_one_exactly.
      assert (Hfi : firstn i (rev ws ++ a) = rev ws).
      { rewrite firstn_app, firstn_all2 by (rewrite length_rev; lia).
        replace (i - length (rev ws)) with 0 by (rewrite length_rev; lia).
        simpl. apply app_nil_r. }
      rewrite Hfi.
      assert (Hle : (i <=? length (rev ws ++ a)) = true)
        by (apply Nat.leb_le; rewrite length_app, length_rev; lia).
      rewrite Hle. simpl.
      assert (Hall : forallb (in_set [SSpace]) (rev ws) = true).
      { apply forallb_space. apply Forall_forall. intros c Hc.
        apply in_rev in Hc. rewrite Forall_forall in Hsp. auto. }
      rewrite Hall. reflexivity.
Qed.

End SreFacts.

(** ** The matcher and the language of a pattern *)

Module LangFacts.
Import Sre SreFacts.

Lemma consumed_nil st : consumed [] st st.
Proof. split; [reflexivity | simpl; lia]. Qed.

Lemma consumed_app w1 w2 st st1 st2 :
  consumed w1 st st1 -> consumed w2 st1 st2 -> consumed (w1 ++ w2) st st2.
Proof.
  intros [A1 P1] [A2 P2]. split.
  - rewrite A1, A2, app_assoc. reflexivity.
  - rewrite P2, P1, length_app. lia.
Qed.

Lemma repeat_one_sound p k res a : forall lo hi n b g,
  repeat_one p lo hi n b a g k = Some res ->
  exists w a',
    a = w ++ a' /\ lo <= length w /\ (forall h, hi = Some h -> length w <= h)
    /\ Forall (fun c => p c = true) w
    /\ k (MState (n + length w) (rev w ++ b) a' g) = Some res.
Proof.
  assert (Hstop : forall lo hi n b a g,
    (if lo =? 0 then k (MState n b a g) else None) = Some res ->
    exists w a',
      a = w ++ a' /\ lo <= length w /\ (forall h, hi = Some h -> length w <= h)
      /\ Forall (fun c => p c = true) w
      /\ k (MState (n + length w) (rev w ++ b) a' g) = Some res).
  { intros lo hi n b a0 g H. destruct (lo =? 0) eqn:E; [|discriminate].
    apply Nat.eqb_eq in E. subst lo. exists [], a0. simpl.
    rewrite Nat.add_0_r. repeat split; auto; intros; lia. }
  induction a as [|c a IH]; intros lo hi n b g H.
  - simpl in H. destruct hi as [[|h]|]; apply Hstop; exact H.
  - simpl in H.
    destruct hi as [[|h]|]; [apply Hstop; exact H | |];
      (destruct (p c) eqn:Hc; [|apply Hstop; exact H]);
      (destruct (repeat_one p _ _ _ _ a g k) as [r|] eqn:E; [|apply Hstop; exact H]);
      injection H as ->; apply IH in E;
      destruct E as (w & a' & -> & Hlo & Hhi & Hall & Hk);
      exists (c :: w), a'; simpl;
      (split; [reflexivity|]); (split; [lia|]);
      (split; [|split; [constructor; assumption|];
                rewrite <- app_assoc; simpl;
                replace (n + S (length w)) with (S n + length w) by lia; exact Hk]).
    + intros h' [= <-]. specialize (Hhi h eq_refl). lia.
    + intros h' [=].
Qed.

Lemma max_until_sound (P : text -> Prop) body lo k res :
  (forall st j, body st j = Some res ->
     exists w st', P w /\ consumed w st st' /\ j st' = Some res) ->
  forall left count st,
    max_until body lo left count st k = Some res ->
    exists ws st',
      Forall P ws /\ lo <= count + length ws /\ length ws <= left
      /\ consumed (concat ws) st st' /\ k st' = Some res.
Proof.
  intros Hbody.
  assert (Htail : forall left count st,
    (if lo <=? count then k st else None) = Some res ->
    exists ws st',
      Forall P ws /\ lo <= count + length ws /\ length ws <= left
      /\ consumed (concat ws) st st' /\ k st' = Some res).
  { intros left count st H. destruct (lo <=? count) eqn:E; [|discriminate].
    apply Nat.leb_le in E. exists [], st. simpl.
    repeat split; auto using consumed_nil; try lia. }
  induction left as [|left IH]; intros count st H; simpl in H.
  - apply Htail. exact H.
  - destruct (body st _) as [r|] eqn:E; [|apply Htail; exact H].
    injection H as ->. apply Hbody in E.
    destruct E as (w & st1 & Hw & Hc & Hj). apply IH in Hj.
    destruct Hj as (ws & st' & Hall & Hlo & Hhi & Hcs & Hk).
    exists (w :: ws), st'. simpl.
    split; [constructor; assumption|]. split; [lia|]. split; [lia|].
    split; [eapply consumed_app; eassumption | exact Hk].
Qed.

Lemma sre_match_sound r : forall st k res,
  sre_match r st k = Some res ->
  exists w st', lang r w /\ consumed w st st' /\ k st' = Some res.
Proof.
  induction r; intros st k res H; simpl in H.
  - exists [], st. simpl. auto using consumed_nil.
  - unfold one_char in H. destruct st as [n b [|x a] g]; simpl in H; [discriminate|].
    destruct (Ascii.eqb c x) eqn:E; [|discriminate]. apply Ascii.eqb_eq in E. subst x.
    eexists [c], _. split; [reflexivity|]. split; [|exact H].
    split; simpl; [reflexivity | lia].
  - unfold one_char in H. destruct st as [n b [|x a] g]; simpl in H; [discriminate|].
    destruct (in_set cs x) eqn:E; [|discriminate].
    eexists [x], _. split; [exists x; auto|]. split; [|exact H].
    split; simpl; [reflexivity | lia].
  - apply IHr1 in H. destruct H as (w1 & st1 & L1 & C1 & H).
    apply IHr2 in H. destruct H as (w2 & st2 & L2 & C2 & H).
    exists (w1 ++ w2), st2. split; [exists w1, w2; auto|].
    split; [eapply consumed_app; eassumption | exact H].
  - destruct (sre_match r1 st k) as [x|] eqn:E.
    + injection H as ->. apply IHr1 in E. destruct E as (w & st' & L & C & Hk).
      exists w, st'. simpl. auto.
    + apply IHr2 in H. destruct H as (w & st' & L & C & Hk).
      exists w, st'. simpl. auto.
  - apply repeat_one_sound in H.
    destruct H as (w & a' & Ha & Hlo & Hhi & Hall & Hk).
    eexists w, _. split; [simpl; auto|]. split; [|exact Hk].
    split; simpl; [exact Ha | reflexivity].
  - apply (max_until_sound (lang r)) in H; [|intros; apply IHr; assumption].
    destruct H as (ws & st' & Hall & Hlo & Hhi & Hc & Hk).
    exists (concat ws), st'. split; [|auto].
    exists ws. split; [reflexivity|]. split; [unfold text in *; lia | exact Hall].
  - apply IHr in H. destruct H as (w & st1 & L & [A P] & Hk).
    exists w, (set_group i st st1). split; [exact L|]. split; [|exact Hk].
    split; simpl; assumption.
  - exists [], st. split; [reflexivity|]. split; [apply consumed_nil|].
    destruct (fst (getwidth r) <=? pos st); [|exact H].
    destruct (sre_match r _ Some); [discriminate | exact H].
Qed.

Lemma length_concat_least (P : text -> Prop) l (ws : list text) :
  (forall w, P w -> l <= length w) -> Forall P ws ->
  length ws * l <= length (concat ws).
Proof.
  intros H Hall. induction Hall as [|w ws Hw _ IH]; simpl; [lia|].
  rewrite length_app. apply H in Hw. lia.
Qed.

(** No text of a pattern is shorter than the least width that [getwidth]
    computes. *)
Lemma lang_min_width r : forall w, lang r w -> fst (getwidth r) <= length w.
Proof.
  induction r; intros w H; simpl in H |- *.
  - subst. simpl. lia.
  - subst. simpl. lia.
  - destruct H as (c & -> & _). simpl. lia.
  - destruct H as (w1 & w2 & -> & H1 & H2).
    apply IHr1 in H1. apply IHr2 in H2.
    destruct (getwidth r1) as [l1 h1], (getwidth r2) as [l2 h2]. simpl in *.
    rewrite length_app. lia.
  - destruct (getwidth r1) as [l1 h1], (getwidth r2) as [l2 h2]. simpl in *.
    destruct H as [H|H]; [apply IHr1 in H | apply IHr2 in H]; lia.
  - apply H.
  - destruct H as (ws & -> & [Hlo _] & Hall).
    destruct (getwidth r) as [l1 h1]. simpl in *.
    pose proof (length_concat_least (lang r) l1 ws IHr Hall) as Hc.
    assert (lo * l1 <= length ws * l1) by (apply Nat.mul_le_mono_r; exact Hlo).
    unfold text in *. lia.
  - apply IHr, H.
  - subst. simpl. lia.
Qed.

(** A pattern of positive least width cannot match the empty text. *)
Lemma positive_width_never_empty r : 0 < fst (getwidth r) -> never_empty r.
Proof.
  intros Hw st st' E. apply sre_match_sound in E.
  destruct E as (w & st1 & L & [_ P] & [= ->]).
  apply lang_min_width in L. lia.
Qed.

End LangFacts.

(** ** The scan *)

Module ScanFacts.
Import Sre Patterns Claims SreFacts.

Lemma state_at_split b a :
  state_at (rev b ++ a) (length b) = MState (length b) b a [].
Proof.
  unfold state_at.
  rewrite firstn_app, skipn_app, length_rev, Nat.sub_diag.
  rewrite firstn_all2, skipn_all2 by (rewrite length_rev; lia).
  rewrite firstn_O, skipn_O, app_nil_r, rev_involutive. reflexivity.
Qed.

Lemma state_at_behind s p :
  p <= length s -> pos (state_at s p) = length (behind (state_at s p)).
Proof.
  intros H. simpl. rewrite length_rev, length_firstn. lia.
Qed.

(** For a pattern that cannot match the empty text the scan takes one
    match at most at each position. *)
Lemma scan_nil r n b skip :
  never_empty r ->
  scan r n b [] skip
  = match skip with
    | S _ => []
    | 0 =>
        match match_at r (MState n b [] []) with
        | Some st => [Found n (pos st) (groups st)]
        | None => []
        end
    end.
Proof.
  intros Hne. cbn [scan]. destruct skip; [|reflexivity].
  destruct (match_at r _) as [st|] eqn:E; [|reflexivity].
  apply Hne in E. cbn [pos] in E. apply Nat.eqb_neq in E. rewrite E. reflexivity.
Qed.

Lemma scan_cons r n b c a skip :
  never_empty r ->
  scan r n b (c :: a) skip
  = match skip with
    | S k => scan r (S n) (c :: b) a k
    | 0 =>
        match match_at r (MState n b (c :: a) []) with
        | Some st =>
            Found n (pos st) (groups st)
            :: scan r (S n) (c :: b) a (Nat.pred (pos st - n))
        | None => scan r (S n) (c :: b) a 0
        end
    end.
Proof.
  intros Hne. cbn [scan]. destruct skip; [|reflexivity].
  destruct (match_at r _) as [st|] eqn:E; [|reflexivity].
  apply Hne in E. cbn [pos] in E. apply Nat.eqb_neq in E. rewrite E. reflexivity.
Qed.

(** Every match that the scan reports is what the pattern matches at the
    offset where the match starts. *)
Lemma scan_sound r a : never_empty r -> forall b skip m,
  In m (scan r (length b) b a skip) ->
  shape_at r (rev b ++ a) (m_start m) = Some m
  /\ length b <= m_start m <= length b + length a.
Proof.
  intros Hne. induction a as [|c a IH]; intros b skip m Hin.
  - rewrite scan_nil in Hin by exact Hne. destruct skip as [|skip].
    + destruct (match_at r (MState (length b) b [] [])) as [st|] eqn:E;
        simpl in Hin; [|contradiction].
      destruct Hin as [<-|[]]. simpl. split; [|lia].
      unfold shape_at. rewrite state_at_split, E. reflexivity.
    + simpl in Hin. contradiction.
  - assert (Hrec : forall sk, In m (scan r (S (length b)) (c :: b) a sk) ->
        shape_at r (rev b ++ c :: a) (m_start m) = Some m
        /\ length b <= m_start m <= length b + length (c :: a)).
    { intros sk H. apply (IH (c :: b)) in H. simpl in H.
      rewrite <- app_assoc in H. simpl in H |- *. split; [apply H | lia]. }
    rewrite scan_cons in Hin by exact Hne. destruct skip as [|skip].
    + destruct (match_at r (MState (length b) b (c :: a) [])) as [st|] eqn:E.
      * destruct Hin as [<-|Hin]; [|eapply Hrec; exact Hin].
        simpl. split; [|lia].
        unfold shape_at. rewrite state_at_split, E. reflexivity.
      * eapply Hrec; exact Hin.
    + eapply Hrec; exact Hin.
Qed.

(** Conversely, what the pattern matches at an offset is reported, unless
    the offset is still covered ([skip]) or lies inside a reported match. *)
Lemma scan_complete r a : never_empty r -> forall b skip p m,
  length b + skip <= p -> p <= length b + length a ->
  shape_at r (rev b ++ a) p = Some m ->
  (forall m', In m' (scan r (length b) b a skip) -> ~ inside m' p) ->
  In m (scan r (length b) b a skip).
Proof.
  intros Hne. induction a as [|c a IH]; intros b skip p m Hlo Hhi Hm Hfree.
  - simpl in Hhi. assert (p = length b) by lia. subst p.
    assert (skip = 0) by lia. subst skip.
    unfold shape_at in Hm. rewrite state_at_split in Hm.
    rewrite scan_nil by exact Hne.
    destruct (match_at r (MState (length b) b [] [])) as [st|]; [|discriminate].
    injection Hm as <-. left. reflexivity.
  - rewrite scan_cons in Hfree |- * by exact Hne.
    destruct (Nat.eq_dec p (length b)) as [->|Hneq].
    + assert (skip = 0) by lia. subst skip.
      unfold shape_at in Hm. rewrite state_at_split in Hm.
      destruct (match_at r (MState (length b) b (c :: a) [])) as [st|]; [|discriminate].
      injection Hm as <-. left. reflexivity.
    + assert (Hrec : forall sk,
          S (length b) + sk <= p ->
          (forall m', In m' (scan r (S (length b)) (c :: b) a sk) -> ~ inside m' p) ->
          In m (scan r (S (length b)) (c :: b) a sk)).
      { intros sk Hsk Hf. apply (IH (c :: b) sk p m).
        - simpl. lia.
        - simpl in Hhi |- *. lia.
        - simpl. rewrite <- app_assoc. exact Hm.
        - exact Hf. }
      destruct skip as [|skip].
      * destruct (match_at r (MState (length b) b (c :: a) [])) as [st|] eqn:E.
        -- right.
           assert (Hend : pos st <= p).
           { destruct (le_lt_dec (pos st) p) as [|Hlt]; [assumption|].
             exfalso. apply (Hfree (Found (length b) (pos st) (groups st))).
             - left. reflexivity.
             - unfold inside. simpl. lia. }
           apply Hrec; [lia|]. intros m' Hm'. apply Hfree. right. exact Hm'.
        -- apply Hrec; [simpl; lia | exact Hfree].
      * apply Hrec; [simpl; lia | exact Hfree].
Qed.

(** Reported matches start at or after the first offset not covered. *)
Lemma scan_starts r a : never_empty r -> forall b skip m,
  In m (scan r (length b) b a skip) -> length b + skip <= m_start m.
Proof.
  intros Hne. induction a as [|c a IH]; intros b skip m Hin.
  - rewrite scan_nil in Hin by exact Hne.
    destruct skip as [|skip]; [|contradiction].
    destruct (match_at r _); [|contradiction].
    destruct Hin as [<-|[]]. simpl. lia.
  - rewrite scan_cons in Hin by exact Hne. destruct skip as [|skip].
    + destruct (match_at r _) as [st|].
      * destruct Hin as [<-|Hin]; [simpl; lia|].
        apply (IH (c :: b)) in Hin. simpl in Hin. lia.
      * apply (IH (c :: b)) in Hin. simpl in Hin. lia.
    + apply (IH (c :: b)) in Hin. simpl in Hin. lia.
Qed.



Lemma finditer_sound r s m :
  never_empty r ->
  In m (finditer r s) -> shape_at r s (m_start m) = Some m /\ m_start m <= length s.
Proof.
  intros Hne H. apply (scan_sound r s Hne [] 0) in H. simpl in H.
  split; [apply H | lia].
Qed.

Lemma finditer_complete r s p m :
  never_empty r ->
  p <= length s ->
  shape_at r s p = Some m ->
  (forall m', In m' (finditer r s) -> ~ inside m' p) ->
  In m (finditer r s).
Proof.
  intros Hne Hp Hm Hf. apply (scan_complete r s Hne [] 0 p m); simpl; auto; lia.
Qed.

End ScanFacts.

(** ** The declaration patterns *)

Module PatternFacts.
Import Sre Patterns Claims SreFacts LangFacts ScanFacts.

(** The pattern of lines 118-122 is its look-behinds, then the declaration. *)
Lemma internal_pattern_gate kw st :
  match_at (internalPatternRawStr kw) st
  = if existsb (fun r => rejects r st)
         (flat_map port_tokens (seq 0 (maxNumWhiteSpaces + 1)))
    then None
    else match_at (signal_declaration kw) st.
Proof.
  unfold match_at, internalPatternRawStr.
  replace (flat_map lookbehinds (seq 0 (maxNumWhiteSpaces + 1)))
    with (map AssertNotBehind (flat_map port_tokens (seq 0 (maxNumWhiteSpaces + 1))))
    by reflexivity.
  rewrite sre_match_guards. reflexivity.
Qed.

Lemma declaration_never_empty kw : never_empty (signal_declaration kw).
Proof.
  apply positive_width_never_empty.
  unfold signal_declaration, seq_all, lit. cbn [fold_right getwidth].
  rewrite getwidth_lits. simpl. lia.
Qed.

(** Neither declaration pattern can match the empty text: a match holds a
    whitespace character and a name at least. *)
Lemma internal_pattern_never_empty kw : never_empty (internalPatternRawStr kw).
Proof.
  intros st st' E. rewrite internal_pattern_gate in E.
  destruct (existsb _ _); [discriminate|].
  exact (declaration_never_empty kw st st' E).
Qed.

Lemma preceded_by_behind tok i s p :
  preceded_by tok i s p
  <-> exists ws rest,
        behind (state_at s p) = ws ++ rev (list_ascii_of_string tok) ++ rest
        /\ length ws = i /\ Forall (fun c => is_space c = true) ws.
Proof.
  unfold preceded_by. simpl. split.
  - intros (pre & ws & E & Hl & Hs). exists (rev ws), (rev pre).
    rewrite E, !rev_app_distr, <- app_assoc. split; [reflexivity|].
    split; [rewrite length_rev; exact Hl|].
    apply Forall_forall. intros c Hc. apply in_rev in Hc.
    rewrite Forall_forall in Hs. auto.
  - intros (ws & rest & E & Hl & Hs). exists (rev rest), (rev ws).
    apply (f_equal (@rev ascii)) in E. rewrite rev_involutive in E.
    rewrite E, !rev_app_distr, rev_involutive, <- app_assoc.
    split; [reflexivity|].
    split; [rewrite length_rev; exact Hl|].
    apply Forall_forall. intros c Hc. apply in_rev in Hc.
    rewrite Forall_forall in Hs. auto.
Qed.

Lemma port_rejects_iff s p :
  p <= length s ->
  existsb (fun r => rejects r (state_at s p))
    (flat_map port_tokens (seq 0 (maxNumWhiteSpaces + 1))) = true
  <-> port_prefixed s p.
Proof.
  intros Hp. pose proof (state_at_behind s p Hp) as Hb.
  rewrite existsb_exists. unfold port_prefixed. split.
  - intros (r & Hin & Hr). apply in_flat_map in Hin.
    destruct Hin as (i & Hi & Hin). apply in_seq in Hi.
    destruct Hin as [<-|[<-|[]]].
    + exists "input", i. split; [auto|]. split; [unfold maxNumWhiteSpaces in *; lia|].
      apply preceded_by_behind. apply (rejects_token _ i _ Hb). exact Hr.
    + exists "output", i. split; [auto|]. split; [unfold maxNumWhiteSpaces in *; lia|].
      apply preceded_by_behind. apply (rejects_token _ i _ Hb). exact Hr.
  - intros (tok & i & Htok & Hi & Hpre).
    apply preceded_by_behind in Hpre.
    exists (Seq (lit tok) (exactly i [SSpace])). split.
    + apply in_flat_map. exists i. split.
      * apply in_seq. unfold maxNumWhiteSpaces in *. lia.
      * destruct Htok as [->| ->]; simpl; auto.
    + apply (rejects_token _ i _ Hb). exact Hpre.
Qed.


Lemma not_port_prefixed_match kw s p :
  p <= length s -> ~ port_prefixed s p ->
  shape_at (internalPatternRawStr kw) s p = shape_at (signal_declaration kw) s p.
Proof.
  intros Hp H. unfold shape_at. rewrite internal_pattern_gate.
  destruct (existsb _ _) eqn:E; [|reflexivity].
  exfalso. apply H. apply (port_rejects_iff s p Hp). exact E.
Qed.

Lemma shape_at_start r s p m : shape_at r s p = Some m -> m_start m = p.
Proof.
  unfold shape_at. destruct (match_at r (state_at s p)); [|discriminate].
  intros [= <-]. reflexivity.
Qed.


End PatternFacts.

(** ** The module header *)

Module HeaderFacts.
Import Sre Patterns Claims SreFacts ScanFacts LangFacts.

Lemma lang_lits t w : lang (lits t) w -> w = t.
Proof.
  revert w. induction t as [|c t IH]; intros w H.
  - exact H.
  - change (lits (c :: t)) with (Seq (Literal c) (lits t)) in H.
    simpl in H. destruct H as (w1 & w2 & -> & -> & H2).
    apply IH in H2. subst. reflexivity.
Qed.

Lemma in_set_space c : in_set [SSpace] c = true -> is_space c = true.
Proof. unfold in_set. simpl. rewrite orb_false_r. auto. Qed.

Lemma in_set_newline_or_space c :
  in_set newline_or_space c = true -> is_space c = true.
Proof.
  unfold in_set. simpl. rewrite orb_false_r. intros H.
  apply orb_true_iff in H. destruct H as [H|H]; [|exact H].
  apply Ascii.eqb_eq in H. subst. reflexivity.
Qed.

(** What a module header looks like: the keyword, whitespace, the optional
    placeholder, the name, then whitespace and at most one "#" up to the
    opening parenthesis. *)
Lemma module_header_shape st st' :
  match_at module_header st = Some st' ->
  exists w1 pf id t0,
    ahead st = list_ascii_of_string "module" ++ w1 ++ pf ++ id ++ t0 ++ "("%char :: ahead st'
    /\ pos st' = pos st + (6 + length w1 + length pf + length id + length t0 + 1)
    /\ w1 <> [] /\ Forall (fun c => is_space c = true) w1
    /\ (pf = [] \/ pf = list_ascii_of_string "$[PREFIX]")
    /\ id <> [] /\ Forall (fun c => ident_char c = true) id
    /\ Forall (fun c => is_space c = true \/ c = "#"%char) t0.
Proof.
  intros H. apply sre_match_sound in H.
  destruct H as (w & st1 & L & [A P] & [= ->]).
  unfold module_header, seq_all in L. cbn [fold_right] in L.
  cbn [lang] in L.
  destruct L as (m & x1 & -> & Lm & w1 & x2 & -> & (Hw1n & _ & Hw1) &
                 pf & x3 & -> & (pfs & -> & Hpfn & Hpf) &
                 id & x4 & -> & (Hidn & _ & Hid) &
                 w2 & x5 & -> & (_ & _ & Hw2) &
                 h & x6 & -> & (_ & Hh1 & Hh) &
                 w3 & x7 & -> & (_ & _ & Hw3) &
                 lp & x8 & -> & -> & ->).
  apply lang_lits in Lm. subst m.
  exists w1, (concat pfs), id, (w2 ++ h ++ w3).
  split; [rewrite A; rewrite <- !app_assoc; reflexivity|].
  split; [rewrite P; rewrite !length_app; simpl; lia|].
  split; [intros ->; simpl in Hw1n; lia|].
  split; [eapply Forall_impl; [|exact Hw1]; apply in_set_space|].
  split.
  { destruct pfs as [|a [|b pfs]]; simpl in Hpfn; [left; reflexivity | | lia].
    right. inversion Hpf as [|? ? Ha _]; subst. apply lang_lits in Ha.
    subst. simpl. reflexivity. }
  split; [intros ->; simpl in Hidn; lia|].
  split; [exact Hid|].
  apply Forall_app. split; [|apply Forall_app; split].
  - eapply Forall_impl; [|exact Hw2]. intros c Hc. left.
    apply in_set_newline_or_space, Hc.
  - eapply Forall_impl; [|exact Hh]. intros c Hc. right.
    unfold in_set in Hc. simpl in Hc. rewrite orb_false_r in Hc.
    apply Ascii.eqb_eq in Hc. exact Hc.
  - eapply Forall_impl; [|exact Hw3]. intros c Hc. left.
    apply in_set_newline_or_space, Hc.
Qed.

(** *** Two headers cannot overlap *)

Lemma span_unique (P : ascii -> bool) u : forall c r u' c' r',
  Forall (fun x => P x = true) u -> P c = false ->
  Forall (fun x => P x = true) u' -> P c' = false ->
  u ++ c :: r = u' ++ c' :: r' -> u = u' /\ c = c' /\ r = r'.
Proof.
  induction u as [|a u IH]; intros c r u' c' r' Hu Hc Hu' Hc' E.
  - destruct u' as [|a' u']; simpl in E.
    + injection E as -> ->. auto.
    + injection E as -> _. inversion Hu'; subst. congruence.
  - destruct u' as [|a' u']; simpl in E.
    + injection E as -> _. inversion Hu; subst. congruence.
    + injection E as -> E. inversion Hu; inversion Hu'; subst.
      destruct (IH c r u' c' r') as (-> & -> & ->); auto.
Qed.

Lemma skipn_app_cases {A : Type} o (l1 l2 : list A) :
  (length l1 <= o /\ skipn o (l1 ++ l2) = skipn (o - length l1) l2)
  \/ (exists c r, skipn o (l1 ++ l2) = c :: r ++ l2 /\ skipn o l1 = c :: r).
Proof.
  rewrite skipn_app.
  destruct (skipn o l1) as [|c r] eqn:E.
  - left. split; [|reflexivity].
    apply (f_equal (@length A)) in E. rewrite length_skipn in E. simpl in E. lia.
  - right. exists c, r.
    assert (o < length l1).
    { apply (f_equal (@length A)) in E. rewrite length_skipn in E. simpl in E. lia. }
    replace (o - length l1) with 0 by lia. rewrite skipn_O. auto.
Qed.

Lemma Forall_skipn_cons {A : Type} (P : A -> Prop) o l c r :
  Forall P l -> skipn o l = c :: r -> Forall P (c :: r).
Proof.
  intros H E. rewrite <- (firstn_skipn o l) in H.
  apply Forall_app in H. rewrite E in H. apply H.
Qed.

Lemma space_not_ident c : is_space c = true -> ident_char c = false.
Proof.
  destruct c as [[] [] [] [] [] [] [] []]; vm_compute; congruence.
Qed.

(** The whitespace at the head of what follows a module name ends at "#"
    or at the parenthesis. *)
Lemma header_tail_split t0 rest :
  Forall (fun c => is_space c = true \/ c = "#"%char) t0 ->
  exists u y v,
    t0 ++ "("%char :: rest = u ++ y :: v
    /\ Forall (fun c => is_space c = true) u
    /\ is_space y = false /\ (y = "#"%char \/ y = "("%char).
Proof.
  induction t0 as [|a t0 IH]; intros H.
  - exists [], "("%char, rest. simpl. auto.
  - inversion H as [|? ? Ha Ht]; subst. destruct Ha as [Ha| ->].
    + destruct (IH Ht) as (u & y & v & E & Hu & Hy & Hy').
      exists (a :: u), y, v. simpl. rewrite E. auto.
    + exists [], "#"%char, (t0 ++ "("%char :: rest). simpl. auto.
Qed.

Lemma no_header_inside w1 pf id t0 rest o w1' x tl :
  w1 <> [] -> Forall (fun c => is_space c = true) w1 ->
  (pf = [] \/ pf = list_ascii_of_string "$[PREFIX]") ->
  Forall (fun c => ident_char c = true) id ->
  Forall (fun c => is_space c = true \/ c = "#"%char) t0 ->
  0 < o -> o < 6 + length w1 + length pf + length id + length t0 + 1 ->
  skipn o (list_ascii_of_string "module" ++ w1 ++ pf ++ id ++ t0 ++ "("%char :: rest)
  = list_ascii_of_string "module" ++ w1' ++ x :: tl ->
  w1' <> [] -> Forall (fun c => is_space c = true) w1' ->
  (x = "$"%char \/ ident_char x = true) ->
  False.
Proof.
  intros Hw1n Hw1 Hpf Hid Ht0 Hpos Hlt E Hw1n' Hw1' Hx.
  (* inside the keyword *)
  destruct (skipn_app_cases o (list_ascii_of_string "module")
              (w1 ++ pf ++ id ++ t0 ++ "("%char :: rest))
    as [[Hge E1]|(c & r & E1 & E2)]; rewrite E1 in E; clear E1.
  2:{ do 6 (destruct o as [|o]; [try lia; simpl in E2; injection E2 as <- <-;
                                 simpl in E; discriminate|]).
      simpl in E2. rewrite skipn_nil in E2. discriminate. }
  simpl length in *. set (o1 := o - 6) in *.
  (* inside the whitespace after it *)
  destruct (skipn_app_cases o1 w1 (pf ++ id ++ t0 ++ "("%char :: rest))
    as [[Hge1 E1]|(c & r & E1 & E2)]; rewrite E1 in E; clear E1.
  2:{ pose proof (Forall_skipn_cons _ _ _ _ _ Hw1 E2) as Hc.
      inversion Hc as [|? ? Hc1 _]; subst. simpl in E. injection E as -> _.
      vm_compute in Hc1. discriminate. }
  set (o2 := o1 - length w1) in *.
  (* inside the placeholder *)
  destruct (skipn_app_cases o2 pf (id ++ t0 ++ "("%char :: rest))
    as [[Hge2 E1]|(c & r & E1 & E2)]; rewrite E1 in E; clear E1.
  2:{ destruct Hpf as [-> | ->]; [rewrite skipn_nil in E2; discriminate|].
      simpl in E. injection E as -> _.
      do 9 (destruct o2 as [|o2]; [simpl in E2; discriminate|]).
      simpl in E2. rewrite skipn_nil in E2. discriminate. }
  set (o3 := o2 - length pf) in *.
  destruct (skipn_app_cases o3 id (t0 ++ "("%char :: rest))
    as [[Hge3 E1]|(c & r & E1 & E2)]; rewrite E1 in E; clear E1.
  - (* after the name *)
    set (o4 := o3 - length id) in *.
    change (t0 ++ "("%char :: rest) with (t0 ++ ["("%char] ++ rest) in E.
    rewrite app_assoc in E.
    destruct (skipn_app_cases o4 (t0 ++ ["("%char]) rest)
      as [[Hge4 E1]|(c & r & E1 & E2)]; rewrite E1 in E; clear E1.
    + rewrite length_app in Hge4. simpl in Hge4. unfold o4, o3, o2, o1 in Hge4. lia.
    + assert (Hall : Forall (fun c => is_space c = true \/ c = "#"%char \/ c = "("%char)
                            (t0 ++ ["("%char])).
      { apply Forall_app. split.
        - eapply Forall_impl; [|exact Ht0]. intros a [H|H]; auto.
        - constructor; auto. }
      pose proof (Forall_skipn_cons _ _ _ _ _ Hall E2) as Hc.
      inversion Hc as [|? ? Hc1 _]; subst. simpl in E. injection E as -> _.
      destruct Hc1 as [H|[H|H]]; vm_compute in H; discriminate.
  - (* inside the name *)
    pose proof (Forall_skipn_cons _ _ _ _ _ Hid E2) as Hcr.
    destruct w1' as [|s1 w1t]; [congruence|].
    inversion Hw1' as [|? ? Hs1 Hw1t]; subst.
    destruct (header_tail_split t0 rest Ht0) as (u & y & v & Et & Hu & Hy & Hy').
    (* the name part ends where "module" ends *)
    assert (Hy0 : exists y0 v0, t0 ++ "("%char :: rest = y0 :: v0 /\ ident_char y0 = false).
    { destruct t0 as [|a t0']; simpl; [eauto|].
      exists a, (t0' ++ "("%char :: rest). split; [reflexivity|].
      inversion Ht0 as [|? ? Ha _]; subst.
      destruct Ha as [Ha| ->]; [apply space_not_ident, Ha | reflexivity]. }
    destruct Hy0 as (y0 & v0 & Ey0 & Hy0).
    rewrite Ey0 in E.
    change (c :: r ++ y0 :: v0) with ((c :: r) ++ y0 :: v0) in E.
    change (list_ascii_of_string "module" ++ (s1 :: w1t) ++ x :: tl)
      with (list_ascii_of_string "module" ++ s1 :: (w1t ++ x :: tl)) in E.
    apply (span_unique ident_char) in E; auto using space_not_ident;
      [|repeat constructor].
    destruct E as (_ & -> & Ev).
    (* so the whitespace after the inner "module" is the head of the tail *)
    assert (E' : u ++ y :: v = (s1 :: w1t) ++ x :: tl).
    { rewrite <- Et, Ey0, Ev. reflexivity. }
    apply (span_unique is_space) in E'; auto.
    + destruct E' as (_ & -> & _).
      destruct Hx as [->|Hx]; destruct Hy' as [Hy'|Hy'];
        try discriminate; subst; vm_compute in Hx; discriminate.
    + destruct Hx as [->|Hx]; [reflexivity|].
      destruct (is_space x) eqn:Hsx; [|reflexivity].
      apply space_not_ident in Hsx. congruence.
Qed.

End HeaderFacts.

(** ** The module-name pattern *)

Module ResolverFacts.
Import Sre Patterns Aggregate Script Claims SreFacts ScanFacts LangFacts HeaderFacts.

Lemma header_no_overlap s p m p' :
  shape_at module_header s p = Some m ->
  p < p' -> p' < m_end m ->
  shape_at module_header s p' = None.
Proof.
  unfold shape_at. intros Hm Hlo Hhi.
  destruct (match_at module_header (state_at s p)) as [st|] eqn:E; [|discriminate].
  injection Hm as <-. simpl in Hhi.
  destruct (match_at module_header (state_at s p')) as [st2|] eqn:E2; [|reflexivity].
  exfalso.
  apply module_header_shape in E.
  destruct E as (w1 & pf & id & t0 & A & P & Hw1n & Hw1 & Hpf & Hidn & Hid & Ht0).
  apply module_header_shape in E2.
  destruct E2 as (w1' & pf' & id' & t0' & A' & _ & Hw1n' & Hw1' & Hpf' & Hidn' & Hid' & _).
  unfold state_at in A, A', P. cbn [ahead pos] in A, A', P.
  assert (Hx : exists x tl, pf' ++ id' ++ t0' ++ "("%char :: ahead st2 = x :: tl
                            /\ (x = "$"%char \/ ident_char x = true)).
  { destruct Hpf' as [-> | ->].
    - destruct id' as [|x id']; [congruence|]. inversion Hid'; subst.
      simpl. eauto.
    - simpl. eauto. }
  destruct Hx as (x & tl & Ex & Hx). rewrite Ex in A'.
  apply (no_header_inside w1 pf id t0 (ahead st) (p' - p) w1' x tl); auto; try lia.
  rewrite <- A, skipn_skipn. replace (p' - p + p) with p' by lia. exact A'.
Qed.

(** When matches of a pattern are never empty and never overlap, the scan
    finds every one. *)
Lemma scan_all r s :
  never_empty r ->
  (forall p m p', shape_at r s p = Some m -> p < p' -> p' < m_end m ->
                  shape_at r s p' = None) ->
  forall a b skip,
    s = rev b ++ a ->
    (forall q, length b <= q -> q < length b + skip -> shape_at r s q = None) ->
    scan r (length b) b a skip
    = flat_map (matches_at r s) (seq (length b) (S (length a))).
Proof.
  intros Hne Hno.
  assert (Hhere : forall a b skip,
    s = rev b ++ a ->
    (forall q, length b <= q -> q < length b + skip -> shape_at r s q = None) ->
    match match skip with 0 => match_at r (MState (length b) b a []) | S _ => None end with
    | Some st => [Found (length b) (pos st) (groups st)]
    | None => []
    end = matches_at r s (length b)).
  { intros a b skip -> Hskip. unfold matches_at.
    destruct skip as [|skip].
    - unfold shape_at. rewrite state_at_split.
      destruct (match_at r _); reflexivity.
    - rewrite (Hskip (length b)) by lia. reflexivity. }
  induction a as [|c a IH]; intros b skip Hs Hskip.
  - pose proof (Hhere [] b skip Hs Hskip) as Hh. simpl in Hh.
    rewrite scan_nil by exact Hne. cbn [length seq flat_map].
    rewrite app_nil_r. rewrite <- Hh.
    destruct skip; [destruct (match_at r _)|]; reflexivity.
  - pose proof (Hhere (c :: a) b skip Hs Hskip) as Hh.
    change (seq (length b) (S (length (c :: a))))
      with (length b :: seq (S (length b)) (S (length a))).
    cbn [flat_map]. rewrite <- Hh.
    assert (Hs' : s = rev (c :: b) ++ a) by (simpl; rewrite <- app_assoc; exact Hs).
    rewrite scan_cons by exact Hne.
    destruct skip as [|skip].
    + destruct (match_at r (MState (length b) b (c :: a) [])) as [st|] eqn:E.
      * cbn [app]. f_equal.
        apply (IH (c :: b) _ Hs'). intros q Hq1 Hq2. simpl in Hq1, Hq2.
        apply (Hno (length b) (Found (length b) (pos st) (groups st)) q).
        -- unfold shape_at. rewrite Hs at 1. rewrite state_at_split, E. reflexivity.
        -- lia.
        -- simpl. lia.
      * cbn [app]. apply (IH (c :: b) _ Hs'). intros q Hq1 Hq2. simpl in Hq1, Hq2. lia.
    + cbn [app]. apply (IH (c :: b) _ Hs'). intros q Hq1 Hq2. simpl in Hq1, Hq2.
      apply Hskip; lia.
Qed.

(** The module-name pattern cannot match the empty text: a match holds
    "module", a whitespace character, a name and "(" at least. *)
Lemma module_pattern_never_empty : never_empty moduleNamePattern.
Proof. apply positive_width_never_empty. vm_compute. lia. Qed.

Lemma rejects_not_after n c b a g :
  rejects (Branch (Literal " ") (Branch (Literal "/") (InSet [lower; upper; SChar "_"])))
          (MState (S n) (c :: b) a g)
  = barred_by_code c.
Proof.
  destruct c as [[] [] [] [] [] [] [] []]; reflexivity.
Qed.

Lemma firstn_S_snoc (s : text) : forall q c,
  nth_error s q = Some c -> firstn (S q) s = firstn q s ++ [c].
Proof.
  induction s as [|a s IH]; intros q c H.
  - destruct q; discriminate.
  - destruct q as [|q].
    + injection H as ->. reflexivity.
    + rewrite firstn_cons, (IH q c H). reflexivity.
Qed.

Lemma state_at_S s q c :
  nth_error s q = Some c ->
  state_at s (S q) = MState (S q) (c :: rev (firstn q s)) (skipn (S q) s) [].
Proof.
  intros H. unfold state_at.
  rewrite (firstn_S_snoc s q c H), rev_app_distr. reflexivity.
Qed.

(** The module-name pattern is its look-behind, then the header. *)
Lemma module_pattern_gate s p :
  p <= length s ->
  shape_at moduleNamePattern s p
  = if after_char barred_by_code s p then None else shape_at module_header s p.
Proof.
  intros Hp. unfold shape_at, match_at, moduleNamePattern, not_after.
  change (sre_match (Seq (AssertNotBehind ?x) ?y) ?st Some)
    with (sre_match (AssertNotBehind x) st (fun st1 => sre_match y st1 Some)).
  rewrite sre_match_assert_not_behind.
  destruct p as [|q].
  - reflexivity.
  - simpl after_char.
    destruct (nth_error s q) as [c|] eqn:E.
    + rewrite (state_at_S s q c E), rejects_not_after.
      destruct (barred_by_code c); reflexivity.
    + apply nth_error_None in E. lia.
Qed.

Lemma module_pattern_no_overlap s p m p' :
  shape_at moduleNamePattern s p = Some m ->
  p < p' -> p' < m_end m ->
  shape_at moduleNamePattern s p' = None.
Proof.
  intros Hm Hlo Hhi.
  assert (Hlen : forall q x, shape_at module_header s q = Some x -> q <= length s).
  { intros q x Hx. destruct (le_lt_dec q (length s)) as [|Hgt]; [assumption|].
    exfalso. unfold shape_at, state_at in Hx.
    rewrite skipn_all2 in Hx by lia.
    destruct (match_at module_header _) as [st|] eqn:E; [|discriminate].
    apply module_header_shape in E. destruct E as (? & ? & ? & ? & A & _).
    simpl in A. discriminate. }
  assert (Hlen' : forall q x, shape_at moduleNamePattern s q = Some x -> q <= length s).
  { intros q x Hx. destruct (le_lt_dec q (length s)) as [|Hgt]; [assumption|].
    exfalso. unfold shape_at, match_at, moduleNamePattern, not_after in Hx.
    change (sre_match (Seq (AssertNotBehind ?x) ?y) ?st Some)
      with (sre_match (AssertNotBehind x) st (fun st1 => sre_match y st1 Some)) in Hx.
    rewrite sre_match_assert_not_behind in Hx.
    destruct (rejects _ _); [discriminate|].
    assert (Hh : shape_at module_header s q <> None).
    { unfold shape_at, match_at. destruct (sre_match module_header _ Some); [discriminate|].
      discriminate. }
    destruct (shape_at module_header s q) eqn:E; [|congruence].
    apply Hlen in E. lia. }
  pose proof (Hlen' _ _ Hm) as Hp.
  rewrite (module_pattern_gate s p Hp) in Hm.
  destruct (after_char barred_by_code s p); [discriminate|].
  destruct (shape_at moduleNamePattern s p') as [m'|] eqn:E'; [|reflexivity].
  pose proof (Hlen' _ _ E') as Hp'.
  rewrite (module_pattern_gate s p' Hp') in E'.
  destruct (after_char barred_by_code s p'); [discriminate|].
  rewrite (header_no_overlap s p m p' Hm Hlo Hhi) in E'. discriminate.
Qed.

(** The scan for the module name finds every header that does not follow
    a barred character. *)
Lemma finditer_module_headers s :
  finditer moduleNamePattern s = header_sites barred_by_code s.
Proof.
  unfold finditer.
  pose proof (scan_all moduleNamePattern s module_pattern_never_empty
                (module_pattern_no_overlap s) s [] 0 eq_refl) as E.
  cbn [length] in E. rewrite E by (intros; lia). clear E.
  unfold header_sites.
  rewrite !flat_map_concat_map. f_equal.
  apply map_ext_in. intros p Hp. apply in_seq in Hp.
  unfold matches_at. rewrite module_pattern_gate by lia.
  destruct (after_char barred_by_code s p); reflexivity.
Qed.

End ResolverFacts.

(** ** The script *)

Module ScriptFacts.
Import Sre Patterns Aggregate Script Claims.

Lemma length_list_of_set (order : set_order) l :
  length (list_of_set order l) = length (nodup string_dec l).
Proof.
  apply Permutation_length, NoDup_Permutation.
  - apply list_of_set_NoDup.
  - apply NoDup_nodup.
  - intros x. rewrite list_of_set_In, nodup_In. reflexivity.
Qed.

Lemma bind_ext {A B : Type} (c : prog A) (f g : A -> prog B) w :
  (forall x w', f x w' = g x w') -> (c ≫= f) w = (c ≫= g) w.
Proof.
  intros E. unfold mbind, prog_bind. destruct (c w) as [[h|x] w']; [reflexivity | apply E].
Qed.

Lemma write_outputs_order o1 o2 locate path name fw lw nw fr lr nr w :
  write_outputs o1 locate path name fw lw nw fr lr nr w
  = write_outputs o2 locate path name fw lw nw fr lr nr w.
Proof.
  unfold write_outputs.
  destruct nr as [nr|]; [|reflexivity].
  destruct nw as [nw|]; [|reflexivity].
  destruct lr as [lr|]; [|reflexivity].
  destruct lw as [lw|]; [|reflexivity].
  unfold local, mbind, mret, prog_bind, prog_ret, write_file, print.
  rewrite !length_app, !(length_list_of_set o1), !(length_list_of_set o2).
  reflexivity.
Qed.

Lemma run_order_irrelevant (o1 o2 : set_order) (locate : string -> string)
    (inv : invocation) (fs : gmap string file) :
  run o1 locate inv fs = run o2 locate inv fs.
Proof.
  unfold run, main. apply bind_ext. intros _ w.
  destruct (filename inv) as [path|]; [|reflexivity].
  unfold process. apply bind_ext. intros found w1.
  apply bind_ext. intros _ w2. apply bind_ext. intros contents w3.
  unfold analyse. apply bind_ext. intros name w4.
  apply bind_ext. intros [[fw lw] nw] w5.
  apply bind_ext. intros [[fr lr] nr] w6.
  apply write_outputs_order.
Qed.

Lemma resolve_module_name_eq s w :
  resolve_module_name s w
  = (inr (chosen_name s), World (files w) (console w ++ name_notice s)).
Proof.
  unfold resolve_module_name, chosen_name, name_notice.
  destruct (findall1 moduleNamePattern s) as [|n [|n' l]]; try reflexivity.
  destruct w. simpl. rewrite app_nil_r. reflexivity.
Qed.

Lemma extract_found r msg s w :
  findall2 r s <> [] ->
  extract r msg s w = (inr (true, Some (findall2 r s), Some (length (findall2 r s))), w).
Proof.
  intros H. unfold extract. destruct (findall2 r s); [congruence | reflexivity].
Qed.

Lemma extract_none r msg s w :
  findall2 r s = [] ->
  extract r msg s w = (inr (false, None, None), World (files w) (console w ++ [msg])).
Proof. intros H. unfold extract. rewrite H. reflexivity. Qed.

Lemma names_all (l : list declaration) : names (length l) l = map name_of l.
Proof. unfold names, for_range. rewrite firstn_all. reflexivity. Qed.

Lemma bind_ret_eq {A B : Type} (c : prog A) (f : A -> prog B) w x w' :
  c w = (inr x, w') -> (c ≫= f) w = f x w'.
Proof. intros E. unfold mbind, prog_bind. rewrite E. reflexivity. Qed.

Lemma bind_halt_eq {A B : Type} (c : prog A) (f : A -> prog B) w h w' :
  c w = (inl h, w') -> (c ≫= f) w = (inl h, w').
Proof. intros E. unfold mbind, prog_bind. rewrite E. reflexivity. Qed.

Lemma read_module_readable locate path s w :
  files w !! locate path = Some (Readable s) ->
  read_module locate path w
  = (inr s, World (files w) (console w ++ [fileReadSuccess])).
Proof. intros E. unfold read_module. rewrite E. reflexivity. Qed.

(** A run on a file that exists goes on to read it. *)
Lemma run_reaches_read order locate inv path fs :
  argc inv <> 1 -> filename inv = Some path -> is_Some (fs !! locate path) ->
  run order locate inv fs
  = (read_module locate path ≫= analyse order locate path) (World fs []).
Proof.
  intros Hargc Hname Hfile.
  unfold run, main, when. apply Nat.eqb_neq in Hargc. rewrite Hargc, Hname.
  rewrite (bind_ret_eq _ _ _ tt (World fs [])) by reflexivity.
  unfold process.
  rewrite (bind_ret_eq _ _ _ true (World fs [])).
  - rewrite (bind_ret_eq _ _ _ tt (World fs [])) by reflexivity. reflexivity.
  - unfold isfile. cbn [files]. rewrite bool_decide_eq_true_2 by exact Hfile.
    reflexivity.
Qed.

(** A run on a readable file is lines 131-225 on its text. *)
Lemma run_reads order locate inv path text fs :
  argc inv <> 1 -> filename inv = Some path ->
  fs !! locate path = Some (Readable text) ->
  run order locate inv fs
  = analyse order locate path text (World fs [fileReadSuccess]).
Proof.
  intros Hargc Hname Hfile.
  rewrite (run_reaches_read order locate inv path fs Hargc Hname)
    by (rewrite Hfile; eauto).
  apply (bind_ret_eq _ _ _ _ _
           (read_module_readable locate path text (World fs []) Hfile)).
Qed.

(** A run on a file whose [read()] raises. *)
Lemma run_unreadable order locate inv path fs :
  argc inv <> 1 -> filename inv = Some path ->
  fs !! locate path = Some Unreadable ->
  run order locate inv fs = (inl SystemExit, World fs [fileReadError]).
Proof.
  intros Hargc Hname Hfile.
  rewrite (run_reaches_read order locate inv path fs Hargc Hname)
    by (rewrite Hfile; eauto).
  apply bind_halt_eq. unfold read_module. cbn [files]. rewrite Hfile. reflexivity.
Qed.

Lemma write_outputs_eq order locate path name (wires regs : list declaration) w :
  write_outputs order locate path name true (Some wires) (Some (length wires))
                true (Some regs) (Some (length regs)) w
  = (inr tt,
     World
       (<[locate (name +:+ "_internal_signals.txt") := Readable
            ((internalWiresHeader path +:+ LF +:+ LF +:+ signal_lines wires)
             +:+ (internalRegsHeader path +:+ LF +:+ LF +:+ signal_lines regs))]>
          (<[locate (name +:+ "_internal_signals.csv") := Readable
               (csv_text (internalSignalsDict (length regs + length wires)
                            (wires ++ regs)))]> (files w)))
       (console w
        ++ [goodbyeMsg (name +:+ "_internal_signals.txt")
                       (name +:+ "_internal_signals.csv");
            internalSignalsSummaryMsg name
              (distinct (map name_of wires)) (distinct (map name_of regs))
              (distinct (map name_of wires) + distinct (map name_of regs))])).
Proof.
  unfold write_outputs, local, write_file, print.
  unfold mbind, mret, prog_bind, prog_ret. cbn [files console].
  rewrite length_app, !length_list_of_set, !names_all, <- app_assoc.
  reflexivity.
Qed.

(** Lines 131-225 on a text in which both kinds occur. *)
Lemma analyse_both_found order locate path text w :
  findall2 internalWiresPattern text <> [] ->
  findall2 internalRegsPattern text <> [] ->
  let wires := findall2 internalWiresPattern text in
  let regs := findall2 internalRegsPattern text in
  let name := chosen_name text in
  let csv := name +:+ "_internal_signals.csv" in
  let txt := name +:+ "_internal_signals.txt" in
  analyse order locate path text w
  = (inr tt,
     World
       (<[locate txt := Readable
            ((internalWiresHeader path +:+ LF +:+ LF +:+ signal_lines wires)
             +:+ (internalRegsHeader path +:+ LF +:+ LF +:+ signal_lines regs))]>
          (<[locate csv := Readable
               (csv_text (internalSignalsDict (length regs + length wires)
                            (wires ++ regs)))]> (files w)))
       (console w ++ name_notice text
        ++ [goodbyeMsg txt csv;
            internalSignalsSummaryMsg name
              (distinct (map name_of wires)) (distinct (map name_of regs))
              (distinct (map name_of wires) + distinct (map name_of regs))])).
Proof.
  intros Hw Hr. cbv zeta. unfold analyse.
  rewrite (bind_ret_eq _ _ _ _ _ (resolve_module_name_eq text _)).
  rewrite (bind_ret_eq _ _ _ _ _ (extract_found _ _ text _ Hw)).
  rewrite (bind_ret_eq _ _ _ _ _ (extract_found _ _ text _ Hr)).
  rewrite write_outputs_eq. cbn [files console]. rewrite <- app_assoc. reflexivity.
Qed.

(** A run on a readable file in which both kinds occur. *)
Lemma run_both_found order locate inv path text fs :
  argc inv <> 1 -> filename inv = Some path ->
  fs !! locate path = Some (Readable text) ->
  findall2 internalWiresPattern text <> [] ->
  findall2 internalRegsPattern text <> [] ->
  let wires := findall2 internalWiresPattern text in
  let regs := findall2 internalRegsPattern text in
  let name := chosen_name text in
  let csv := name +:+ "_internal_signals.csv" in
  let txt := name +:+ "_internal_signals.txt" in
  run order locate inv fs
  = (inr tt,
     World
       (<[locate txt := Readable
            ((internalWiresHeader path +:+ LF +:+ LF +:+ signal_lines wires)
             +:+ (internalRegsHeader path +:+ LF +:+ LF +:+ signal_lines regs))]>
          (<[locate csv := Readable
               (csv_text (internalSignalsDict (length regs + length wires)
                            (wires ++ regs)))]> fs))
       ([fileReadSuccess] ++ name_notice text
        ++ [goodbyeMsg txt csv;
            internalSignalsSummaryMsg name
              (distinct (map name_of wires)) (distinct (map name_of regs))
              (distinct (map name_of wires) + distinct (map name_of regs))])).
Proof.
  intros Hargc Hname Hfile Hw Hr. cbv zeta.
  rewrite (run_reads order locate inv path text fs Hargc Hname Hfile).
  rewrite (analyse_both_found order locate path text _ Hw Hr). reflexivity.
Qed.

(** Lines 131-225 on a text in which one kind does not occur: line 159
    reads [numInternalRegs] first, then [numInternalWires]. *)
Lemma analyse_kind_missing order locate path text w :
  findall2 internalWiresPattern text = [] \/ findall2 internalRegsPattern text = [] ->
  analyse order locate path text w
  = (inl (Traceback (NameError
            (match findall2 internalRegsPattern text with
             | [] => "numInternalRegs"
             | _ => "numInternalWires"
             end))),
     World (files w)
           (console w ++ name_notice text
            ++ (match findall2 internalWiresPattern text with
                | [] => [noInternalWiresIdentified]
                | _ => []
                end)
            ++ (match findall2 internalRegsPattern text with
                | [] => [noInternalRegsIdentified]
                | _ => []
                end))).
Proof.
  intros Hnone. unfold analyse.
  rewrite (bind_ret_eq _ _ _ _ _ (resolve_module_name_eq text _)).
  cbn [files console].
  destruct (findall2 internalRegsPattern text) as [|r regs] eqn:Er.
  - destruct (findall2 internalWiresPattern text) as [|x wires] eqn:Ew.
    + rewrite (bind_ret_eq _ _ _ _ _ (extract_none _ _ text _ Ew)).
      rewrite (bind_ret_eq _ _ _ _ _ (extract_none _ _ text _ Er)).
      unfold write_outputs, local, raise, mbind, prog_bind. cbn [files console].
      rewrite <- !app_assoc. reflexivity.
    + assert (Hw : findall2 internalWiresPattern text <> []) by (rewrite Ew; discriminate).
      rewrite (bind_ret_eq _ _ _ _ _ (extract_found _ _ text _ Hw)).
      rewrite (bind_ret_eq _ _ _ _ _ (extract_none _ _ text _ Er)).
      unfold write_outputs, local, raise, mbind, prog_bind. cbn [files console].
      rewrite <- !app_assoc. reflexivity.
  - destruct Hnone as [Ew|]; [|discriminate].
    assert (Hr : findall2 internalRegsPattern text <> []) by (rewrite Er; discriminate).
    rewrite (bind_ret_eq _ _ _ _ _ (extract_none _ _ text _ Ew)).
    rewrite (bind_ret_eq _ _ _ _ _ (extract_found _ _ text _ Hr)).
    rewrite Ew.
    unfold write_outputs, local, raise, mbind, mret, prog_bind, prog_ret.
    cbn [files console].
    rewrite <- !app_assoc. reflexivity.
Qed.

End ScriptFacts.

(** ** Names and the dict *)

Module AggregateFacts.
Import Sre Patterns Aggregate Script Claims.

Lemma dict_get_set_same d k v : dict_get (dict_set d k v) k = Some v.
Proof.
  induction d as [|[k' v'] d IH]; simpl.
  - rewrite String.eqb_refl. reflexivity.
  - destruct (String.eqb k k') eqn:E; simpl; rewrite E; [reflexivity | exact IH].
Qed.

Lemma dict_get_set_other d k v k' :
  k' <> k -> dict_get (dict_set d k v) k' = dict_get d k'.
Proof.
  intros Hne. induction d as [|[k0 v0] d IH]; simpl.
  - apply String.eqb_neq in Hne. rewrite Hne. reflexivity.
  - destruct (String.eqb k k0) eqn:E; simpl.
    + apply String.eqb_eq in E. subst k0.
      apply String.eqb_neq in Hne. rewrite Hne. reflexivity.
    + destruct (String.eqb k' k0); [reflexivity | exact IH].
Qed.

Lemma assign_later_others (n : string) post : forall d,
  ~ In n (map name_of post) ->
  dict_get (fold_left (fun d m => dict_set d (name_of m) (dimension_of m)) post d) n = dict_get d n.
Proof.
  induction post as [|m post IH]; intros d Hn; simpl; [reflexivity|].
  simpl in Hn. rewrite IH by tauto.
  apply dict_get_set_other. intros E. apply Hn. left. auto.
Qed.

Lemma distinct_shared_name (l1 l2 : list string) n :
  In n l1 -> In n l2 -> distinct (l1 ++ l2) < distinct l1 + distinct l2.
Proof.
  intros H1 H2. unfold distinct.
  set (A := nodup string_dec l1). set (B := nodup string_dec l2).
  assert (Hlen : length (nodup string_dec (l1 ++ l2))
                 <= length (A ++ remove string_dec n B)).
  { apply NoDup_incl_length; [apply NoDup_nodup|].
    intros x Hx. apply nodup_In, in_app_or in Hx. apply in_or_app.
    destruct Hx as [Hx|Hx]; [left; apply nodup_In; exact Hx|].
    destruct (string_dec x n) as [->|Hne]; [left; apply nodup_In; exact H1|].
    right. apply in_in_remove; [exact Hne | apply nodup_In; exact Hx]. }
  rewrite length_app in Hlen.
  assert (Hrm : length (remove string_dec n B) < length B)
    by (apply remove_length_lt, nodup_In; exact H2).
  lia.
Qed.

End AggregateFacts.

(** ** Runs, the dict and worked examples *)

Module Properties.
Import Sre Patterns Aggregate Script Claims.
Import SreFacts ScanFacts PatternFacts LangFacts HeaderFacts ResolverFacts.
Import ScriptFacts AggregateFacts.

(** C1. The claim: when the wire matcher, the register matcher or both find
    nothing, the run goes on with an empty list and still writes both
    files. The script does not do that. On a file that holds only "reg a;"
    line 159 reads [numInternalWires], which no line has assigned: the run
    ends in NameError after the notice, and no file is written. On a file
    that holds only "wire a;" the same happens with [numInternalRegs]. *)
Theorem missing_kind_ends_in_NameError (order : set_order)
    (locate : string -> string) :
  run order locate (Invocation 3 (Some "top.v"))
      {[ locate "top.v" := Readable "reg a;" ]}
  = (inl (Traceback (NameError "numInternalWires")),
     World {[ locate "top.v" := Readable "reg a;" ]}
           [fileReadSuccess; moduleNameNotIdentified "module";
            noInternalWiresIdentified])
  /\ run order locate (Invocation 3 (Some "top.v"))
         {[ locate "top.v" := Readable "wire a;" ]}
     = (inl (Traceback (NameError "numInternalRegs")),
        World {[ locate "top.v" := Readable "wire a;" ]}
              [fileReadSuccess; moduleNameNotIdentified "module";
               noInternalRegsIdentified]).
Proof.
  split.
  - rewrite (run_reads order locate _ "top.v" "reg a;")
      by (try apply lookup_singleton_eq; simpl; congruence).
    rewrite analyse_kind_missing by (left; vm_compute; reflexivity).
    replace (findall2 internalRegsPattern "reg a;") with [("", "a")]
      by (vm_compute; reflexivity).
    replace (findall2 internalWiresPattern "reg a;") with (@nil (string * string))
      by (vm_compute; reflexivity).
    replace (name_notice "reg a;") with [moduleNameNotIdentified "module"]
      by (vm_compute; reflexivity).
    reflexivity.
  - rewrite (run_reads order locate _ "top.v" "wire a;")
      by (try apply lookup_singleton_eq; simpl; congruence).
    rewrite analyse_kind_missing by (right; vm_compute; reflexivity).
    replace (findall2 internalRegsPattern "wire a;") with (@nil (string * string))
      by (vm_compute; reflexivity).
    replace (findall2 internalWiresPattern "wire a;") with [("", "a")]
      by (vm_compute; reflexivity).
    replace (name_notice "wire a;") with [moduleNameNotIdentified "module"]
      by (vm_compute; reflexivity).
    reflexivity.
Qed.

(** C4. The claim: the dimension field is all the bracketed dimensions of
    the declaration, as written, and nothing else. The script keeps less
    and more: for "wire [3:0][7:0] foo;" the field is "[7:0]", since group 1
    sits inside the repetition and holds its last round only; for
    "wire [3:0]  foo;" the field is "[3:0] ", with one of the two spaces. *)
Theorem second_dimension_replaces_first :
  findall2 internalWiresPattern "wire [3:0][7:0] foo;" = [("[7:0]", "foo")]
  /\ findall2 internalWiresPattern "wire [3:0]  foo;" = [("[3:0] ", "foo")].
Proof. split; vm_compute; reflexivity. Qed.

(** C5. The dict is filled from the wire list followed by the register
    list, in order, duplicates included, one assignment per item; so for a
    name the dict holds the dimension of the last item with that name. *)
Theorem dict_last_write_wins (wires regs pre post : list declaration) (d n : string) :
  wires ++ regs = pre ++ (d, n) :: post ->
  ~ In n (map name_of post) ->
  dict_get (internalSignalsDict (length regs + length wires) (wires ++ regs)) n
  = Some d.
Proof.
  intros E Hlast. unfold internalSignalsDict, for_range.
  rewrite firstn_all2 by (rewrite length_app; lia).
  rewrite E, fold_left_app. simpl.
  rewrite assign_later_others by exact Hlast.
  apply dict_get_set_same.
Qed.

Lemma dict_last_write_wins_witness :
  let regs := [("", "a"); ("[3:0]", "b"); ("", "a")] in
  [] ++ regs = [("", "a"); ("[3:0]", "b")] ++ ("", "a") :: []
  /\ ~ In "a" (map name_of [])
  /\ dict_get (internalSignalsDict (length regs + length (@nil declaration)) ([] ++ regs)) "a"
     = Some "".
Proof.
  split; [reflexivity|]. split; [intros []|].
  apply (dict_last_write_wins [] _ [("", "a"); ("[3:0]", "b")] [] "" "a").
  - reflexivity.
  - intros [].
Defined.

(** C6. In a run that reaches the summary, the total it reports is the
    number of different wire names plus the number of different register
    names; a name that is both a wire and a register makes the total exceed
    the number of different names. *)
Theorem summary_total_is_sum (order : set_order) (locate : string -> string)
    (inv : invocation) (path text : string) (fs : gmap string file) :
  argc inv <> 1 -> filename inv = Some path ->
  fs !! locate path = Some (Readable text) ->
  findall2 internalWiresPattern text <> [] ->
  findall2 internalRegsPattern text <> [] ->
  let wireNames := map name_of (findall2 internalWiresPattern text) in
  let regNames := map name_of (findall2 internalRegsPattern text) in
  (exists msgs,
     console (snd (run order locate inv fs))
     = msgs ++ [internalSignalsSummaryMsg (chosen_name text)
                  (distinct wireNames) (distinct regNames)
                  (distinct wireNames + distinct regNames)])
  /\ (forall n, In n wireNames -> In n regNames ->
        distinct (wireNames ++ regNames) < distinct wireNames + distinct regNames).
Proof.
  intros Hargc Hname Hfile Hw Hr wireNames regNames. split.
  - rewrite (run_both_found order locate inv path text fs Hargc Hname Hfile Hw Hr).
    cbn [snd console].
    eexists ([fileReadSuccess] ++ name_notice text ++ [goodbyeMsg _ _]).
    rewrite <- !app_assoc. reflexivity.
  - intros n. apply distinct_shared_name.
Qed.

Lemma summary_total_is_sum_witness :
  let locate := fun p : string => p in
  let inv := Invocation 3 (Some "top.v") in
  let text := "wire a; reg a;" in
  let fs : gmap string file := {[ "top.v" := Readable text ]} in
  argc inv <> 1 /\ filename inv = Some "top.v"
  /\ fs !! locate "top.v" = Some (Readable text)
  /\ findall2 internalWiresPattern text <> []
  /\ findall2 internalRegsPattern text <> []
  /\ exists msgs,
       console (snd (run last_seen locate inv fs))
       = msgs ++ [internalSignalsSummaryMsg "module" 1 1 2].
Proof.
  assert (H1 : argc (Invocation 3 (Some "top.v")) <> 1) by (simpl; lia).
  assert (H2 : filename (Invocation 3 (Some "top.v")) = Some "top.v") by reflexivity.
  assert (H3 : ({[ "top.v" := Readable "wire a; reg a;" ]} : gmap string file)
               !! "top.v" = Some (Readable "wire a; reg a;"))
    by (vm_compute; reflexivity).
  assert (H4 : findall2 internalWiresPattern "wire a; reg a;" <> [])
    by (vm_compute; discriminate).
  assert (H5 : findall2 internalRegsPattern "wire a; reg a;" <> [])
    by (vm_compute; discriminate).
  repeat (split; [assumption|]).
  exact (proj1 (summary_total_is_sum last_seen (fun p => p) _ "top.v"
                  "wire a; reg a;" _ H1 H2 H3 H4 H5)).
Defined.

(** C7. The end-to-end example: the header "module foo (" and the five
    lines. The module name is "foo"; the wire list is the one pair for
    internal_a; the register list has internal_b twice; the counts are 1, 1
    and 2; the CSV file has the header row and the two rows
    "internal_a,[3:0]" and "internal_b,"; neither "clk" nor "data" occurs
    in the CSV file or in the report. *)
Theorem end_to_end_example (order : set_order) (locate : string -> string) :
  let fs : gmap string file := {[ locate "foo.v" := Readable example_text ]} in
  let csv :=
    "Field Name,Field Dimension" +:+ CR +:+ LF
    +:+ "internal_a,[3:0]" +:+ CR +:+ LF
    +:+ "internal_b," +:+ CR +:+ LF in
  let report :=
    internalWiresHeader "foo.v" +:+ LF +:+ LF
    +:+ "internal_a   [3:0]" +:+ LF
    +:+ internalRegsHeader "foo.v" +:+ LF +:+ LF
    +:+ "internal_b   " +:+ LF +:+ "internal_b   " +:+ LF in
  findall1 moduleNamePattern example_text = ["foo"]
  /\ findall2 internalWiresPattern example_text = [("[3:0]", "internal_a")]
  /\ findall2 internalRegsPattern example_text
     = [("", "internal_b"); ("", "internal_b")]
  /\ run order locate (Invocation 3 (Some "foo.v")) fs
     = (inr tt,
        World (<[locate "foo_internal_signals.txt" := Readable report]>
                 (<[locate "foo_internal_signals.csv" := Readable csv]> fs))
              [fileReadSuccess;
               goodbyeMsg "foo_internal_signals.txt" "foo_internal_signals.csv";
               internalSignalsSummaryMsg "foo" 1 1 2])
  /\ contains csv "clk" = false /\ contains csv "data" = false
  /\ contains report "clk" = false /\ contains report "data" = false.
Proof.
  cbv zeta.
  assert (Ew : findall2 internalWiresPattern example_text = [("[3:0]", "internal_a")])
    by (vm_compute; reflexivity).
  assert (Er : findall2 internalRegsPattern example_text
               = [("", "internal_b"); ("", "internal_b")]) by (vm_compute; reflexivity).
  split; [vm_compute; reflexivity|]. split; [exact Ew|]. split; [exact Er|].
  split; [|repeat split; vm_compute; reflexivity].
  rewrite (run_both_found order locate _ "foo.v" example_text)
    by (try apply lookup_singleton_eq; try (simpl; congruence);
        rewrite ?Ew, ?Er; discriminate).
  rewrite Ew, Er.
  replace (chosen_name example_text) with "foo" by (vm_compute; reflexivity).
  replace (name_notice example_text) with (@nil message) by (vm_compute; reflexivity).
  repeat f_equal; vm_compute; reflexivity.
Qed.

(** C8, as stated, fails for the report: its two headers hold the path
    given on the command line (lines 206 and 215). Here "a.v" and "./a.v"
    name the same file, so both runs read the same text; they write the same
    CSV file and two different reports. *)
Lemma other_path_other_report :
  let locate := fun p : string => if String.eqb p "./a.v" then "a.v" else p in
  let fs : gmap string file := {[ "a.v" := Readable "wire w; reg r;" ]} in
  let out1 := run first_seen locate (Invocation 3 (Some "a.v")) fs in
  let out2 := run first_seen locate (Invocation 3 (Some "./a.v")) fs in
  fs !! locate "a.v" = Some (Readable "wire w; reg r;")
  /\ fs !! locate "./a.v" = Some (Readable "wire w; reg r;")
  /\ files (snd out1) !! locate "module_internal_signals.csv"
     = files (snd out2) !! locate "module_internal_signals.csv"
  /\ files (snd out1) !! locate "module_internal_signals.txt"
     <> files (snd out2) !! locate "module_internal_signals.txt".
Proof.
  cbv zeta. split; [|split; [|split]]; try (vm_compute; reflexivity).
  intros H. vm_compute in H. congruence.
Qed.

(** C8 (amended). Two runs on the same text, given under the same path on
    the command line, with paths naming files the same way in both, end the
    same way and print the same; when they reach the end, the CSV file
    holds the same text after both and so does the report, whatever order
    the two sets of names are listed in and whatever else the two file
    systems hold. *)
Theorem same_path_same_outputs (o1 o2 : set_order) (locate : string -> string)
    (inv1 inv2 : invocation) (path text : string) (fs1 fs2 : gmap string file) :
  argc inv1 <> 1 -> argc inv2 <> 1 ->
  filename inv1 = Some path -> filename inv2 = Some path ->
  fs1 !! locate path = Some (Readable text) ->
  fs2 !! locate path = Some (Readable text) ->
  let out1 := run o1 locate inv1 fs1 in
  let out2 := run o2 locate inv2 fs2 in
  let csv := locate (chosen_name text +:+ "_internal_signals.csv") in
  let txt := locate (chosen_name text +:+ "_internal_signals.txt") in
  fst out1 = fst out2
  /\ console (snd out1) = console (snd out2)
  /\ (fst out1 = inr tt ->
      exists c r,
        files (snd out1) !! csv = Some (Readable c)
        /\ files (snd out2) !! csv = Some (Readable c)
        /\ files (snd out1) !! txt = Some (Readable r)
        /\ files (snd out2) !! txt = Some (Readable r)).
Proof.
  intros Ha1 Ha2 Hn1 Hn2 Hf1 Hf2. cbv zeta.
  rewrite (run_reads o1 locate inv1 path text fs1 Ha1 Hn1 Hf1).
  rewrite (run_reads o2 locate inv2 path text fs2 Ha2 Hn2 Hf2).
  assert (Hw : findall2 internalWiresPattern text = []
               \/ findall2 internalWiresPattern text <> [])
    by (destruct (findall2 internalWiresPattern text); [left | right]; congruence).
  destruct Hw as [Ew|Hw].
  { rewrite !analyse_kind_missing by (left; exact Ew). cbn [fst snd console].
    split; [reflexivity|]. split; [reflexivity | discriminate]. }
  assert (Hr : findall2 internalRegsPattern text = []
               \/ findall2 internalRegsPattern text <> [])
    by (destruct (findall2 internalRegsPattern text); [left | right]; congruence).
  destruct Hr as [Er|Hr].
  { rewrite !analyse_kind_missing by (right; exact Er). cbn [fst snd console].
    split; [reflexivity|]. split; [reflexivity | discriminate]. }
  rewrite !(analyse_both_found _ locate path text _ Hw Hr). cbn [fst snd console files].
  split; [reflexivity|]. split; [reflexivity|]. intros _.
  destruct (string_dec
              (locate (chosen_name text +:+ "_internal_signals.txt"))
              (locate (chosen_name text +:+ "_internal_signals.csv"))) as [E|E].
  - rewrite E. eexists _, _. rewrite !lookup_insert_eq. repeat split; reflexivity.
  - eexists _, _. rewrite !(lookup_insert_ne _ _ _ _ E), !lookup_insert_eq.
    repeat split; reflexivity.
Qed.

Lemma same_path_same_outputs_witness :
  let locate := fun p : string => p in
  let inv := Invocation 3 (Some "top.v") in
  let text := "wire a; reg a;" in
  let fs1 : gmap string file := {[ "top.v" := Readable text ]} in
  let fs2 : gmap string file := <[ "other.v" := Unreadable ]> fs1 in
  argc inv <> 1 /\ filename inv = Some "top.v"
  /\ fs1 !! locate "top.v" = Some (Readable text)
  /\ fs2 !! locate "top.v" = Some (Readable text)
  /\ fst (run first_seen locate inv fs1) = fst (run last_seen locate inv fs2)
  /\ console (snd (run first_seen locate inv fs1))
     = console (snd (run last_seen locate inv fs2)).
Proof.
  assert (H1 : argc (Invocation 3 (Some "top.v")) <> 1) by (simpl; lia).
  assert (H2 : filename (Invocation 3 (Some "top.v")) = Some "top.v") by reflexivity.
  assert (H3 : ({[ "top.v" := Readable "wire a; reg a;" ]} : gmap string file)
               !! "top.v" = Some (Readable "wire a; reg a;"))
    by (vm_compute; reflexivity).
  assert (H4 : (<[ "other.v" := Unreadable ]>
                  ({[ "top.v" := Readable "wire a; reg a;" ]} : gmap string file))
               !! "top.v" = Some (Readable "wire a; reg a;"))
    by (vm_compute; reflexivity).
  repeat (split; [assumption|]).
  destruct (same_path_same_outputs first_seen last_seen (fun p => p) _ _ "top.v"
              "wire a; reg a;" _ _ H1 H1 H2 H2 H3 H4) as (Hend & Hout & _).
  split; [exact Hend | exact Hout].
Defined.

(** C9. With no argument at all, with no file name, or with a file name
    that is not an existing file, the run stops early and the files are
    what they were: no CSV file, no report. *)
Theorem no_input_no_files (order : set_order) (locate : string -> string)
    (inv : invocation) (fs : gmap string file) :
  argc inv = 1 \/ filename inv = None
  \/ (exists p, filename inv = Some p /\ fs !! locate p = None) ->
  exists h msgs, run order locate inv fs = (inl h, World fs msgs).
Proof.
  intros H. unfold run, main, when.
  destruct (argc inv =? 1) eqn:Hargc.
  - exists SystemExit, [noArgsMsg]. reflexivity.
  - apply Nat.eqb_neq in Hargc.
    rewrite (bind_ret_eq _ _ _ tt (World fs [])) by reflexivity.
    destruct H as [H|[H|(p & Hp & Hnone)]]; [contradiction| |].
    + rewrite H. exists (Traceback TypeError), []. reflexivity.
    + rewrite Hp. exists SystemExit, [noSuchFileMsg p].
      unfold process.
      rewrite (bind_ret_eq _ _ _ false (World fs []))
        by (unfold isfile; cbn [files]; rewrite Hnone; reflexivity).
      reflexivity.
Qed.

Lemma no_input_no_files_witness :
  let locate := fun p : string => p in
  (argc (Invocation 3 (Some "missing.v")) = 1
   \/ filename (Invocation 3 (Some "missing.v")) = None
   \/ (exists p, filename (Invocation 3 (Some "missing.v")) = Some p
                 /\ (∅ : gmap string file) !! locate p = None))
  /\ exists h msgs,
       run first_seen locate (Invocation 3 (Some "missing.v")) ∅
       = (inl h, World ∅ msgs).
Proof.
  assert (H : argc (Invocation 3 (Some "missing.v")) = 1
   \/ filename (Invocation 3 (Some "missing.v")) = None
   \/ (exists p, filename (Invocation 3 (Some "missing.v")) = Some p
                 /\ (∅ : gmap string file) !! (fun q : string => q) p = None)).
  { right. right. exists "missing.v". split; reflexivity. }
  split; [exact H|].
  exact (no_input_no_files first_seen (fun p => p) (Invocation 3 (Some "missing.v")) ∅ H).
Defined.

(** C10. The keyword needs no word boundary on its left: in
    "tripwire sig;" there is no wire keyword, and the wire matcher lists
    ("", "sig"); likewise the register matcher on "foreg sig;". *)
Theorem keyword_inside_identifier :
  findall2 internalWiresPattern "tripwire sig;" = [("", "sig")]
  /\ findall2 internalRegsPattern "foreg sig;" = [("", "sig")].
Proof. split; vm_compute; reflexivity. Qed.

End Properties.

(** * Groups, outputs and written forms *)

(** ** Groups *)

Module CaptureFacts.
Import Sre Patterns Aggregate Script Claims Captures Shapes.
Import SreFacts LangFacts ScanFacts PatternFacts HeaderFacts ResolverFacts.
Import ScriptFacts AggregateFacts.

Lemma consumed_firstn w st st' :
  consumed w st st' -> firstn (pos st' - pos st) (ahead st) = w.
Proof.
  intros [A P]. rewrite A, P.
  replace (pos st + length w - pos st) with (length w) by lia.
  rewrite firstn_app, firstn_all, Nat.sub_diag, firstn_O. apply app_nil_r.
Qed.

Lemma max_until_trace (P : text -> list (nat * text) -> Prop) body lo k res :
  (forall st j, body st j = Some res ->
     exists w g st', P w g /\ consumed w st st'
                     /\ groups st' = g ++ groups st /\ j st' = Some res) ->
  forall left count st,
    max_until body lo left count st k = Some res ->
    exists (rounds : list (text * list (nat * text))) st',
      Forall (fun x => P (fst x) (snd x)) rounds
      /\ lo <= count + length rounds /\ length rounds <= left
      /\ consumed (concat (map fst rounds)) st st'
      /\ groups st' = concat (rev (map snd rounds)) ++ groups st
      /\ k st' = Some res.
Proof.
  intros Hbody.
  assert (Htail : forall left count st,
    (if lo <=? count then k st else None) = Some res ->
    exists (rounds : list (text * list (nat * text))) st',
      Forall (fun x => P (fst x) (snd x)) rounds
      /\ lo <= count + length rounds /\ length rounds <= left
      /\ consumed (concat (map fst rounds)) st st'
      /\ groups st' = concat (rev (map snd rounds)) ++ groups st
      /\ k st' = Some res).
  { intros left count st H. destruct (lo <=? count) eqn:E; [|discriminate].
    apply Nat.leb_le in E. exists [], st. simpl.
    repeat split; auto using consumed_nil; try lia. }
  induction left as [|left IH]; intros count st H; simpl in H.
  - apply Htail. exact H.
  - destruct (body st _) as [r|] eqn:E; [|apply Htail; exact H].
    injection H as ->. apply Hbody in E.
    destruct E as (w & g & st1 & Hw & Hc & Hg & Hj). apply IH in Hj.
    destruct Hj as (rounds & st' & Hall & Hlo & Hhi & Hcs & Hgs & Hk).
    exists ((w, g) :: rounds), st'. simpl.
    split; [constructor; assumption|]. split; [lia|]. split; [lia|].
    split; [eapply consumed_app; eassumption|].
    split; [|exact Hk].
    rewrite Hgs, Hg, concat_app. simpl. rewrite app_nil_r, app_assoc. reflexivity.
Qed.

(** A successful match consumed a text of the pattern and added the groups
    that go with it. *)
Lemma sre_match_trace r : forall st k res,
  sre_match r st k = Some res ->
  exists w g st',
    trace r w g /\ consumed w st st'
    /\ groups st' = g ++ groups st /\ k st' = Some res.
Proof.
  induction r; intros st k res H; simpl in H.
  - exists [], [], st. simpl. auto using consumed_nil.
  - unfold one_char in H. destruct st as [n b [|x a] g]; simpl in H; [discriminate|].
    destruct (Ascii.eqb c x) eqn:E; [|discriminate]. apply Ascii.eqb_eq in E. subst x.
    eexists [c], [], _. split; [simpl; auto|]. split; [|split; [|exact H]].
    + split; simpl; [reflexivity | lia].
    + reflexivity.
  - unfold one_char in H. destruct st as [n b [|x a] g]; simpl in H; [discriminate|].
    destruct (in_set cs x) eqn:E; [|discriminate].
    eexists [x], [], _. split; [simpl; eauto|]. split; [|split; [|exact H]].
    + split; simpl; [reflexivity | lia].
    + reflexivity.
  - apply IHr1 in H. destruct H as (w1 & g1 & st1 & L1 & C1 & G1 & H).
    apply IHr2 in H. destruct H as (w2 & g2 & st2 & L2 & C2 & G2 & H).
    exists (w1 ++ w2), (g2 ++ g1), st2. split; [exists w1, w2, g1, g2; auto|].
    split; [eapply consumed_app; eassumption|].
    split; [rewrite G2, G1, app_assoc; reflexivity | exact H].
  - destruct (sre_match r1 st k) as [x|] eqn:E.
    + injection H as ->. apply IHr1 in E.
      destruct E as (w & g & st' & L & C & G & Hk).
      exists w, g, st'. simpl. auto.
    + apply IHr2 in H. destruct H as (w & g & st' & L & C & G & Hk).
      exists w, g, st'. simpl. auto.
  - apply repeat_one_sound in H.
    destruct H as (w & a' & Ha & Hlo & Hhi & Hall & Hk).
    eexists w, [], _. split; [simpl; auto|]. split; [|split; [|exact Hk]].
    + split; simpl; [exact Ha | reflexivity].
    + reflexivity.
  - apply (max_until_trace (trace r)) in H; [|intros; apply IHr; assumption].
    destruct H as (rounds & st' & Hall & Hlo & Hhi & Hc & Hg & Hk).
    exists (concat (map fst rounds)), (concat (rev (map snd rounds))), st'.
    split; [|auto].
    exists rounds. split; [reflexivity|]. split; [reflexivity|].
    split; [lia | exact Hall].
  - apply IHr in H. destruct H as (w & g & st1 & L & C & G & Hk).
    exists w, ((i, w) :: g), (set_group i st st1).
    split; [exists g; auto|]. destruct C as [A P].
    split; [split; simpl; assumption|]. split; [|exact Hk].
    simpl. rewrite G. f_equal. f_equal.
    apply consumed_firstn. split; assumption.
  - exists [], [], st. split; [simpl; auto|]. split; [apply consumed_nil|].
    split; [reflexivity|].
    destruct (fst (getwidth r) <=? pos st); [|exact H].
    destruct (sre_match r _ Some); [discriminate | exact H].
Qed.

End CaptureFacts.

(** ** What a declaration match covers *)

Module DeclarationFacts.
Import Sre Patterns Aggregate Script Claims Captures Shapes.
Import SreFacts LangFacts ScanFacts PatternFacts HeaderFacts ResolverFacts.
Import ScriptFacts AggregateFacts.
Import CaptureFacts.

Lemma trace_lits t w g : trace (lits t) w g -> w = t /\ g = [].
Proof.
  revert w g. induction t as [|c t IH]; intros w g H.
  - exact H.
  - change (lits (c :: t)) with (Seq (Literal c) (lits t)) in H.
    simpl in H. destruct H as (w1 & w2 & g1 & g2 & -> & -> & [-> ->] & H2).
    apply IH in H2. destruct H2 as [-> ->]. auto.
Qed.

Lemma trace_bracketed w g :
  trace bracketed_dimension w g -> g = [(1, w)] /\ bracketed w.
Proof.
  unfold bracketed_dimension, seq_all. cbn [fold_right trace].
  intros (g1 & -> & lb & x1 & ga & gb & -> & -> & [-> ->] &
          inner & x2 & gc & gd & -> & -> & ((Hin & _ & Hinner) & ->) &
          rb & x3 & ge & gf & -> & -> & [-> ->] &
          sp & x4 & gg & gh & -> & -> & Hsp & -> & ->).
  destruct Hsp as (rounds & -> & -> & Hlen & Hall).
  assert (Hsp : concat (rev (map snd rounds)) = []
                /\ Forall (fun c => c = " "%char) (concat (map fst rounds))).
  { clear Hlen. induction Hall as [|[w g] rounds Hx Hall IH]; [simpl; auto|].
    destruct IH as [IH1 IH2]. simpl in Hx. destruct Hx as [(_ & _ & Hw) ->].
    simpl. rewrite concat_app, IH1. simpl. split; [reflexivity|].
    apply Forall_app. split; [|exact IH2].
    eapply Forall_impl; [|exact Hw]. intros c Hc.
    unfold in_set in Hc. simpl in Hc. rewrite orb_false_r in Hc.
    apply Ascii.eqb_eq in Hc. exact Hc. }
  destruct Hsp as [-> Hsp]. simpl. rewrite !app_nil_r. split; [reflexivity|].
  exists inner, (concat (map fst rounds)). simpl.
  split; [reflexivity|].
  split; [intros ->; simpl in Hin; lia|]. split; [exact Hinner | exact Hsp].
Qed.

(** A declaration match, taken apart: the text it covers and the groups it
    sets. [dims] holds the bracketed dimensions, the last one first. *)
Lemma declaration_shape kw st st' :
  match_at (signal_declaration kw) st = Some st' ->
  exists ws1 dims ws2 name ws3 semi,
    consumed (list_ascii_of_string kw ++ ws1 ++ concat (rev dims) ++ ws2
              ++ name ++ ws3 ++ semi) st st'
    /\ groups st' = (2, name) :: map (fun d => (1, d)) dims ++ groups st
    /\ Forall (fun c => is_space c = true) ws1
    /\ Forall bracketed dims /\ length dims <= 2
    /\ ws2 <> [] /\ Forall (fun c => is_space c = true) ws2
    /\ name <> [] /\ Forall (fun c => signal_char c = true) name
    /\ Forall (fun c => is_space c = true) ws3
    /\ (semi = [] \/ semi = [";"%char]).
Proof.
  intros H. apply sre_match_trace in H.
  destruct H as (w & g & st1 & T & C & G & [= ->]).
  unfold signal_declaration, seq_all in T. cbn [fold_right] in T.
  change (fold_right Seq Empty (map Literal (list_ascii_of_string kw)))
    with (lits (list_ascii_of_string kw)) in T.
  destruct T as (w1 & x1 & g1 & y1 & -> & -> & Tkw & T).
  apply trace_lits in Tkw. destruct Tkw as [-> ->].
  cbn [trace] in T.
  destruct T as (w2 & x2 & g2 & y2 & -> & -> & ((_ & _ & Hw2) & ->) &
                 w3 & x3 & g3 & y3 & -> & -> & (rounds & -> & -> & Hlen & Hall) &
                 w4 & x4 & g4 & y4 & -> & -> & ((Hn4 & _ & Hw4) & ->) &
                 w5 & x5 & g5 & y5 & -> & -> & (g5' & -> & (Hn & _ & Hname) & ->) &
                 w6 & x6 & g6 & y6 & -> & -> & ((_ & _ & Hw6) & ->) &
                 w7 & x7 & g7 & y7 & -> & -> & ((_ & Hn7 & Hw7) & ->) & -> & ->).
  assert (Hr : concat (rev (map snd rounds))
               = map (fun d => (1, d)) (rev (map fst rounds))
               /\ Forall bracketed (map fst rounds)).
  { clear G C Hlen. induction Hall as [|[w g] rounds Hx Hall IH]; [simpl; auto|].
    apply trace_bracketed in Hx. destruct Hx as [Hx Hb]. simpl in Hx, Hb. subst g.
    destruct IH as [IH1 IH2]. simpl. rewrite concat_app, map_app, IH1.
    split; [reflexivity | constructor; assumption]. }
  destruct Hr as [Hr1 Hr2].
  exists w2, (rev (map fst rounds)), w4, w5, w6, w7.
  rewrite rev_involutive, app_nil_r in *.
  split; [exact C|].
  split; [rewrite G, Hr1; simpl; rewrite !app_nil_r; reflexivity|].
  split; [eapply Forall_impl; [|exact Hw2]; apply in_set_space|].
  split; [apply Forall_rev; exact Hr2|].
  split; [rewrite length_rev, length_map; lia|].
  split; [intros ->; simpl in Hn4; lia|].
  split; [eapply Forall_impl; [|exact Hw4]; apply in_set_space|].
  split; [intros ->; simpl in Hn; lia|].
  split; [exact Hname|].
  split; [eapply Forall_impl; [|exact Hw6]; apply in_set_space|].
  specialize (Hn7 1 eq_refl).
  destruct w7 as [|c [|c' w7]]; [left; reflexivity | | simpl in Hn7; lia].
  right. inversion Hw7 as [|? ? Hc _]; subst.
  unfold in_set in Hc. simpl in Hc. rewrite orb_false_r in Hc.
  apply Ascii.eqb_eq in Hc. subst. reflexivity.
Qed.

(** The groups of a declaration match: the name, and before it one entry
    per bracketed dimension, the last one first. *)
Lemma declaration_groups kw st st' :
  match_at (signal_declaration kw) st = Some st' ->
  exists name dims,
    groups st' = (2, name) :: map (fun d => (1, d)) dims ++ groups st
    /\ name <> [] /\ Forall (fun c => signal_char c = true) name
    /\ Forall bracketed dims /\ length dims <= 2.
Proof.
  intros H. apply declaration_shape in H.
  destruct H as (ws1 & dims & ws2 & name & ws3 & semi & _ & G & _ & Hd & Hl
                 & _ & _ & Hn & Hname & _).
  exists name, dims. auto.
Qed.

(** Every pair that [findall] lists comes from such a match. *)
Lemma findall2_entry kw s d n :
  In (d, n) (findall2 (internalPatternRawStr kw) s) ->
  exists name dims,
    n = string_of_list_ascii name
    /\ d = match dims with
           | [] => EmptyString
           | last :: _ => string_of_list_ascii last
           end
    /\ name <> [] /\ Forall (fun c => signal_char c = true) name
    /\ Forall bracketed dims /\ length dims <= 2.
Proof.
  unfold findall2. intros H. apply in_map_iff in H.
  destruct H as (m & E & Hin). injection E as <- <-.
  apply (finditer_sound _ _ _ (internal_pattern_never_empty kw)) in Hin.
  destruct Hin as [Hs _].
  unfold shape_at in Hs. rewrite internal_pattern_gate in Hs.
  destruct (existsb _ _); [discriminate|].
  destruct (match_at (signal_declaration kw) _) as [st|] eqn:E; [|discriminate].
  injection Hs as <-.
  apply declaration_groups in E.
  destruct E as (name & dims & G & Hn & Hname & Hdims & Hlen).
  simpl in G. rewrite app_nil_r in G.
  exists name, dims. unfold group. simpl. rewrite G. simpl.
  split; [reflexivity|]. split; [|auto].
  destruct dims; reflexivity.
Qed.

Lemma string_of_list_ascii_nonempty t : t <> [] -> string_of_list_ascii t <> EmptyString.
Proof. destruct t; [congruence | discriminate]. Qed.

End DeclarationFacts.

(** ** What a header match captures *)

Module ModuleNameFacts.
Import Sre Patterns Aggregate Script Claims Captures Shapes.
Import SreFacts LangFacts ScanFacts PatternFacts HeaderFacts ResolverFacts.
Import ScriptFacts AggregateFacts.
Import CaptureFacts DeclarationFacts.

(** The group of a header match is the module name. *)
Lemma module_header_groups st st' :
  match_at module_header st = Some st' ->
  exists id,
    groups st' = (1, id) :: groups st
    /\ id <> [] /\ Forall (fun c => ident_char c = true) id.
Proof.
  intros H. apply sre_match_trace in H.
  destruct H as (w & g & st1 & T & _ & G & [= ->]).
  unfold module_header, seq_all in T. cbn [fold_right] in T.
  change (fold_right Seq Empty (map Literal (list_ascii_of_string "module")))
    with (lits (list_ascii_of_string "module")) in T.
  destruct T as (w1 & x1 & g1 & y1 & -> & -> & Tkw & T).
  apply trace_lits in Tkw. destruct Tkw as [-> ->].
  cbn [trace] in T.
  destruct T as (w2 & x2 & g2 & y2 & -> & -> & (_ & ->) &
                 w3 & x3 & g3 & y3 & -> & -> & (rounds & -> & -> & _ & Hall) &
                 w4 & x4 & g4 & y4 & -> & -> & (g4' & -> & (Hn & _ & Hid) & ->) &
                 w5 & x5 & g5 & y5 & -> & -> & (_ & ->) &
                 w6 & x6 & g6 & y6 & -> & -> & (_ & ->) &
                 w7 & x7 & g7 & y7 & -> & -> & (_ & ->) &
                 w8 & x8 & g8 & y8 & -> & -> & (_ & ->) & -> & ->).
  assert (Hr : concat (rev (map snd rounds)) = []).
  { clear G. induction Hall as [|[w g] rounds Hx Hall IH]; [reflexivity|].
    simpl in Hx. apply (trace_lits (list_ascii_of_string "$[PREFIX]")) in Hx.
    destruct Hx as [_ ->]. simpl. rewrite concat_app, IH. reflexivity. }
  exists w4. rewrite G, Hr. simpl.
  split; [reflexivity|]. split; [intros ->; simpl in Hn; lia | exact Hid].
Qed.

Lemma findall1_entry s name :
  In name (findall1 moduleNamePattern s) ->
  exists id,
    name = string_of_list_ascii id
    /\ id <> [] /\ Forall (fun c => ident_char c = true) id.
Proof.
  unfold findall1. intros H. apply in_map_iff in H.
  destruct H as (m & <- & Hin).
  apply (finditer_sound _ _ _ module_pattern_never_empty) in Hin.
  destruct Hin as [Hs Hlen].
  rewrite module_pattern_gate in Hs by exact Hlen.
  destruct (after_char _ _ _); [discriminate|].
  unfold shape_at in Hs.
  destruct (match_at module_header _) as [st|] eqn:E; [|discriminate].
  injection Hs as <-.
  apply module_header_groups in E. destruct E as (id & G & Hn & Hid).
  exists id. unfold group. simpl. rewrite G. simpl. auto.
Qed.

End ModuleNameFacts.

(** ** The fields written *)

Module OutputFacts.
Import Sre Patterns Aggregate Script Claims Captures Shapes.
Import SreFacts LangFacts ScanFacts PatternFacts HeaderFacts ResolverFacts.
Import ScriptFacts AggregateFacts.
Import CaptureFacts DeclarationFacts ModuleNameFacts.

Lemma signal_char_plain c : signal_char c = true -> quoting_char c = false.
Proof. destruct c as [[] [] [] [] [] [] [] []]; vm_compute; congruence. Qed.

Lemma dimension_char_plain c : dimension_char c = true -> quoting_char c = false.
Proof. destruct c as [[] [] [] [] [] [] [] []]; vm_compute; congruence. Qed.

Lemma needs_quotes_false (t : text) :
  Forall (fun c => quoting_char c = false) t ->
  needs_quotes (string_of_list_ascii t) = false.
Proof.
  intros H. unfold needs_quotes. rewrite list_ascii_of_string_of_list_ascii.
  induction H as [|c t Hc _ IH]; [reflexivity|].
  simpl. unfold quoting_char in Hc. rewrite Hc. exact IH.
Qed.

Lemma bracketed_plain d : bracketed d -> Forall (fun c => quoting_char c = false) d.
Proof.
  intros (inner & sp & -> & _ & Hin & Hsp).
  constructor; [reflexivity|]. apply Forall_app. split.
  - eapply Forall_impl; [|exact Hin]. apply dimension_char_plain.
  - constructor; [reflexivity|].
    eapply Forall_impl; [|exact Hsp]. intros c ->. reflexivity.
Qed.

(** Neither field of a listed pair makes the csv writer quote. *)
Lemma listed_pair_plain kw s d n :
  In (d, n) (findall2 (internalPatternRawStr kw) s) ->
  needs_quotes n = false /\ needs_quotes d = false.
Proof.
  intros H. apply findall2_entry in H.
  destruct H as (name & dims & -> & -> & _ & Hname & Hdims & _).
  split.
  - apply needs_quotes_false.
    eapply Forall_impl; [|exact Hname]. apply signal_char_plain.
  - destruct dims as [|d dims]; [reflexivity|].
    apply needs_quotes_false, bracketed_plain.
    inversion Hdims; assumption.
Qed.

Lemma dict_set_entries d k v k' v' :
  In (k', v') (dict_set d k v) -> (k', v') = (k, v) \/ In (k', v') d.
Proof.
  induction d as [|[k0 v0] d IH]; simpl.
  - intros [E|[]]. left. congruence.
  - destruct (String.eqb k k0) eqn:E; simpl.
    + apply String.eqb_eq in E. subst k0. intros [H|H]; [left|right; right]; auto.
    + intros [H|H]; [right; left; exact H|].
      destruct (IH H); [left | right; right]; assumption.
Qed.

(** Every entry of the dict is a name with the dimension of one item. *)
Lemma dict_entries_from_items (l : list declaration) : forall n k v,
  In (k, v) (internalSignalsDict n l) -> In (v, k) l.
Proof.
  intros n k v. unfold internalSignalsDict, for_range.
  assert (G : forall (items : list declaration) d0,
    In (k, v) (fold_left (fun d m => dict_set d (name_of m) (dimension_of m)) items d0) ->
    In (k, v) d0 \/ In (v, k) items).
  { induction items as [|[dm nm] items IH]; intros d0 H; simpl in H; [auto|].
    apply IH in H. destruct H as [H|H]; [|right; right; exact H].
    apply dict_set_entries in H. destruct H as [H|H]; [|left; exact H].
    injection H as -> ->. right. left. reflexivity. }
  intros H. apply G in H. destruct H as [[]|H].
  rewrite <- (firstn_skipn n l). apply in_or_app. left. exact H.
Qed.


Lemma writerow_plain k v :
  needs_quotes k = false -> needs_quotes v = false ->
  writerow [k; v] = plain_row (k, v).
Proof.
  intros Hk Hv. unfold writerow, plain_row, csv_field. simpl.
  rewrite Hk, Hv. reflexivity.
Qed.

(** X10. The CSV file never needs quotes: its text is the header row and,
    for each entry of the dict, the name, a comma, the dimension and the
    line end CR LF, nothing added. *)
Theorem csv_rows_unquoted (text : string) :
  let wires := findall2 internalWiresPattern text in
  let regs := findall2 internalRegsPattern text in
  let d := internalSignalsDict (length regs + length wires) (wires ++ regs) in
  csv_text d
  = (("Field Name" +:+ "," +:+ "Field Dimension") +:+ CR +:+ LF)
    +:+ String.concat "" (map plain_row (dict_items d)).
Proof.
  cbv zeta. unfold csv_text. f_equal. f_equal.
  apply map_ext_in. intros [k v] Hin.
  apply dict_entries_from_items, in_app_or in Hin.
  apply writerow_plain; simpl;
    destruct Hin as [Hin|Hin]; apply listed_pair_plain in Hin; apply Hin.
Qed.

(** X2. In every pair that [findall] returns for a declaration pattern the
    name is not empty and holds only letters, digits, underscores and
    dollars, and the dimension is either empty or one bracket with its
    content and the spaces that follow it. *)
Theorem listed_pair_wellformed kw s d n :
  In (d, n) (findall2 (internalPatternRawStr kw) s) ->
  (n <> EmptyString /\ Forall (fun c => signal_char c = true) (list_ascii_of_string n))
  /\ (d = EmptyString \/ bracketed (list_ascii_of_string d)).
Proof.
  intros H. apply findall2_entry in H.
  destruct H as (name & dims & -> & -> & Hn & Hname & Hdims & _).
  split.
  - split; [apply string_of_list_ascii_nonempty, Hn|].
    rewrite list_ascii_of_string_of_list_ascii. exact Hname.
  - destruct dims as [|x dims]; [left; reflexivity|]. right.
    rewrite list_ascii_of_string_of_list_ascii. inversion Hdims; assumption.
Qed.

Lemma listed_pair_wellformed_witness :
  In ("[3:0]", "foo") (findall2 (internalPatternRawStr "wire") "wire [3:0] foo;")
  /\ "foo" <> EmptyString
  /\ ("[3:0]" = EmptyString \/ bracketed (list_ascii_of_string "[3:0]")).
Proof.
  assert (H : In ("[3:0]", "foo")
                (findall2 (internalPatternRawStr "wire") "wire [3:0] foo;"))
    by (vm_compute; left; reflexivity).
  split; [exact H|].
  destruct (listed_pair_wellformed "wire" _ _ _ H) as [[Hn _] Hd].
  split; [exact Hn | exact Hd].
Defined.

(** X8. The module name that the script settles on, found or fallen back
    to, is never empty and holds only letters, digits and underscores; so
    the two output file names hold no path separator. *)
Theorem chosen_name_is_identifier s :
  chosen_name s <> EmptyString
  /\ Forall (fun c => ident_char c = true) (list_ascii_of_string (chosen_name s)).
Proof.
  unfold chosen_name.
  destruct (findall1 moduleNamePattern s) as [|name [|name' l]] eqn:E;
    try (split; [discriminate | repeat constructor]).
  assert (Hin : In name (findall1 moduleNamePattern s)) by (rewrite E; left; reflexivity).
  apply findall1_entry in Hin. destruct Hin as (id & -> & Hn & Hid).
  split; [apply string_of_list_ascii_nonempty, Hn|].
  rewrite list_ascii_of_string_of_list_ascii. exact Hid.
Qed.

(** X1. Whatever the matcher of a kind lists is written in the text: from
    its start to its end the match reads keyword, whitespace or none, at
    most two bracketed dimensions, whitespace, a name of signal characters,
    whitespace or none, and a semicolon or none. Group 2 is that name;
    group 1 is the last bracketed dimension, or empty when there is none. *)
Theorem listed_match_is_declaration kw (s : text) (m : found) :
  In m (finditer (internalPatternRawStr kw) s) ->
  exists ws1 dims ws2 name ws3 semi,
    firstn (m_end m - m_start m) (skipn (m_start m) s)
    = list_ascii_of_string kw ++ ws1 ++ concat (rev dims) ++ ws2
      ++ name ++ ws3 ++ semi
    /\ group 2 m = string_of_list_ascii name
    /\ group 1 m = match dims with
                   | [] => EmptyString
                   | last :: _ => string_of_list_ascii last
                   end
    /\ Forall (fun c => is_space c = true) ws1
    /\ Forall bracketed dims /\ length dims <= 2
    /\ ws2 <> [] /\ Forall (fun c => is_space c = true) ws2
    /\ name <> [] /\ Forall (fun c => signal_char c = true) name
    /\ Forall (fun c => is_space c = true) ws3
    /\ (semi = [] \/ semi = [";"%char]).
Proof.
  intros Hin. apply (finditer_sound _ _ _ (internal_pattern_never_empty kw)) in Hin.
  destruct Hin as [Hs _].
  unfold shape_at in Hs. rewrite internal_pattern_gate in Hs.
  destruct (existsb _ _); [discriminate|].
  destruct (match_at (signal_declaration kw) _) as [st|] eqn:E; [|discriminate].
  injection Hs as <-.
  apply declaration_shape in E.
  destruct E as (ws1 & dims & ws2 & name & ws3 & semi & C & G & H).
  exists ws1, dims, ws2, name, ws3, semi.
  split; [exact (consumed_firstn _ _ _ C)|].
  simpl in G. rewrite app_nil_r in G.
  unfold group. cbn [m_groups]. rewrite G. simpl.
  split; [reflexivity|]. split; [destruct dims; reflexivity | exact H].
Qed.

Lemma listed_match_is_declaration_witness :
  let s := list_ascii_of_string "wire [3:0] foo;" in
  let m := Found 0 15 [(2, list_ascii_of_string "foo");
                       (1, list_ascii_of_string "[3:0]")] in
  In m (finditer (internalPatternRawStr "wire") s)
  /\ exists name, group 2 m = string_of_list_ascii name /\ name <> [].
Proof.
  assert (H : In (Found 0 15 [(2, list_ascii_of_string "foo");
                              (1, list_ascii_of_string "[3:0]")])
                (finditer (internalPatternRawStr "wire")
                   (list_ascii_of_string "wire [3:0] foo;")))
    by (vm_compute; left; reflexivity).
  split; [exact H|].
  destruct (listed_match_is_declaration "wire" _ _ H)
    as (ws1 & dims & ws2 & name & ws3 & semi & _ & Hname & _ & _ & _ & _ & _ & _
        & Hne & _).
  exists name. split; [exact Hname | exact Hne].
Defined.

End OutputFacts.

(** ** The reach of the look-behinds *)

Module OutcomeFacts.
Import Sre Patterns Aggregate Script Claims Captures Shapes.
Import SreFacts LangFacts ScanFacts PatternFacts HeaderFacts ResolverFacts.
Import ScriptFacts AggregateFacts.

(** X5. The look-behinds reach 16 whitespace characters and no further:
    a keyword that stands after 17 or more whitespace characters is not
    excluded, whatever stands before them, "input" and "output" included;
    the pattern matches there exactly when the declaration does. *)
Theorem long_gap_hides_port (kw : string) (s : text) (p : nat) (pre ws : text) :
  p <= length s ->
  firstn p s = pre ++ ws ->
  Forall (fun c => is_space c = true) ws ->
  maxNumWhiteSpaces < length ws ->
  ~ port_prefixed s p
  /\ shape_at (internalPatternRawStr kw) s p = shape_at (signal_declaration kw) s p.
Proof.
  intros Hp E Hws Hlen.
  assert (Hnot : ~ port_prefixed s p).
  { intros (tok & i & Htok & Hi & pre' & ws' & E' & Hl' & _).
    assert (Ht : exists tok0, list_ascii_of_string tok = tok0 ++ ["t"%char]).
    { destruct Htok as [-> | ->];
        [exists (list_ascii_of_string "inpu") | exists (list_ascii_of_string "outpu")];
        reflexivity. }
    destruct Ht as (tok0 & Ht).
    assert (E1 : nth_error (rev (firstn p s)) i = Some "t"%char).
    { assert (Er : rev (firstn p s) = rev ws' ++ "t"%char :: rev tok0 ++ rev pre').
      { rewrite E', Ht, !rev_app_distr, <- !app_assoc. reflexivity. }
      rewrite Er, nth_error_app2 by (rewrite length_rev; lia).
      rewrite length_rev, Hl', Nat.sub_diag. reflexivity. }
    rewrite E, rev_app_distr in E1.
    rewrite nth_error_app1 in E1 by (rewrite length_rev; lia).
    apply nth_error_In, in_rev in E1.
    rewrite Forall_forall in Hws. apply Hws in E1. vm_compute in E1. discriminate. }
  split; [exact Hnot|]. apply not_port_prefixed_match; assumption.
Qed.

Lemma long_gap_hides_port_witness :
  let s := list_ascii_of_string "input                 wire x;" in
  let ws := list_ascii_of_string "                 " in
  22 <= length s
  /\ firstn 22 s = list_ascii_of_string "input" ++ ws
  /\ Forall (fun c => is_space c = true) ws
  /\ maxNumWhiteSpaces < length ws
  /\ shape_at (internalPatternRawStr "wire") s 22
     = shape_at (signal_declaration "wire") s 22.
Proof.
  assert (H1 : 22 <= length (list_ascii_of_string "input                 wire x;"))
    by (vm_compute; lia).
  assert (H2 : firstn 22 (list_ascii_of_string "input                 wire x;")
               = list_ascii_of_string "input"
                 ++ list_ascii_of_string "                 ") by reflexivity.
  assert (H3 : Forall (fun c => is_space c = true)
                 (list_ascii_of_string "                 "))
    by (repeat constructor).
  assert (H4 : maxNumWhiteSpaces < length (list_ascii_of_string "                 "))
    by (vm_compute; lia).
  repeat (split; [assumption|]).
  exact (proj2 (long_gap_hides_port "wire" _ 22 _ _ H1 H2 H3 H4)).
Defined.

End OutcomeFacts.

(** ** How a run ends *)

Module RunFacts.
Import Sre Patterns Aggregate Script Claims Captures Shapes.
Import SreFacts LangFacts ScanFacts PatternFacts HeaderFacts ResolverFacts.
Import ScriptFacts AggregateFacts.

(** X12. When the file exists and reading it raises, the script prints the
    read-error message and exits; no file is written. *)
Theorem unreadable_file_stops (order : set_order) (locate : string -> string)
    (inv : invocation) (path : string) (fs : gmap string file) :
  argc inv <> 1 -> filename inv = Some path ->
  fs !! locate path = Some Unreadable ->
  run order locate inv fs = (inl SystemExit, World fs [fileReadError]).
Proof. apply run_unreadable. Qed.

Lemma unreadable_file_stops_witness :
  let locate := fun p : string => p in
  let inv := Invocation 3 (Some "top.v") in
  let fs : gmap string file := {[ "top.v" := Unreadable ]} in
  argc inv <> 1 /\ filename inv = Some "top.v"
  /\ fs !! locate "top.v" = Some Unreadable
  /\ run first_seen locate inv fs = (inl SystemExit, World fs [fileReadError]).
Proof.
  assert (H1 : argc (Invocation 3 (Some "top.v")) <> 1) by (simpl; lia).
  assert (H2 : filename (Invocation 3 (Some "top.v")) = Some "top.v") by reflexivity.
  assert (H3 : ({[ "top.v" := Unreadable ]} : gmap string file) !! "top.v"
               = Some Unreadable) by (vm_compute; reflexivity).
  repeat (split; [assumption|]).
  exact (unreadable_file_stops first_seen (fun p => p) _ "top.v" _ H1 H2 H3).
Defined.

(** A run on a readable file in which one kind does not occur, with what
    it prints. *)
Lemma run_kind_missing_console order locate inv path text fs :
  argc inv <> 1 -> filename inv = Some path ->
  fs !! locate path = Some (Readable text) ->
  findall2 internalWiresPattern text = [] \/ findall2 internalRegsPattern text = [] ->
  exists variable,
    run order locate inv fs
    = (inl (Traceback (NameError variable)),
       World fs ([fileReadSuccess] ++ name_notice text
                 ++ missing_notices (findall2 internalWiresPattern text)
                                    (findall2 internalRegsPattern text))).
Proof.
  intros Hargc Hname Hfile Hnone.
  rewrite (run_reads order locate inv path text fs Hargc Hname Hfile).
  rewrite (analyse_kind_missing order locate path text _ Hnone).
  eexists. reflexivity.
Qed.

Lemma no_summary_in_notices text wires regs n a b c :
  ~ In (internalSignalsSummaryMsg n a b c)
       ([fileReadSuccess] ++ name_notice text ++ missing_notices wires regs).
Proof.
  unfold name_notice, missing_notices. intros H.
  apply in_app_or in H. destruct H as [[H|[]]|H]; [discriminate|].
  apply in_app_or in H. destruct H as [H|H].
  - destruct (findall1 moduleNamePattern text) as [|? [|? ?]]; simpl in H;
      try contradiction; destruct H as [H|[]]; discriminate.
  - apply in_app_or in H. destruct H as [H|H].
    + destruct wires; simpl in H; [destruct H as [H|[]]; discriminate | contradiction].
    + destruct regs; simpl in H; [destruct H as [H|[]]; discriminate | contradiction].
Qed.

(** Every run either stops early, the files as they were and no summary
    printed, or is a run on a readable file with both kinds found. *)
Lemma run_cases order locate inv fs :
  (exists h msgs,
     run order locate inv fs = (inl h, World fs msgs)
     /\ forall n a b c, ~ In (internalSignalsSummaryMsg n a b c) msgs)
  \/ (exists path text,
        argc inv <> 1 /\ filename inv = Some path
        /\ fs !! locate path = Some (Readable text)
        /\ findall2 internalWiresPattern text <> []
        /\ findall2 internalRegsPattern text <> []).
Proof.
  destruct (Nat.eq_dec (argc inv) 1) as [Hargc|Hargc].
  { left. exists SystemExit, [noArgsMsg]. split.
    - unfold run, main, when. rewrite Hargc. reflexivity.
    - intros n a b c [H|[]]. discriminate. }
  destruct (filename inv) as [path|] eqn:Hname.
  2:{ left. exists (Traceback TypeError), []. split.
      - unfold run, main, when. apply Nat.eqb_neq in Hargc. rewrite Hargc, Hname.
        reflexivity.
      - intros n a b c []. }
  destruct (fs !! locate path) as [[text|]|] eqn:Hfile.
  - destruct (findall2 internalWiresPattern text) as [|x wires] eqn:Ew.
    { left. destruct (run_kind_missing_console order locate inv path text fs
                        Hargc Hname Hfile (or_introl Ew)) as (v & Hrun).
      eexists _, _. split; [exact Hrun|]. intros. apply no_summary_in_notices. }
    destruct (findall2 internalRegsPattern text) as [|y regs] eqn:Er.
    { left. destruct (run_kind_missing_console order locate inv path text fs
                        Hargc Hname Hfile (or_intror Er)) as (v & Hrun).
      eexists _, _. split; [exact Hrun|]. intros. apply no_summary_in_notices. }
    right. exists path, text. rewrite Ew, Er. repeat split; auto; discriminate.
  - left. exists SystemExit, [fileReadError]. split.
    + apply (run_unreadable order locate inv path); assumption.
    + intros n a b c [H|[]]. discriminate.
  - left. exists SystemExit, [noSuchFileMsg path]. split.
    + unfold run, main, when. apply Nat.eqb_neq in Hargc. rewrite Hargc, Hname.
      rewrite (bind_ret_eq _ _ _ tt (World fs [])) by reflexivity.
      unfold process.
      rewrite (bind_ret_eq _ _ _ false (World fs []))
        by (unfold isfile; cbn [files]; rewrite Hfile; reflexivity).
      reflexivity.
    + intros n a b c [H|[]]. discriminate.
Qed.

(** X13. A run that does not reach its end, by [exit()] or by an
    exception, leaves every file as it was: every stop of the script lies
    before its first write. Opening a file for writing is taken to succeed,
    as in [write_file]. *)
Theorem early_stop_writes_nothing (order : set_order) (locate : string -> string)
    (inv : invocation) (fs : gmap string file) (h : halt) (w : world) :
  run order locate inv fs = (inl h, w) -> files w = fs.
Proof.
  intros H. destruct (run_cases order locate inv fs) as [(h' & msgs & E & _)|Hok].
  - rewrite E in H. injection H as _ <-. reflexivity.
  - destruct Hok as (path & text & Hargc & Hname & Hfile & Hw & Hr).
    rewrite (run_both_found order locate inv path text fs Hargc Hname Hfile Hw Hr) in H.
    discriminate.
Qed.

Lemma early_stop_writes_nothing_witness :
  let locate := fun p : string => p in
  let fs : gmap string file := {[ "top.v" := Readable "reg a;" ]} in
  let w := World fs [fileReadSuccess; moduleNameNotIdentified "module";
                     noInternalWiresIdentified] in
  run first_seen locate (Invocation 3 (Some "top.v")) fs
  = (inl (Traceback (NameError "numInternalWires")), w)
  /\ files w = fs.
Proof.
  assert (H : run first_seen (fun p : string => p) (Invocation 3 (Some "top.v"))
                {[ "top.v" := Readable "reg a;" ]}
              = (inl (Traceback (NameError "numInternalWires")),
                 World {[ "top.v" := Readable "reg a;" ]}
                       [fileReadSuccess; moduleNameNotIdentified "module";
                        noInternalWiresIdentified]))
    by (vm_compute; reflexivity).
  split; [exact H|].
  exact (early_stop_writes_nothing first_seen (fun p => p) _ _ _ _ H).
Defined.

Lemma distinct_positive l : l <> [] -> 1 <= distinct l.
Proof.
  intros H. destruct l as [|x l]; [congruence|]. unfold distinct.
  assert (Hin : In x (nodup string_dec (x :: l))) by (apply nodup_In; left; reflexivity).
  destruct (nodup string_dec (x :: l)); [destruct Hin | simpl; lia].
Qed.

(** X14. A summary that is printed never reports zero: the number of wires
    and the number of registers are both at least 1, and the total is
    their sum. *)
Theorem summary_counts_positive (order : set_order) (locate : string -> string)
    (inv : invocation) (fs : gmap string file) (name : string) (a b c : nat) :
  In (internalSignalsSummaryMsg name a b c)
     (console (snd (run order locate inv fs))) ->
  1 <= a /\ 1 <= b /\ c = a + b.
Proof.
  intros H. destruct (run_cases order locate inv fs) as [(h' & msgs & E & Hno)|Hok].
  - rewrite E in H. simpl in H. apply Hno in H. contradiction.
  - destruct Hok as (path & text & Hargc & Hname & Hfile & Hw & Hr).
    rewrite (run_both_found order locate inv path text fs Hargc Hname Hfile Hw Hr) in H.
    cbn [snd console] in H.
    apply in_app_or in H. destruct H as [[H|[]]|H]; [discriminate|].
    apply in_app_or in H. destruct H as [H|H].
    + exfalso. unfold name_notice in H.
      destruct (findall1 moduleNamePattern text) as [|? [|? ?]]; simpl in H;
        try contradiction; destruct H as [H|[]]; discriminate.
    + destruct H as [H|[H|[]]]; [discriminate|]. injection H as _ <- <- <-.
      split; [|split; [|reflexivity]]; apply distinct_positive;
        intros E; apply map_eq_nil in E; contradiction.
Qed.

Lemma summary_counts_positive_witness :
  let locate := fun p : string => p in
  let fs : gmap string file := {[ "top.v" := Readable "wire a; reg a;" ]} in
  In (internalSignalsSummaryMsg "module" 1 1 2)
     (console (snd (run first_seen locate (Invocation 3 (Some "top.v")) fs)))
  /\ 1 <= 1 /\ 1 <= 1 /\ 2 = 1 + 1.
Proof.
  assert (H : In (internalSignalsSummaryMsg "module" 1 1 2)
                (console (snd (run first_seen (fun p : string => p)
                                 (Invocation 3 (Some "top.v"))
                                 {[ "top.v" := Readable "wire a; reg a;" ]}))))
    by (vm_compute; auto 10).
  split; [exact H|].
  exact (summary_counts_positive first_seen (fun p => p) _ _ _ _ _ _ H).
Defined.

End RunFacts.

(** ** What a run writes *)

Module WriteFacts.
Import Sre Patterns Aggregate Script Claims Captures Shapes.
Import SreFacts LangFacts ScanFacts PatternFacts HeaderFacts ResolverFacts.
Import ScriptFacts AggregateFacts.
Import RunFacts.



(** *** The keys of the dict *)

Lemma dict_set_keys d k v :
  map fst (dict_set d k v)
  = if existsb (String.eqb k) (map fst d) then map fst d else map fst d ++ [k].
Proof.
  induction d as [|[k0 v0] d IH]; simpl; [reflexivity|].
  destruct (String.eqb k k0) eqn:E; simpl; [reflexivity|].
  rewrite IH. destruct (existsb _ _); reflexivity.
Qed.

Lemma filter_filter {A : Type} (f g : A -> bool) l :
  filter f (filter g l) = filter (fun x => g x && f x) l.
Proof.
  induction l as [|x l IH]; simpl; [reflexivity|].
  destruct (g x); simpl; [destruct (f x)|]; rewrite ?IH; reflexivity.
Qed.

Lemma fold_keys (items : list declaration) : forall d0,
  map fst (fold_left (fun d m => dict_set d (name_of m) (dimension_of m)) items d0)
  = map fst d0 ++ filter (absent (map fst d0)) (first_occurrences (map name_of items)).
Proof.
  induction items as [|[dm nm] items IH]; intros d0; simpl.
  - rewrite app_nil_r. reflexivity.
  - rewrite IH, dict_set_keys. unfold name_of, dimension_of. simpl.
    set (X := first_occurrences (map snd items)).
    unfold absent at 2. 
    destruct (existsb (String.eqb nm) (map fst d0)) eqn:E; simpl.
    + f_equal. rewrite filter_filter. apply filter_ext. intros x.
      destruct (String.eqb x nm) eqn:Ex; simpl; [|reflexivity].
      apply String.eqb_eq in Ex. subst x. unfold absent. rewrite E. reflexivity.
    + rewrite <- app_assoc. simpl. f_equal. f_equal.
      rewrite filter_filter. apply filter_ext. intros x.
      unfold absent. rewrite existsb_app. simpl. rewrite orb_false_r.
      rewrite negb_orb, andb_comm. reflexivity.
Qed.

Lemma first_occurrences_In l x : In x (first_occurrences l) <-> In x l.
Proof.
  induction l as [|y l IH]; simpl; [reflexivity|].
  rewrite filter_In, IH. split.
  - intros [H|[H _]]; auto.
  - intros [H|H]; [auto|]. destruct (string_dec y x) as [E|E]; [auto|].
    right. split; [exact H|]. apply negb_true_iff, String.eqb_neq. congruence.
Qed.

Lemma first_occurrences_NoDup l : NoDup (first_occurrences l).
Proof.
  induction l as [|y l IH]; simpl; constructor.
  - rewrite filter_In. intros [_ H]. rewrite String.eqb_refl in H. discriminate.
  - apply NoDup_filter, IH.
Qed.

(** X9. The keys of the dict, and so the rows of the CSV file, are the
    names of the wire list followed by the register list, each once, in
    the order in which they first occur; their number is the number of
    different names of both kinds together. *)
Theorem csv_rows_follow_first_occurrence (wires regs : list declaration) :
  let d := internalSignalsDict (length regs + length wires) (wires ++ regs) in
  map fst (dict_items d) = first_occurrences (map name_of (wires ++ regs))
  /\ length (dict_items d) = distinct (map name_of (wires ++ regs)).
Proof.
  cbv zeta. unfold internalSignalsDict, for_range, dict_items.
  rewrite firstn_all2 by (rewrite length_app; lia).
  assert (E : map fst (fold_left (fun d m => dict_set d (name_of m) (dimension_of m))
                         (wires ++ regs) [])
              = first_occurrences (map name_of (wires ++ regs))).
  { rewrite fold_keys. cbn [map app].
    induction (first_occurrences (map name_of (wires ++ regs))) as [|x l IH];
      simpl; [reflexivity | f_equal; exact IH]. }
  split; [exact E|].
  rewrite <- (length_map fst), E. unfold distinct.
  apply Permutation_length, NoDup_Permutation.
  - apply first_occurrences_NoDup.
  - apply NoDup_nodup.
  - intros x. rewrite first_occurrences_In, nodup_In. reflexivity.
Qed.

End WriteFacts.

(** ** The order of the matches *)

Module OrderFacts.
Import Sre Patterns Aggregate Script Claims Captures Shapes.
Import SreFacts LangFacts ScanFacts PatternFacts HeaderFacts ResolverFacts.
Import ScriptFacts AggregateFacts.

Lemma scan_in_order r a : never_empty r -> forall b skip,
  ForallOrdPairs (fun m m' => m_start m < m_start m' /\ m_end m <= m_start m')
                 (scan r (length b) b a skip).
Proof.
  intros Hne. induction a as [|c a IH]; intros b skip.
  - rewrite scan_nil by exact Hne.
    destruct skip; [destruct (match_at r _)|]; repeat constructor.
  - assert (Hrest : forall sk,
        ForallOrdPairs (fun m m' => m_start m < m_start m' /\ m_end m <= m_start m')
                       (scan r (S (length b)) (c :: b) a sk))
      by (intros sk; apply (IH (c :: b))).
    rewrite scan_cons by exact Hne.
    destruct skip as [|skip]; [|apply Hrest].
    destruct (match_at r _) as [st|]; [|apply Hrest].
    constructor; [|apply Hrest].
    apply Forall_forall. intros m' Hm'.
    apply (scan_starts r a Hne (c :: b)) in Hm'. simpl in *. lia.
Qed.

(** X6. The matches that the script's three scans list are in text order
    and do not overlap: each one starts before, and ends at or before the
    start of, every later one. The three patterns are the module-name
    pattern and the declaration pattern with "wire" and with "reg" (here
    with any keyword); none of them can match the empty text. *)
Theorem listed_matches_in_text_order (kw : string) (s : text) :
  let in_order :=
    ForallOrdPairs (fun m m' => m_start m < m_start m' /\ m_end m <= m_start m') in
  in_order (finditer moduleNamePattern s)
  /\ in_order (finditer (internalPatternRawStr kw) s).
Proof.
  split.
  - apply (scan_in_order _ s module_pattern_never_empty [] 0).
  - apply (scan_in_order _ s (internal_pattern_never_empty kw) [] 0).
Qed.

End OrderFacts.

(** ** Greedy repeats *)

Module GreedyFacts.
Import Sre Patterns Aggregate Script Claims Captures Shapes.
Import SreFacts LangFacts ScanFacts PatternFacts HeaderFacts ResolverFacts.
Import ScriptFacts AggregateFacts.
Import CaptureFacts.

(** A greedy repeat that can take all of [w], and no more, hands the rest
    of the pattern the state after [w] first. *)
Lemma repeat_one_all p w : forall lo n b a' g k res,
  Forall (fun c => p c = true) w -> stops p a' -> lo <= length w ->
  k (MState (n + length w) (rev w ++ b) a' g) = Some res ->
  repeat_one p lo None n b (w ++ a') g k = Some res.
Proof.
  induction w as [|c w IH]; intros lo n b a' g k res Hw Hstop Hlo Hk.
  - simpl in *. assert (lo = 0) by lia. subst lo.
    rewrite Nat.add_0_r in Hk.
    destruct a' as [|c a']; simpl; [exact Hk|]. rewrite Hstop. exact Hk.
  - inversion Hw as [|? ? Hc Hw']; subst. simpl. rewrite Hc.
    rewrite (IH (Nat.pred lo) (S n) (c :: b) a' g k res); auto.
    + simpl in Hlo. lia.
    + simpl in Hk. rewrite <- app_assoc in Hk. simpl in Hk.
      replace (S n + length w) with (n + S (length w)) by lia. exact Hk.
Qed.

(** With no lower bound, a repeat in front of a pattern that cannot fail
    cannot fail either. *)
Lemma repeat_one_total p (Q : mstate -> Prop) g k a : forall hi n b,
  (forall n' b' a', exists res, k (MState n' b' a' g) = Some res /\ Q res) ->
  exists res, repeat_one p 0 hi n b a g k = Some res /\ Q res.
Proof.
  intros hi n b Hk. revert hi n b.
  induction a as [|c a IH]; intros hi n b; simpl.
  - destruct hi as [[|h]|]; apply Hk.
  - assert (Hrec : forall hi', exists res,
        (if p c
         then match repeat_one p 0 hi' (S n) (c :: b) a g k with
              | Some r => Some r
              | None => k (MState n b (c :: a) g)
              end
         else k (MState n b (c :: a) g)) = Some res /\ Q res).
    { intros hi'. destruct (p c); [|apply Hk].
      destruct (IH hi' (S n) (c :: b)) as (res & -> & HQ). eauto. }
    destruct hi as [[|h]|]; [apply Hk | apply Hrec | apply Hrec].
Qed.

Lemma after_name_total n b a g :
  exists res, sre_match after_name (MState n b a g) Some = Some res
              /\ groups res = g.
Proof.
  unfold after_name, seq_all, star, opt. cbn [fold_right sre_match pos behind ahead groups].
  apply repeat_one_total. intros n' b' a'.
  cbn [pos behind ahead groups].
  apply repeat_one_total. intros n2 b2 a2. eexists. split; reflexivity.
Qed.

Lemma signal_not_space c : signal_char c = true -> in_set [SSpace] c = false.
Proof. destruct c as [[] [] [] [] [] [] [] []]; vm_compute; congruence. Qed.

Lemma signal_not_blank c : signal_char c = true -> in_set [SChar " "] c = false.
Proof. destruct c as [[] [] [] [] [] [] [] []]; vm_compute; congruence. Qed.

Lemma signal_not_bracket c : signal_char c = true -> Ascii.eqb "[" c = false.
Proof. destruct c as [[] [] [] [] [] [] [] []]; vm_compute; congruence. Qed.

(** One whitespace character, then the name, then the rest of the
    pattern. *)
Lemma name_part_matches n b x name rest g :
  in_set [SSpace] x = true ->
  name <> [] -> Forall (fun c => signal_char c = true) name ->
  stops signal_char rest ->
  exists res,
    sre_match name_part (MState n b (x :: name ++ rest) g) Some = Some res
    /\ groups res = (2, name) :: g.
Proof.
  intros Hx Hn Hname Hrest.
  destruct (after_name_total (S n + length name) (rev name ++ x :: b) rest
              ((2, name) :: g)) as (res & Hres & Hg).
  exists res. split; [|exact Hg].
  unfold name_part, seq_all, plus. cbn [fold_right sre_match pos behind ahead groups].
  apply (repeat_one_all (in_set [SSpace]) [x]).
  - repeat constructor. exact Hx.
  - destruct name as [|c name]; [congruence|]. inversion Hname; subst.
    simpl. apply signal_not_space. assumption.
  - simpl. lia.
  - cbn [pos behind ahead groups length rev app].
    apply (repeat_one_all (in_set signal_chars) name).
    + exact Hname.
    + exact Hrest.
    + destruct name; [congruence | simpl; lia].
    + unfold set_group. cbn [pos behind ahead groups].
      replace (n + 1 + length name - (n + 1)) with (length name) by lia.
      rewrite firstn_app, firstn_all, Nat.sub_diag, firstn_O, app_nil_r.
      replace (n + 1 + length name) with (S n + length name) by lia.
      exact Hres.
Qed.

Lemma repeat_one_cons p lo n b c a g k :
  repeat_one p lo None n b (c :: a) g k
  = if p c
    then match repeat_one p (Nat.pred lo) None (S n) (c :: b) a g k with
         | Some r => Some r
         | None => if lo =? 0 then k (MState n b (c :: a) g) else None
         end
    else if lo =? 0 then k (MState n b (c :: a) g) else None.
Proof. reflexivity. Qed.

Lemma max_until_skip body lo left count st k :
  (forall j, body st j = None) ->
  max_until body lo left count st k = if lo <=? count then k st else None.
Proof. intros H. destruct left; simpl; [|rewrite H]; reflexivity. Qed.

Lemma bracketed_dimension_fails n b c a g k :
  Ascii.eqb "[" c = false ->
  sre_match bracketed_dimension (MState n b (c :: a) g) k = None.
Proof.
  intros H. unfold bracketed_dimension, seq_all.
  cbn [fold_right sre_match]. unfold one_char. cbn [ahead]. rewrite H. reflexivity.
Qed.

Lemma name_part_fails n b c a g k :
  in_set [SSpace] c = false ->
  sre_match name_part (MState n b (c :: a) g) k = None.
Proof.
  intros H. unfold name_part, seq_all, plus.
  cbn [fold_right sre_match pos behind ahead groups].
  rewrite repeat_one_cons, H. reflexivity.
Qed.

(** Where no bracket opens, the dimensions take nothing and the name part
    follows at once. *)
Lemma dimensions_skipped left count n b c a g :
  Ascii.eqb "[" c = false ->
  max_until (sre_match bracketed_dimension) 0 left count (MState n b (c :: a) g)
            (fun st => sre_match name_part st Some)
  = sre_match name_part (MState n b (c :: a) g) Some.
Proof.
  intros H. rewrite max_until_skip; [reflexivity|].
  intros j. apply bracketed_dimension_fails, H.
Qed.

Lemma starts_with_app t r : starts_with t (t ++ r) = true.
Proof. apply starts_with_spec. eauto. Qed.

Lemma declaration_unfold kw st :
  match_at (signal_declaration kw) st
  = sre_match (lits (list_ascii_of_string kw)) st
      (fun st1 => sre_match (star [SSpace]) st1
         (fun st2 => max_until (sre_match bracketed_dimension) 0 2 0 st2
            (fun st3 => sre_match name_part st3 Some))).
Proof. reflexivity. Qed.

(** A greedy repeat gives its last character back when the rest of the
    pattern fails after all of [w] and matches one character earlier. *)
Lemma repeat_one_back_one p w : forall x lo n b a' g k res,
  Forall (fun c => p c = true) w -> p x = true -> stops p a' -> lo <= length w ->
  k (MState (n + length w + 1) (x :: rev w ++ b) a' g) = None ->
  k (MState (n + length w) (rev w ++ b) (x :: a') g) = Some res ->
  repeat_one p lo None n b (w ++ x :: a') g k = Some res.
Proof.
  induction w as [|c w IH]; intros x lo n b a' g k res Hw Hx Hstop Hlo Hnone Hk.
  - cbn [app length rev] in *. assert (lo = 0) by lia. subst lo.
    rewrite Nat.add_0_r in Hnone, Hk. rewrite repeat_one_cons, Hx.
    assert (E : repeat_one p (Nat.pred 0) None (S n) (x :: b) a' g k = None).
    { replace (S n) with (n + 1) by lia.
      destruct a' as [|c a']; simpl; [exact Hnone|]. rewrite Hstop. exact Hnone. }
    rewrite E. exact Hk.
  - inversion Hw as [|? ? Hc Hw']; subst. cbn [app]. rewrite repeat_one_cons, Hc.
    rewrite (IH x (Nat.pred lo) (S n) (c :: b) a' g k res); auto.
    + simpl in Hlo. lia.
    + simpl in Hnone. rewrite <- app_assoc in Hnone. simpl in Hnone.
      replace (S n + length w + 1) with (n + S (length w) + 1) by lia. exact Hnone.
    + simpl in Hk. rewrite <- app_assoc in Hk. simpl in Hk.
      replace (S n + length w) with (n + S (length w)) by lia. exact Hk.
Qed.

Lemma space_not_bracket x : in_set [SSpace] x = true -> Ascii.eqb "[" x = false.
Proof. destruct x as [[] [] [] [] [] [] [] []]; vm_compute; congruence. Qed.

(** A declaration without dimension: keyword, whitespace, name. *)
Lemma plain_declaration_matches kw n b ws name rest g :
  ws <> [] -> Forall (fun c => in_set [SSpace] c = true) ws ->
  name <> [] -> Forall (fun c => signal_char c = true) name ->
  stops signal_char rest ->
  exists res,
    match_at (signal_declaration kw)
      (MState n b (list_ascii_of_string kw ++ ws ++ name ++ rest) g)
    = Some res
    /\ groups res = (2, name) :: g.
Proof.
  intros Hws Hsp Hn Hname Hrest.
  set (kwl := list_ascii_of_string kw).
  destruct (exists_last Hws) as (w & x & ->).
  apply Forall_app in Hsp. destruct Hsp as [Hw Hx]. inversion Hx as [|? ? Hx' _]; subst.
  destruct (name_part_matches (n + length kwl + length w) (rev w ++ rev kwl ++ b)
              x name rest g Hx' Hn Hname Hrest) as (res & Hres & Hg).
  exists res. split; [|exact Hg].
  rewrite declaration_unfold. fold kwl.
  rewrite sre_match_lits, starts_with_app.
  rewrite skipn_app, skipn_all, Nat.sub_diag, skipn_O. cbn [app].
  destruct name as [|c name]; [congruence|]. inversion Hname as [|? ? Hc _]; subst.
  unfold star. cbn [sre_match pos behind ahead groups].
  rewrite <- app_assoc. cbn [app].
  apply (repeat_one_back_one (in_set [SSpace]) w x).
  - exact Hw.
  - exact Hx'.
  - simpl. apply signal_not_space, Hc.
  - lia.
  - rewrite (dimensions_skipped 2 0 _ _ c) by (apply signal_not_bracket, Hc).
    apply name_part_fails, signal_not_space, Hc.
  - rewrite (dimensions_skipped 2 0 _ _ x) by (apply space_not_bracket, Hx').
    exact Hres.
Qed.

Lemma max_until_first body lo left count st k res :
  body st (fun st1 => max_until body lo left (S count) st1 k) = Some res ->
  max_until body lo (S left) count st k = Some res.
Proof. intros H. simpl. rewrite H. reflexivity. Qed.

Lemma dimension_not_closing : in_set dimension_chars "]"%char = false.
Proof. reflexivity. Qed.

(** A declaration with one dimension: keyword, whitespace or none, the
    bracket, one space, name. *)
Lemma bracket_declaration_matches kw n b ws inner name rest g :
  Forall (fun c => in_set [SSpace] c = true) ws ->
  inner <> [] -> Forall (fun c => dimension_char c = true) inner ->
  name <> [] -> Forall (fun c => signal_char c = true) name ->
  stops signal_char rest ->
  exists res,
    match_at (signal_declaration kw)
      (MState n b (list_ascii_of_string kw
                   ++ ws ++ "["%char :: inner ++ "]"%char :: " "%char
                      :: name ++ rest) g)
    = Some res
    /\ groups res = (2, name) :: (1, "["%char :: inner ++ ["]"%char]) :: g.
Proof.
  intros Hws Hi Hinner Hn Hname Hrest.
  set (kwl := list_ascii_of_string kw).
  set (n0 := n + length kwl + length ws).
  set (b0 := rev ws ++ rev kwl ++ b).
  destruct (name_part_matches (n0 + length inner + 2)
              ("]"%char :: rev inner ++ "["%char :: b0) " "%char name rest
              ((1, "["%char :: inner ++ ["]"%char]) :: g) eq_refl Hn Hname Hrest)
    as (res & Hres & Hg).
  exists res. split; [|exact Hg].
  rewrite declaration_unfold. fold kwl.
  rewrite sre_match_lits, starts_with_app.
  rewrite skipn_app, skipn_all, Nat.sub_diag, skipn_O. cbn [app].
  unfold star at 1. cbn [sre_match pos behind ahead groups].
  apply (repeat_one_all (in_set [SSpace]) ws);
    [exact Hws | reflexivity | lia |].
  fold n0. fold b0.
  apply max_until_first.
  unfold bracketed_dimension at 1, seq_all.
  cbn [fold_right sre_match]. unfold one_char at 1. cbn [pos behind ahead groups].
  change (Ascii.eqb "[" "[") with true. cbv iota.
  unfold plus. cbn [sre_match pos behind ahead groups].
  apply (repeat_one_all (in_set dimension_chars) inner);
    [exact Hinner | exact dimension_not_closing
     | destruct inner; [congruence | simpl; lia] |].
  unfold one_char at 1. cbn [pos behind ahead groups].
  change (Ascii.eqb "]" "]") with true. cbv iota.
  apply max_until_first.
  unfold star. cbn [sre_match max_until pos behind ahead groups].
  change (0 <=? 1) with true. cbv iota.
  destruct name as [|c name]; [congruence|]. inversion Hname as [|? ? Hc _]; subst.
  cbn [app]. rewrite repeat_one_cons, repeat_one_cons.
  rewrite (signal_not_blank c Hc).
  change (in_set [SChar " "] " "%char) with true. cbv iota.
  change (Nat.pred 0 =? 0) with true. change (0 =? 0) with true. cbv iota.
  unfold set_group. cbn [pos behind ahead groups].
  rewrite bracketed_dimension_fails by (apply signal_not_bracket, Hc).
  rewrite name_part_fails by (apply signal_not_space, Hc).
  rewrite bracketed_dimension_fails by reflexivity.
  match goal with
  | |- sre_match name_part (MState ?n1 ?b1 _ ((1, ?t1) :: _)) Some = _ =>
      replace t1 with ("["%char :: inner ++ ["]"%char]);
      [replace n1 with (n0 + length inner + 2) by lia; exact Hres|]
  end.
  replace (S (S n0 + length inner) - n0) with (S (length inner + 1)) by lia.
  rewrite firstn_cons, firstn_app, firstn_all2 by lia.
  replace (length inner + 1 - length inner) with 1 by lia. reflexivity.
Qed.






End GreedyFacts.

(** ** Declarations that are listed *)

Module ListingFacts.
Import Sre Patterns Aggregate Script Claims Captures Shapes Written.
Import SreFacts LangFacts ScanFacts PatternFacts HeaderFacts ResolverFacts.
Import ScriptFacts AggregateFacts.
Import GreedyFacts.

Lemma state_at_app pre a :
  state_at (pre ++ a) (length pre) = MState (length pre) (rev pre) a [].
Proof.
  pose proof (state_at_split (rev pre) a) as H.
  rewrite rev_involutive, length_rev in H. exact H.
Qed.

(** A declaration match at a place that is neither behind a port keyword
    nor inside an earlier match is listed with its groups. *)
Lemma free_match_listed kw (s : string) pre a res :
  list_ascii_of_string s = pre ++ a ->
  match_at (signal_declaration kw) (MState (length pre) (rev pre) a []) = Some res ->
  ~ port_prefixed (list_ascii_of_string s) (length pre) ->
  (forall m', In m' (finditer (internalPatternRawStr kw) (list_ascii_of_string s)) ->
              ~ inside m' (length pre)) ->
  In (group 1 (Found (length pre) (pos res) (groups res)),
      group 2 (Found (length pre) (pos res) (groups res)))
     (findall2 (internalPatternRawStr kw) s).
Proof.
  intros E Hm Hport Hfree. unfold findall2.
  apply (in_map (fun m => (group 1 m, group 2 m))).
  assert (Hp : length pre <= length (list_ascii_of_string s))
    by (rewrite E, length_app; lia).
  apply (finditer_complete _ _ (length pre) _ (internal_pattern_never_empty kw));
    [exact Hp | | exact Hfree].
  rewrite (not_port_prefixed_match kw _ _ Hp Hport).
  unfold shape_at. rewrite E, state_at_app, Hm. reflexivity.
Qed.

(** X3. A declaration written as keyword, whitespace, name, with no
    signal character right after the name, is listed with an empty
    dimension, provided the keyword does not follow "input" or "output"
    and does not lie inside an earlier match. *)
Theorem plain_declaration_listed (kw s : string) (pre ws name rest : text) :
  list_ascii_of_string s = pre ++ list_ascii_of_string kw ++ ws ++ name ++ rest ->
  ws <> [] -> Forall (fun c => is_space c = true) ws ->
  name <> [] -> Forall (fun c => signal_char c = true) name ->
  stops signal_char rest ->
  ~ port_prefixed (list_ascii_of_string s) (length pre) ->
  (forall m', In m' (finditer (internalPatternRawStr kw) (list_ascii_of_string s)) ->
              ~ inside m' (length pre)) ->
  In (EmptyString, string_of_list_ascii name) (findall2 (internalPatternRawStr kw) s).
Proof.
  intros E Hws Hsp Hn Hname Hrest Hport Hfree.
  assert (Hsp' : Forall (fun c => in_set [SSpace] c = true) ws).
  { eapply Forall_impl; [|exact Hsp]. intros c Hc. unfold in_set. simpl.
    rewrite Hc. reflexivity. }
  destruct (plain_declaration_matches kw (length pre) (rev pre) ws name rest []
              Hws Hsp' Hn Hname Hrest) as (res & Hres & Hg).
  pose proof (free_match_listed kw s pre _ res E Hres Hport Hfree) as H.
  unfold group in H. cbn [m_groups] in H. rewrite Hg in H. exact H.
Qed.

Lemma plain_declaration_listed_witness :
  let s := "wire foo;" in
  list_ascii_of_string s
  = [] ++ list_ascii_of_string "wire" ++ [" "%char]
       ++ list_ascii_of_string "foo" ++ [";"%char]
  /\ ~ port_prefixed (list_ascii_of_string s) 0
  /\ In (EmptyString, "foo") (findall2 (internalPatternRawStr "wire") s).
Proof.
  assert (H1 : list_ascii_of_string "wire foo;"
               = [] ++ list_ascii_of_string "wire" ++ [" "%char]
                    ++ list_ascii_of_string "foo" ++ [";"%char]) by reflexivity.
  assert (H2 : ~ port_prefixed (list_ascii_of_string "wire foo;") 0).
  { intros Hp. apply (port_rejects_iff _ 0) in Hp; [|simpl; lia].
    vm_compute in Hp. discriminate. }
  split; [exact H1|]. split; [exact H2|].
  apply (plain_declaration_listed "wire" "wire foo;" [] [" "%char]
           (list_ascii_of_string "foo") [";"%char] H1).
  - discriminate.
  - repeat constructor.
  - discriminate.
  - repeat constructor.
  - reflexivity.
  - exact H2.
  - intros m' _ [Hlt _]. simpl in Hlt. lia.
Defined.

(** X4. A declaration written as keyword, whitespace or none, one bracketed
    dimension, one space, name, with no signal character right after the
    name, is listed with that bracket as its dimension, under the same two
    provisos. *)
Theorem bracket_declaration_listed (kw s : string) (pre ws inner name rest : text) :
  list_ascii_of_string s
  = pre ++ list_ascii_of_string kw
        ++ ws ++ "["%char :: inner ++ "]"%char :: " "%char :: name ++ rest ->
  Forall (fun c => is_space c = true) ws ->
  inner <> [] -> Forall (fun c => dimension_char c = true) inner ->
  name <> [] -> Forall (fun c => signal_char c = true) name ->
  stops signal_char rest ->
  ~ port_prefixed (list_ascii_of_string s) (length pre) ->
  (forall m', In m' (finditer (internalPatternRawStr kw) (list_ascii_of_string s)) ->
              ~ inside m' (length pre)) ->
  In (string_of_list_ascii ("["%char :: inner ++ ["]"%char]),
      string_of_list_ascii name)
     (findall2 (internalPatternRawStr kw) s).
Proof.
  intros E Hsp Hi Hinner Hn Hname Hrest Hport Hfree.
  assert (Hsp' : Forall (fun c => in_set [SSpace] c = true) ws).
  { eapply Forall_impl; [|exact Hsp]. intros c Hc. unfold in_set. simpl.
    rewrite Hc. reflexivity. }
  destruct (bracket_declaration_matches kw (length pre) (rev pre) ws inner name rest []
              Hsp' Hi Hinner Hn Hname Hrest) as (res & Hres & Hg).
  pose proof (free_match_listed kw s pre _ res E Hres Hport Hfree) as H.
  unfold group in H. cbn [m_groups] in H. rewrite Hg in H. exact H.
Qed.

Lemma bracket_declaration_listed_witness :
  let s := "reg [N-1:0] data_q;" in
  list_ascii_of_string s
  = [] ++ list_ascii_of_string "reg" ++ [" "%char]
       ++ "["%char :: list_ascii_of_string "N-1:0" ++ "]"%char :: " "%char
          :: list_ascii_of_string "data_q" ++ [";"%char]
  /\ ~ port_prefixed (list_ascii_of_string s) 0
  /\ In ("[N-1:0]", "data_q") (findall2 (internalPatternRawStr "reg") s).
Proof.
  assert (H1 : list_ascii_of_string "reg [N-1:0] data_q;"
               = [] ++ list_ascii_of_string "reg" ++ [" "%char]
                    ++ "["%char :: list_ascii_of_string "N-1:0" ++ "]"%char
                       :: " "%char :: list_ascii_of_string "data_q" ++ [";"%char])
    by reflexivity.
  assert (H2 : ~ port_prefixed (list_ascii_of_string "reg [N-1:0] data_q;") 0).
  { intros Hp. apply (port_rejects_iff _ 0) in Hp; [|simpl; lia].
    vm_compute in Hp. discriminate. }
  split; [exact H1|]. split; [exact H2|].
  apply (bracket_declaration_listed "reg" "reg [N-1:0] data_q;" [] [" "%char]
           (list_ascii_of_string "N-1:0") (list_ascii_of_string "data_q")
           [";"%char] H1).
  - repeat constructor.
  - discriminate.
  - repeat constructor.
  - discriminate.
  - repeat constructor.
  - reflexivity.
  - exact H2.
  - intros m' _ [Hlt _]. simpl in Hlt. lia.
Defined.






End ListingFacts.

(** ** Headers that are found *)

Module HeaderListing.
Import Sre Patterns Aggregate Script Claims Captures Shapes Written.
Import SreFacts LangFacts ScanFacts PatternFacts HeaderFacts ResolverFacts.
Import ScriptFacts AggregateFacts.
Import CaptureFacts DeclarationFacts GreedyFacts ListingFacts.

Lemma ident_not_space c : ident_char c = true -> in_set [SSpace] c = false.
Proof. destruct c as [[] [] [] [] [] [] [] []]; vm_compute; congruence. Qed.

Lemma ident_not_dollar c : ident_char c = true -> Ascii.eqb "$" c = false.
Proof. destruct c as [[] [] [] [] [] [] [] []]; vm_compute; congruence. Qed.

Lemma space_is_newline_or_space c :
  is_space c = true -> in_set newline_or_space c = true.
Proof.
  intros H. unfold in_set, newline_or_space. simpl. rewrite H.
  rewrite orb_true_r. reflexivity.
Qed.

Lemma module_header_unfold st :
  match_at module_header st
  = sre_match (lits (list_ascii_of_string "module")) st
      (fun st1 => sre_match (plus [SSpace]) st1
         (fun st2 => max_until (sre_match (lit "$[PREFIX]")) 0 1 0 st2
            (fun st3 => sre_match (plus [lower; upper; SChar "_"; digit]) st3
               (fun st4 => sre_match (star newline_or_space) (set_group 1 st3 st4)
                  (fun st5 => sre_match (opt [SChar "#"]) st5
                     (fun st6 => sre_match (star newline_or_space) st6
                        (fun st7 => sre_match (Literal "(") st7 Some))))))).
Proof. reflexivity. Qed.

(** From the name on: the name, whitespace, the parenthesis. *)
Lemma header_name_matches n b id ws2 rest g :
  id <> [] -> Forall (fun c => ident_char c = true) id ->
  Forall (fun c => is_space c = true) ws2 ->
  exists res,
    sre_match (plus [lower; upper; SChar "_"; digit])
      (MState n b (id ++ ws2 ++ "("%char :: rest) g)
      (fun st4 => sre_match (star newline_or_space)
                    (set_group 1 (MState n b (id ++ ws2 ++ "("%char :: rest) g) st4)
         (fun st5 => sre_match (opt [SChar "#"]) st5
            (fun st6 => sre_match (star newline_or_space) st6
               (fun st7 => sre_match (Literal "(") st7 Some))))
    = Some res
    /\ groups res = (1, id) :: g.
Proof.
  intros Hn Hid Hws. eexists. split.
  - unfold plus. cbn [sre_match pos behind ahead groups].
    apply (repeat_one_all (in_set [lower; upper; SChar "_"; digit]) id).
    + exact Hid.
    + destruct ws2 as [|c ws2]; [reflexivity|]. inversion Hws; subst. simpl.
      apply space_not_ident. assumption.
    + destruct id; [congruence | simpl; lia].
    + unfold set_group, star. cbn [sre_match pos behind ahead groups].
      apply (repeat_one_all (in_set newline_or_space) ws2).
      * eapply Forall_impl; [|exact Hws]. apply space_is_newline_or_space.
      * reflexivity.
      * lia.
      * unfold opt. cbn [sre_match pos behind ahead groups].
        simpl repeat_one. unfold one_char. cbn [ahead]. 
        change (Ascii.eqb "(" "(") with true. cbv iota. reflexivity.
  - cbn [groups]. f_equal. f_equal.
    replace (n + length id - n) with (length id) by lia.
    rewrite firstn_app, firstn_all, Nat.sub_diag, firstn_O. apply app_nil_r.
Qed.

(** A module header, written out: the keyword, whitespace, the placeholder
    or not, the name, whitespace or none, the parenthesis. *)
Lemma module_header_matches n b ws1 pf id ws2 rest g :
  ws1 <> [] -> Forall (fun c => is_space c = true) ws1 ->
  (pf = [] \/ pf = list_ascii_of_string "$[PREFIX]") ->
  id <> [] -> Forall (fun c => ident_char c = true) id ->
  Forall (fun c => is_space c = true) ws2 ->
  exists res,
    match_at module_header
      (MState n b (list_ascii_of_string "module"
                   ++ ws1 ++ pf ++ id ++ ws2 ++ "("%char :: rest) g)
    = Some res
    /\ groups res = (1, id) :: g.
Proof.
  intros Hw1 Hsp1 Hpf Hn Hid Hsp2.
  set (m := list_ascii_of_string "module").
  set (n1 := n + length m + length ws1).
  set (b1 := rev ws1 ++ rev m ++ b).
  destruct (header_name_matches (n1 + length pf) (rev pf ++ b1) id ws2 rest g
              Hn Hid Hsp2) as (res & Hres & Hg).
  exists res. split; [|exact Hg].
  rewrite module_header_unfold. fold m.
  rewrite sre_match_lits, starts_with_app.
  rewrite skipn_app, skipn_all, Nat.sub_diag, skipn_O. cbn [app].
  unfold plus at 1. cbn [sre_match pos behind ahead groups].
  apply (repeat_one_all (in_set [SSpace]) ws1).
  - eapply Forall_impl; [|exact Hsp1]. intros c Hc. unfold in_set. simpl.
    rewrite Hc. reflexivity.
  - destruct Hpf as [-> | ->]; [|reflexivity].
    destruct id as [|c id]; [congruence|]. inversion Hid; subst. simpl.
    apply ident_not_space. assumption.
  - destruct ws1; [congruence | simpl; lia].
  - fold n1. fold b1. destruct Hpf as [-> | ->].
    + destruct id as [|c id]; [congruence|]. inversion Hid as [|? ? Hc _]; subst.
      rewrite max_until_skip.
      * change (0 <=? 0) with true. cbv iota.
        cbn [app length rev] in Hres. rewrite Nat.add_0_r in Hres. exact Hres.
      * intros j. unfold lit. rewrite sre_match_lits.
        change (list_ascii_of_string "$[PREFIX]")
          with ("$"%char :: list_ascii_of_string "[PREFIX]").
        cbn [app starts_with]. rewrite (ident_not_dollar c Hc). reflexivity.
    + apply max_until_first. unfold lit.
      rewrite sre_match_lits, starts_with_app.
      rewrite skipn_app, skipn_all, Nat.sub_diag, skipn_O. cbn [app].
      cbn [max_until]. change (0 <=? 1) with true. cbv iota. exact Hres.
Qed.

(** X7. A header written as "module", whitespace, the placeholder
    "$[PREFIX]" or not, a name, whitespace or none, and "(" is found, with
    that name, wherever it stands, provided the character before "module"
    is not a space, a slash, a letter or an underscore. *)
Theorem written_header_found (s : string) (pre ws1 pf id ws2 rest : text) :
  list_ascii_of_string s
  = pre ++ list_ascii_of_string "module"
        ++ ws1 ++ pf ++ id ++ ws2 ++ "("%char :: rest ->
  ws1 <> [] -> Forall (fun c => is_space c = true) ws1 ->
  (pf = [] \/ pf = list_ascii_of_string "$[PREFIX]") ->
  id <> [] -> Forall (fun c => ident_char c = true) id ->
  Forall (fun c => is_space c = true) ws2 ->
  after_char barred_by_code (list_ascii_of_string s) (length pre) = false ->
  In (string_of_list_ascii id) (findall1 moduleNamePattern s).
Proof.
  intros E Hw1 Hsp1 Hpf Hn Hid Hsp2 Hfree.
  destruct (module_header_matches (length pre) (rev pre) ws1 pf id ws2 rest []
              Hw1 Hsp1 Hpf Hn Hid Hsp2) as (res & Hres & Hg).
  unfold findall1. rewrite finditer_module_headers.
  set (m := Found (length pre) (pos res) (groups res)).
  replace (string_of_list_ascii id) with (group 1 m)
    by (unfold group, m; cbn [m_groups]; rewrite Hg; reflexivity).
  apply in_map. unfold header_sites. apply in_flat_map.
  exists (length pre). split.
  - apply in_seq. rewrite E, length_app. lia.
  - rewrite Hfree. unfold matches_at, shape_at.
    rewrite E, state_at_app, Hres. left. reflexivity.
Qed.

Lemma written_header_found_witness :
  let s := "module $[PREFIX]top (" in
  list_ascii_of_string s
  = [] ++ list_ascii_of_string "module" ++ [" "%char]
       ++ list_ascii_of_string "$[PREFIX]" ++ list_ascii_of_string "top"
       ++ [" "%char] ++ "("%char :: []
  /\ after_char barred_by_code (list_ascii_of_string s) 0 = false
  /\ In "top" (findall1 moduleNamePattern s).
Proof.
  assert (H1 : list_ascii_of_string "module $[PREFIX]top ("
               = [] ++ list_ascii_of_string "module" ++ [" "%char]
                    ++ list_ascii_of_string "$[PREFIX]" ++ list_ascii_of_string "top"
                    ++ [" "%char] ++ "("%char :: []) by reflexivity.
  split; [exact H1|]. split; [reflexivity|].
  apply (written_header_found "module $[PREFIX]top (" [] [" "%char]
           (list_ascii_of_string "$[PREFIX]") (list_ascii_of_string "top")
           [" "%char] [] H1).
  - discriminate.
  - repeat constructor.
  - right. reflexivity.
  - discriminate.
  - repeat constructor.
  - repeat constructor.
  - reflexivity.
Defined.

(** A header match, taken apart: the text it covers and the group it
    sets. *)
Lemma module_header_written st st' :
  match_at module_header st = Some st' ->
  exists ws1 pf id ws2 hash ws3,
    consumed (list_ascii_of_string "module" ++ ws1 ++ pf ++ id
              ++ ws2 ++ hash ++ ws3 ++ ["("%char]) st st'
    /\ groups st' = (1, id) :: groups st
    /\ ws1 <> [] /\ whitespace ws1
    /\ (pf = [] \/ pf = list_ascii_of_string "$[PREFIX]")
    /\ id <> [] /\ Forall (fun c => ident_char c = true) id
    /\ whitespace ws2 /\ (hash = [] \/ hash = ["#"%char]) /\ whitespace ws3.
Proof.
  intros H. apply sre_match_trace in H.
  destruct H as (w & g & st1 & T & C & G & [= ->]).
  unfold module_header, seq_all in T. cbn [fold_right] in T.
  change (fold_right Seq Empty (map Literal (list_ascii_of_string "module")))
    with (lits (list_ascii_of_string "module")) in T.
  destruct T as (w1 & x1 & g1 & y1 & -> & -> & Tkw & T).
  apply trace_lits in Tkw. destruct Tkw as [-> ->].
  cbn [trace] in T.
  destruct T as (w2 & x2 & g2 & y2 & -> & -> & ((Hn2 & _ & Hw2) & ->) &
                 w3 & x3 & g3 & y3 & -> & -> & (rounds & -> & -> & Hlen & Hall) &
                 w4 & x4 & g4 & y4 & -> & -> & (g4' & -> & (Hn & _ & Hid) & ->) &
                 w5 & x5 & g5 & y5 & -> & -> & ((_ & _ & Hw5) & ->) &
                 w6 & x6 & g6 & y6 & -> & -> & ((_ & Hn6 & Hw6) & ->) &
                 w7 & x7 & g7 & y7 & -> & -> & ((_ & _ & Hw7) & ->) &
                 w8 & x8 & g8 & y8 & -> & -> & (-> & ->) & -> & ->).
  assert (Hr : concat (rev (map snd rounds)) = []
               /\ (concat (map fst rounds) = []
                   \/ concat (map fst rounds) = list_ascii_of_string "$[PREFIX]")).
  { destruct rounds as [|[w g] [|x rounds]]; simpl in Hlen; [simpl; auto | | lia].
    inversion Hall as [|? ? Hx _]; subst. simpl in Hx.
    apply (trace_lits (list_ascii_of_string "$[PREFIX]")) in Hx.
    destruct Hx as [-> ->]. simpl. auto. }
  destruct Hr as [Hr1 Hr2].
  exists w2, (concat (map fst rounds)), w4, w5, w6, w7.
  rewrite app_nil_r in C.
  split; [exact C|].
  split; [rewrite G, Hr1; simpl; reflexivity|].
  split; [intros ->; simpl in Hn2; lia|].
  split; [eapply Forall_impl; [|exact Hw2]; apply in_set_space|].
  split; [exact Hr2|].
  split; [intros ->; simpl in Hn; lia|].
  split; [exact Hid|].
  split; [eapply Forall_impl; [|exact Hw5]; apply in_set_newline_or_space|].
  split; [|eapply Forall_impl; [|exact Hw7]; apply in_set_newline_or_space].
  specialize (Hn6 1 eq_refl).
  destruct w6 as [|c [|c' w6]]; [left; reflexivity | | simpl in Hn6; lia].
  right. inversion Hw6 as [|? ? Hc _]; subst.
  unfold in_set in Hc. simpl in Hc. rewrite orb_false_r in Hc.
  apply Ascii.eqb_eq in Hc. subst. reflexivity.
Qed.

Lemma hash_not_space : in_set newline_or_space "#"%char = false.
Proof. reflexivity. Qed.

Lemma paren_not_space : in_set newline_or_space "("%char = false.
Proof. reflexivity. Qed.

(** An optional character that is there is taken first. *)
Lemma opt_takes p c n b a g k res :
  p c = true ->
  k (MState (S n) (c :: b) a g) = Some res ->
  repeat_one p 0 (Some 1) n b (c :: a) g k = Some res.
Proof.
  intros Hc Hk. cbn [repeat_one option_map Nat.pred]. rewrite Hc.
  destruct a; cbn [repeat_one Nat.eqb]; rewrite Hk; reflexivity.
Qed.

(** From the name on: the name, whitespace, "#" or not, whitespace, the
    parenthesis. *)
Lemma header_tail_matches n b id ws2 hash ws3 rest g :
  id <> [] -> Forall (fun c => ident_char c = true) id ->
  whitespace ws2 -> (hash = [] \/ hash = ["#"%char]) -> whitespace ws3 ->
  exists res,
    sre_match (plus [lower; upper; SChar "_"; digit])
      (MState n b (id ++ ws2 ++ hash ++ ws3 ++ "("%char :: rest) g)
      (fun st4 => sre_match (star newline_or_space)
                    (set_group 1
                       (MState n b (id ++ ws2 ++ hash ++ ws3 ++ "("%char :: rest) g)
                       st4)
         (fun st5 => sre_match (opt [SChar "#"]) st5
            (fun st6 => sre_match (star newline_or_space) st6
               (fun st7 => sre_match (Literal "(") st7 Some))))
    = Some res
    /\ groups res = (1, id) :: g.
Proof.
  intros Hn Hid Hws2 Hhash Hws3. destruct Hhash as [-> | ->].
  - cbn [app].
    replace (id ++ ws2 ++ ws3 ++ "("%char :: rest)
      with (id ++ (ws2 ++ ws3) ++ "("%char :: rest)
      by (rewrite <- app_assoc; reflexivity).
    apply header_name_matches; [exact Hn | exact Hid|].
    apply Forall_app. split; assumption.
  - eexists. split.
    + unfold plus. cbn [sre_match pos behind ahead groups].
      apply (repeat_one_all (in_set [lower; upper; SChar "_"; digit]) id).
      * exact Hid.
      * destruct ws2 as [|c ws2]; [reflexivity|]. inversion Hws2; subst. simpl.
        apply space_not_ident. assumption.
      * destruct id; [congruence | simpl; lia].
      * unfold set_group, star. cbn [sre_match pos behind ahead groups].
        apply (repeat_one_all (in_set newline_or_space) ws2).
        -- eapply Forall_impl; [|exact Hws2]. apply space_is_newline_or_space.
        -- exact hash_not_space.
        -- lia.
        -- unfold opt. cbn [sre_match pos behind ahead groups app].
           apply opt_takes; [reflexivity|].
           cbn [sre_match pos behind ahead groups].
           apply (repeat_one_all (in_set newline_or_space) ws3).
           ++ eapply Forall_impl; [|exact Hws3]. apply space_is_newline_or_space.
           ++ exact paren_not_space.
           ++ lia.
           ++ unfold one_char. cbn [ahead].
              change (Ascii.eqb "(" "(") with true. cbv iota. reflexivity.
    + cbn [groups]. f_equal. f_equal.
      replace (n + length id - n) with (length id) by lia.
      rewrite firstn_app, firstn_all, Nat.sub_diag, firstn_O. apply app_nil_r.
Qed.

(** A module header, written out in full, is matched, and group 1 is its
    name. *)
Lemma written_header_matches n b ws1 pf id ws2 hash ws3 rest g :
  ws1 <> [] -> whitespace ws1 ->
  (pf = [] \/ pf = list_ascii_of_string "$[PREFIX]") ->
  id <> [] -> Forall (fun c => ident_char c = true) id ->
  whitespace ws2 -> (hash = [] \/ hash = ["#"%char]) -> whitespace ws3 ->
  exists res,
    match_at module_header
      (MState n b (list_ascii_of_string "module"
                   ++ ws1 ++ pf ++ id ++ ws2 ++ hash ++ ws3 ++ "("%char :: rest) g)
    = Some res
    /\ groups res = (1, id) :: g.
Proof.
  intros Hw1 Hsp1 Hpf Hn Hid Hsp2 Hhash Hsp3.
  set (m := list_ascii_of_string "module").
  set (n1 := n + length m + length ws1).
  set (b1 := rev ws1 ++ rev m ++ b).
  destruct (header_tail_matches (n1 + length pf) (rev pf ++ b1) id ws2 hash ws3 rest g
              Hn Hid Hsp2 Hhash Hsp3) as (res & Hres & Hg).
  exists res. split; [|exact Hg].
  rewrite module_header_unfold. fold m.
  rewrite sre_match_lits, starts_with_app.
  rewrite skipn_app, skipn_all, Nat.sub_diag, skipn_O. cbn [app].
  unfold plus at 1. cbn [sre_match pos behind ahead groups].
  apply (repeat_one_all (in_set [SSpace]) ws1).
  - eapply Forall_impl; [|exact Hsp1]. intros c Hc. unfold in_set. simpl.
    rewrite Hc. reflexivity.
  - destruct Hpf as [-> | ->]; [|reflexivity].
    destruct id as [|c id]; [congruence|]. inversion Hid; subst. simpl.
    apply ident_not_space. assumption.
  - destruct ws1; [congruence | simpl; lia].
  - fold n1. fold b1. destruct Hpf as [-> | ->].
    + destruct id as [|c id]; [congruence|]. inversion Hid as [|? ? Hc _]; subst.
      rewrite max_until_skip.
      * change (0 <=? 0) with true. cbv iota.
        cbn [app length rev] in Hres. rewrite Nat.add_0_r in Hres. exact Hres.
      * intros j. unfold lit. rewrite sre_match_lits.
        change (list_ascii_of_string "$[PREFIX]")
          with ("$"%char :: list_ascii_of_string "[PREFIX]").
        cbn [app starts_with]. rewrite (ident_not_dollar c Hc). reflexivity.
    + apply max_until_first. unfold lit.
      rewrite sre_match_lits, starts_with_app.
      rewrite skipn_app, skipn_all, Nat.sub_diag, skipn_O. cbn [app].
      cbn [max_until]. change (0 <=? 1) with true. cbv iota. exact Hres.
Qed.

(** A written header is what the header pattern matches at its place, and
    group 1 is its name. *)
Lemma written_header_shape s p id :
  written_header s p id ->
  p <= length s
  /\ exists m, shape_at module_header s p = Some m
               /\ group 1 m = string_of_list_ascii id.
Proof.
  intros (pre & ws1 & pf & ws2 & hash & ws3 & rest & -> & <- & Hw1 & Hsp1 & Hpf
          & Hn & Hid & Hsp2 & Hhash & Hsp3).
  split; [rewrite length_app; lia|].
  destruct (written_header_matches (length pre) (rev pre) ws1 pf id ws2 hash ws3 rest []
              Hw1 Hsp1 Hpf Hn Hid Hsp2 Hhash Hsp3) as (res & Hres & Hg).
  exists (Found (length pre) (pos res) (groups res)). split.
  - unfold shape_at. rewrite state_at_app, Hres. reflexivity.
  - unfold group. cbn [m_groups]. rewrite Hg. reflexivity.
Qed.

(** Conversely, where the header pattern matches a header is written, and
    group 1 is its name. *)
Lemma shape_written_header s p m :
  p <= length s ->
  shape_at module_header s p = Some m ->
  exists id, written_header s p id /\ group 1 m = string_of_list_ascii id.
Proof.
  intros Hp Hm. unfold shape_at in Hm.
  destruct (match_at module_header (state_at s p)) as [st|] eqn:E; [|discriminate].
  injection Hm as <-.
  apply module_header_written in E.
  destruct E as (ws1 & pf & id & ws2 & hash & ws3 & [A _] & G & H).
  exists id. split.
  - exists (firstn p s), ws1, pf, ws2, hash, ws3, (ahead st).
    split.
    + rewrite <- (firstn_skipn p s) at 1. f_equal.
      unfold state_at in A. cbn [ahead] in A. rewrite A.
      rewrite <- !app_assoc. reflexivity.
    + split; [rewrite length_firstn; lia | exact H].
  - unfold group. cbn [m_groups]. rewrite G. reflexivity.
Qed.

Lemma flat_map_nil {A B : Type} (f : A -> list B) l :
  (forall x, In x l -> f x = []) -> flat_map f l = [].
Proof.
  induction l as [|a l IH]; intros H; simpl; [reflexivity|].
  rewrite (H a) by (left; reflexivity). apply IH. intros x Hx. apply H. right. exact Hx.
Qed.

Lemma flat_map_single {A B : Type} (f : A -> list B) l p :
  NoDup l -> In p l -> (forall q, In q l -> q <> p -> f q = []) ->
  flat_map f l = f p.
Proof.
  induction l as [|a l IH]; intros Hnd Hin H; [destruct Hin|].
  inversion Hnd as [|? ? Ha Hl]; subst. simpl. destruct Hin as [->|Hin].
  - rewrite flat_map_nil; [apply app_nil_r|].
    intros x Hx. apply H; [right; exact Hx|]. intros ->. contradiction.
  - rewrite (H a) by (try (left; reflexivity); intros ->; contradiction).
    apply IH; [exact Hl | exact Hin|]. intros q Hq. apply H. right. exact Hq.
Qed.

(** The places of [header_sites] are the written headers that count. *)
Lemma header_site_written barred s p m :
  p <= length s ->
  (if after_char barred s p then [] else matches_at module_header s p) = [m] ->
  exists id, header_at barred s p id /\ group 1 m = string_of_list_ascii id.
Proof.
  intros Hp H. destruct (after_char barred s p) eqn:Hb; [discriminate|].
  unfold matches_at in H.
  destruct (shape_at module_header s p) as [m0|] eqn:Hm; [|discriminate].
  injection H as ->.
  destruct (shape_written_header s p m Hp Hm) as (id & Hw & Hg).
  exists id. split; [split; assumption | exact Hg].
Qed.

Lemma header_at_site barred s p id :
  header_at barred s p id ->
  p <= length s
  /\ exists m,
       (if after_char barred s p then [] else matches_at module_header s p) = [m]
       /\ m_start m = p /\ group 1 m = string_of_list_ascii id.
Proof.
  intros [Hw Hb]. destruct (written_header_shape s p id Hw) as (Hp & m & Hm & Hg).
  split; [exact Hp|]. exists m. rewrite Hb. unfold matches_at. rewrite Hm.
  split; [reflexivity|]. split; [apply (shape_at_start _ _ _ _ Hm) | exact Hg].
Qed.

Lemma site_empty_or_one barred s p :
  (if after_char barred s p then [] else matches_at module_header s p) = []
  \/ exists m, (if after_char barred s p then [] else matches_at module_header s p) = [m].
Proof.
  destruct (after_char barred s p); [left; reflexivity|].
  unfold matches_at. destruct (shape_at module_header s p); eauto.
Qed.

(** C3, as stated, fails on " module foo (": the text has one header and
    its keyword follows a space, not a letter, an underscore or a slash; the
    resolver still answers "module" and prints the notice. *)
Lemma indented_header_not_resolved : ~ resolves_headers barred_by_spec " module foo (".
Proof.
  intros H. destruct (H (World ∅ [])) as [H1 _].
  specialize (H1 1 (list_ascii_of_string "foo")).
  assert (Hh : header_at barred_by_spec (list_ascii_of_string " module foo (") 1
                 (list_ascii_of_string "foo")).
  { split; [|reflexivity].
    exists [" "%char], [" "%char], [], [" "%char], [], [], [].
    repeat split; try reflexivity; try discriminate; try (left; reflexivity);
      repeat constructor. }
  assert (Hu : forall p' id',
             header_at barred_by_spec (list_ascii_of_string " module foo (") p' id' ->
             p' = 1).
  { intros p' id' Hh'. apply header_at_site in Hh'.
    destruct Hh' as (Hp & m & Hm & _). simpl in Hp.
    do 14 (destruct p' as [|p']; [try reflexivity; vm_compute in Hm; discriminate|]).
    lia. }
  specialize (H1 Hh Hu). vm_compute in H1. discriminate.
Qed.

(** C3 (amended). Count the module headers written in the text whose
    keyword "module" is not immediately preceded by a space, a letter, an
    underscore or a slash. When there is exactly one, the resolver returns
    its name and prints nothing; when there is none, or two or more, it
    returns "module" and prints the notice. *)
Theorem module_name_resolved (s : string) : resolves_headers barred_by_code s.
Proof.
  unfold resolves_headers. cbv zeta. intros w.
  set (t := list_ascii_of_string s).
  set (f := fun p => if after_char barred_by_code t p
                     then [] else matches_at module_header t p).
  assert (Hall : findall1 moduleNamePattern s
                 = map (group 1) (flat_map f (seq 0 (S (length t))))).
  { unfold findall1. fold t. rewrite finditer_module_headers. reflexivity. }
  rewrite resolve_module_name_eq. unfold chosen_name, name_notice. rewrite Hall.
  split.
  - intros p id Hh Hu.
    destruct (header_at_site _ _ _ _ Hh) as (Hp & m & Hm & _ & Hg).
    rewrite (flat_map_single f _ p).
    + fold (f p) in Hm. rewrite Hm. simpl. rewrite Hg, app_nil_r.
      destruct w; reflexivity.
    + apply seq_NoDup.
    + apply in_seq. lia.
    + intros q Hq Hne. apply in_seq in Hq.
      destruct (site_empty_or_one barred_by_code t q) as [E|(m' & E)]; [exact E|].
      exfalso. apply Hne.
      destruct (header_site_written barred_by_code t q m' ltac:(lia) E) as (id' & Hh' & _).
      exact (Hu q id' Hh').
  - intros [Hnone|(p & id & p' & id' & Hh & Hh' & Hne)].
    + rewrite flat_map_nil; [reflexivity|].
      intros q Hq. apply in_seq in Hq.
      destruct (site_empty_or_one barred_by_code t q) as [E|(m' & E)]; [exact E|].
      exfalso.
      destruct (header_site_written barred_by_code t q m' ltac:(lia) E) as (id0 & Hh0 & _).
      exact (Hnone q id0 Hh0).
    + destruct (header_at_site _ _ _ _ Hh) as (Hp & m & Hm & Hs & _).
      destruct (header_at_site _ _ _ _ Hh') as (Hp' & m' & Hm' & Hs' & _).
      assert (Hin : In m (flat_map f (seq 0 (S (length t))))).
      { apply in_flat_map. exists p. split; [apply in_seq; lia|].
        unfold f. rewrite Hm. left. reflexivity. }
      assert (Hin' : In m' (flat_map f (seq 0 (S (length t))))).
      { apply in_flat_map. exists p'. split; [apply in_seq; lia|].
        unfold f. rewrite Hm'. left. reflexivity. }
      assert (Hmm : m <> m') by (intros ->; congruence).
      destruct (flat_map f (seq 0 (S (length t)))) as [|a [|b l]].
      * destruct Hin.
      * destruct Hin as [<-|[]]. destruct Hin' as [<-|[]]. congruence.
      * reflexivity.
Qed.

Lemma module_name_resolved_witness :
  let t := list_ascii_of_string "module foo (" in
  header_at barred_by_code t 0 (list_ascii_of_string "foo")
  /\ (forall p' id', header_at barred_by_code t p' id' -> p' = 0)
  /\ resolve_module_name "module foo (" (World ∅ []) = (inr "foo", World ∅ []).
Proof.
  assert (Hh : header_at barred_by_code (list_ascii_of_string "module foo (") 0
                 (list_ascii_of_string "foo")).
  { split; [|reflexivity].
    exists [], [" "%char], [], [" "%char], [], [], [].
    repeat split; try reflexivity; try discriminate; try (left; reflexivity);
      repeat constructor. }
  assert (Hu : forall p' id',
             header_at barred_by_code (list_ascii_of_string "module foo (") p' id' ->
             p' = 0).
  { intros p' id' Hh'. apply header_at_site in Hh'.
    destruct Hh' as (Hp & m & Hm & _). simpl in Hp.
    destruct p' as [|p']; [reflexivity|].
    do 12 (destruct p' as [|p']; [vm_compute in Hm; discriminate|]).
    lia. }
  split; [exact Hh|]. split; [exact Hu|].
  exact (proj1 (module_name_resolved "module foo (" (World ∅ [])) 0 _ Hh Hu).
Defined.

End HeaderListing.
